(** * Ethereum validators monitoring: a shallow embedding of the core

    The development follows the TypeScript sources:
    - [InspectorService.calculateNextFinalizedSlot]   (inspector.service.ts)
    - [Eth2Client] header lookups, probing and retries (inspector.service.ts)
    - [ClickhouseService.writeAttestations]          (storage service)
    - [SummaryService]                               (summary.service.ts)
    - [CriticalNegativeDelta], [CriticalMissedProposes] and
      [CriticalAlertsService]                        (alertmanager)
    - [FileSourceService]                            (file-source.service.ts)
    - [ClickhouseService.writeBalances], [writeSyncs] (storage service)

    Slots are JavaScript [bigint]s and are modelled by [Z]; JavaScript
    objects used as dictionaries are finite maps or insertion-ordered
    association lists; exceptions are explicit error results. *)

From Stdlib Require Import ZArith Lia.
From stdpp Require Import base option list sorting gmap strings pretty.

Local Open Scope Z_scope.

(* ===================================================================== *)
(** * JavaScript dictionaries                                             *)
(* ===================================================================== *)

Module Dict.

(** Insertion-ordered dictionaries ([Object] properties, [Map] entries):
    lookup of a key, and assignment, which keeps the place of an existing
    key and appends a new one. *)
Section Dict.
Context {K V : Type} `{EqDecision K}.

Fixpoint getProp (d : list (K * V)) (key : K) : option V :=
  match d with
  | [] => None
  | (k, v) :: rest => if decide (k = key) then Some v else getProp rest key
  end.

Fixpoint setProp (d : list (K * V)) (key : K) (v : V) : list (K * V) :=
  match d with
  | [] => [(key, v)]
  | (k, v0) :: rest =>
      if decide (k = key) then (k, v) :: rest else (k, v0) :: setProp rest key v
  end.

Lemma getProp_setProp_eq d key v : getProp (setProp d key v) key = Some v.
Proof.
  induction d as [| [k v0] rest IH]; simpl.
  - by rewrite decide_True.
  - destruct (decide (k = key)) as [-> | Hne]; simpl.
    + by rewrite decide_True.
    + by rewrite decide_False.
Qed.

Lemma getProp_setProp_ne d key key' v :
  key ≠ key' → getProp (setProp d key v) key' = getProp d key'.
Proof.
  intros Hne. induction d as [| [k v0] rest IH]; simpl.
  - by rewrite decide_False.
  - destruct (decide (k = key)) as [-> | Hk]; simpl.
    + by rewrite !decide_False.
    + destruct (decide (k = key')); [done | apply IH].
Qed.

(** Assignment to a property: the entries afterwards are old entries or
    the assigned one; the keys keep their order, a new key comes last, and
    no key is doubled. *)
Lemma elem_of_setProp d key v k x :
  (k, x) ∈ setProp d key v → (k, x) ∈ d ∨ (k = key ∧ x = v).
Proof.
  induction d as [| [k0 v0] rest IH]; simpl.
  - intros [= -> ->]%list_elem_of_singleton. by right.
  - destruct (decide (k0 = key)) as [-> | Hne].
    + intros [[= -> ->] | Hin]%elem_of_cons; [by right | left; by right].
    + intros [[= -> ->] | Hin]%elem_of_cons; [left; by left |].
      destruct (IH Hin) as [Hold | Hnew]; [left; by right | by right].
Qed.

Lemma setProp_keys d key v :
  (setProp d key v).*1 = if decide (key ∈ d.*1) then d.*1 else d.*1 ++ [key].
Proof.
  induction d as [| [k0 v0] rest IH]; [done |].
  cbn [setProp]. destruct (decide (k0 = key)) as [-> | Hne]; rewrite !fmap_cons; cbn [fst].
  - rewrite decide_True; [done | by left].
  - rewrite IH. destruct (decide (key ∈ rest.*1)) as [Hin | Hnin].
    + rewrite decide_True; [done | by right].
    + rewrite decide_False; [done |]. intros [-> | Hin]%elem_of_cons; done.
Qed.

Lemma setProp_NoDup d key v : NoDup d.*1 → NoDup (setProp d key v).*1.
Proof.
  intros Hnd. rewrite setProp_keys. destruct (decide (key ∈ d.*1)); [done |].
  apply NoDup_app. split; [done |]. split; [| apply NoDup_singleton].
  intros k Hk ->%list_elem_of_singleton. done.
Qed.

Lemma getProp_is_Some d key : is_Some (getProp d key) ↔ key ∈ d.*1.
Proof.
  induction d as [| [k0 v0] rest IH]; simpl.
  - split; [by intros [? ?] | by intros ?%elem_of_nil].
  - destruct (decide (k0 = key)) as [-> | Hne].
    + split; [intros _; by left | by eexists].
    + rewrite IH. split; [by right | by intros [-> | ?]%elem_of_cons].
Qed.

End Dict.

End Dict.

(* ===================================================================== *)
(** * EpochScheduler: [InspectorService.calculateNextFinalizedSlot]       *)
(* ===================================================================== *)

Module EpochScheduler.

(** The three inputs the method reads: [dataProcessor.latestSlotInDb] and
    the configuration entries [START_SLOT] and [FETCH_INTERVAL_SLOTS]. *)
Record Scheduler := mkScheduler {
  latestSlotInDb : Z;
  START_SLOT : Z;
  FETCH_INTERVAL_SLOTS : Z
}.

(** [latestSlotInDb >= START_SLOT ? latestSlotInDb : START_SLOT] *)
Definition startingSlot (s : Scheduler) : Z :=
  if latestSlotInDb s >=? START_SLOT s then latestSlotInDb s else START_SLOT s.

(** [epoch * step + (step - 1n)] with [epoch = startingSlot / step];
    [bigint] division truncates towards zero, hence [Z.quot]. *)
Definition latestSlotInEpoch (step start : Z) : Z :=
  Z.quot start step * step + (step - 1).

(** The method itself.  A [bigint] division by [0n] raises a [RangeError],
    which is the [None] result. *)
Definition calculateNextFinalizedSlot (s : Scheduler) : option Z :=
  let step := FETCH_INTERVAL_SLOTS s in
  let start := startingSlot s in
  if step =? 0 then None
  else
    let last := latestSlotInEpoch step start in
    Some (if last =? start then last + step else last).

(** The scheduler state once the returned target has been processed and
    stored: [latestSlotInDb] advances to it. *)
Definition advance (s : Scheduler) (target : Z) : Scheduler :=
  {| latestSlotInDb := target;
     START_SLOT := START_SLOT s;
     FETCH_INTERVAL_SLOTS := FETCH_INTERVAL_SLOTS s |}.

(** The targets of [n] successive cycles, each one advancing the state. *)
Fixpoint targets (n : nat) (s : Scheduler) : list Z :=
  match n with
  | O => []
  | S n' =>
      match calculateNextFinalizedSlot s with
      | None => []
      | Some t => t :: targets n' (advance s t)
      end
  end.

Lemma startingSlot_max s : startingSlot s = Z.max (latestSlotInDb s) (START_SLOT s).
Proof. unfold startingSlot. destruct (Z.geb_spec (latestSlotInDb s) (START_SLOT s)); lia. Qed.

Lemma latestSlotInEpoch_aligned step start :
  0 < step → latestSlotInEpoch step start mod step = step - 1.
Proof.
  intros Hs. unfold latestSlotInEpoch.
  rewrite Z.add_comm, Z.mod_add by lia.
  apply Z.mod_small. lia.
Qed.

Lemma latestSlotInEpoch_ge step start :
  0 < step → start <= latestSlotInEpoch step start.
Proof.
  intros Hs. unfold latestSlotInEpoch.
  pose proof (Z.quot_rem' start step) as Hqr.
  destruct (Z.le_gt_cases 0 start) as [Hpos | Hneg].
  - pose proof (Z.rem_bound_pos start step Hpos Hs). nia.
  - pose proof (Z.rem_bound_pos_neg start step Hs ltac:(lia)). nia.
Qed.

Lemma latestSlotInEpoch_fixed step x :
  0 < step → x mod step = step - 1 → 0 <= x → latestSlotInEpoch step x = x.
Proof.
  intros Hs Hm Hx. unfold latestSlotInEpoch.
  rewrite Z.quot_div_nonneg by lia.
  pose proof (Z.div_mod x step ltac:(lia)). nia.
Qed.

Lemma calculateNextFinalizedSlot_some s :
  0 < FETCH_INTERVAL_SLOTS s →
  calculateNextFinalizedSlot s =
    Some (let last := latestSlotInEpoch (FETCH_INTERVAL_SLOTS s) (startingSlot s) in
          if last =? startingSlot s then last + FETCH_INTERVAL_SLOTS s else last).
Proof.
  intros Hs. unfold calculateNextFinalizedSlot.
  destruct (Z.eqb_spec (FETCH_INTERVAL_SLOTS s) 0); [lia | reflexivity].
Qed.

Lemma next_aligned s r :
  0 < FETCH_INTERVAL_SLOTS s →
  calculateNextFinalizedSlot s = Some r →
  r mod FETCH_INTERVAL_SLOTS s = FETCH_INTERVAL_SLOTS s - 1.
Proof.
  intros Hs. rewrite calculateNextFinalizedSlot_some by done.
  intros [= <-]. cbv zeta.
  pose proof (latestSlotInEpoch_aligned _ (startingSlot s) Hs) as Ha.
  destruct (Z.eqb_spec (latestSlotInEpoch (FETCH_INTERVAL_SLOTS s) (startingSlot s))
              (startingSlot s)); [| done].
  rewrite <- (Z.mul_1_l (FETCH_INTERVAL_SLOTS s)) at 2.
  by rewrite Z.mod_add by lia.
Qed.

Lemma next_above_start s r :
  0 < FETCH_INTERVAL_SLOTS s →
  calculateNextFinalizedSlot s = Some r →
  startingSlot s < r.
Proof.
  intros Hs. rewrite calculateNextFinalizedSlot_some by done.
  intros [= <-]. cbv zeta.
  pose proof (latestSlotInEpoch_ge _ (startingSlot s) Hs).
  destruct (Z.eqb_spec (latestSlotInEpoch (FETCH_INTERVAL_SLOTS s) (startingSlot s))
              (startingSlot s)); lia.
Qed.

(** C6. With a positive step, [calculateNextFinalizedSlot] returns a slot
    [r] that is the last slot of an epoch ([r mod step = step - 1]) and is
    strictly greater than [max latestSlotInDb START_SLOT]; it is the
    starting point plus one full step when the starting point is already
    the last slot of its epoch, and the last slot of the starting point's
    epoch otherwise; and once [latestSlotInDb] has advanced to [r] the next
    call returns a target that is strictly greater and lies in a strictly
    later epoch. *)
Theorem calculateNextFinalizedSlot_spec (s : Scheduler) :
  0 < FETCH_INTERVAL_SLOTS s →
  let step := FETCH_INTERVAL_SLOTS s in
  let start := Z.max (latestSlotInDb s) (START_SLOT s) in
  ∃ r, calculateNextFinalizedSlot s = Some r
     ∧ r mod step = step - 1
     ∧ start < r
     ∧ (latestSlotInEpoch step start = start → r = start + step)
     ∧ (latestSlotInEpoch step start ≠ start → r = latestSlotInEpoch step start)
     ∧ ∃ r', calculateNextFinalizedSlot (advance s r) = Some r'
           ∧ r < r'
           ∧ r `div` step < r' `div` step.
Proof.
  intros Hs step start.
  pose proof (calculateNextFinalizedSlot_some s Hs) as Hsome.
  destruct (calculateNextFinalizedSlot s) as [r|] eqn:Hr; [| done].
  exists r. split; [done |].
  pose proof (next_aligned s r Hs Hr) as Hal.
  pose proof (next_above_start s r Hs Hr) as Hgt.
  rewrite startingSlot_max in Hgt. fold start in Hgt. fold step in Hal.
  split; [done |]. split; [done |].
  assert (Hcase : r = if latestSlotInEpoch step start =? start
                      then latestSlotInEpoch step start + step
                      else latestSlotInEpoch step start).
  { injection Hsome as ->. cbv zeta. by rewrite startingSlot_max. }
  split; [| split].
  - intros He. rewrite Hcase, He, Z.eqb_refl. done.
  - intros Hne. rewrite Hcase. by destruct (Z.eqb_spec (latestSlotInEpoch step start) start).
  - assert (Hs' : 0 < FETCH_INTERVAL_SLOTS (advance s r)) by done.
    pose proof (calculateNextFinalizedSlot_some (advance s r) Hs') as Hsome'.
    destruct (calculateNextFinalizedSlot (advance s r)) as [r'|] eqn:Hr'; [| done].
    exists r'. split; [done |].
    pose proof (next_aligned _ r' Hs' Hr') as Hal'.
    pose proof (next_above_start _ r' Hs' Hr') as Hgt'.
    rewrite startingSlot_max in Hgt'. simpl in Hgt', Hal'. fold step in Hal'.
    assert (r < r') by lia. split; [done |].
    pose proof (Z.div_mod r step ltac:(lia)).
    pose proof (Z.div_mod r' step ltac:(lia)).
    nia.
Qed.

Lemma calculateNextFinalizedSlot_spec_witness :
  ∃ r, calculateNextFinalizedSlot (mkScheduler 64 0 32) = Some r
     ∧ r mod 32 = 32 - 1
     ∧ Z.max 64 0 < r
     ∧ (latestSlotInEpoch 32 (Z.max 64 0) = Z.max 64 0 → r = Z.max 64 0 + 32)
     ∧ (latestSlotInEpoch 32 (Z.max 64 0) ≠ Z.max 64 0 → r = latestSlotInEpoch 32 (Z.max 64 0))
     ∧ ∃ r', calculateNextFinalizedSlot (advance (mkScheduler 64 0 32) r) = Some r'
           ∧ r < r'
           ∧ r `div` 32 < r' `div` 32.
Proof.
  apply (calculateNextFinalizedSlot_spec (mkScheduler 64 0 32)). simpl. lia.
Defined.

(** Every target of a run lies above the starting point of the run, and
    the targets of a run are strictly increasing. *)
Lemma targets_above n :
  ∀ s x, 0 < FETCH_INTERVAL_SLOTS s → x ∈ targets n s → startingSlot s < x.
Proof.
  induction n as [| n IH]; intros s x Hs Hx; simpl in Hx.
  - by apply elem_of_nil in Hx.
  - destruct (calculateNextFinalizedSlot s) as [t |] eqn:Ht; [| by apply elem_of_nil in Hx].
    pose proof (next_above_start s t Hs Ht) as Hgt.
    apply elem_of_cons in Hx as [-> | Hx]; [done |].
    apply IH in Hx; [| done].
    rewrite startingSlot_max in Hx. simpl in Hx. lia.
Qed.

Lemma targets_increasing n :
  ∀ s, 0 < FETCH_INTERVAL_SLOTS s → StronglySorted Z.lt (targets n s).
Proof.
  induction n as [| n IH]; intros s Hs; simpl; [constructor |].
  destruct (calculateNextFinalizedSlot s) as [t |] eqn:Ht; [| constructor].
  constructor; [by apply IH |].
  apply Forall_forall. intros x Hx. apply targets_above in Hx; [| done].
  rewrite startingSlot_max in Hx. simpl in Hx. lia.
Qed.

(** Sample runs: from slot 64 the target is 95; from 95 (already the last
    slot of epoch 2) it is 127. *)
Example next_from_64 : calculateNextFinalizedSlot (mkScheduler 64 0 32) = Some 95.
Proof. reflexivity. Qed.

Example next_from_95 : calculateNextFinalizedSlot (mkScheduler 95 0 32) = Some 127.
Proof. reflexivity. Qed.

Example targets_from_0 : targets 3 (mkScheduler 0 0 32) = [31; 63; 95].
Proof. reflexivity. Qed.

(** X1. With a positive step, once a target has been processed the next
    target is exactly one step further: a run of [n] cycles visits [n]
    consecutive epoch ends, none skipped and none repeated. *)
Theorem targets_consecutive (n : nat) (s : Scheduler) (r : Z) :
  0 < FETCH_INTERVAL_SLOTS s →
  calculateNextFinalizedSlot s = Some r →
  targets n s = (λ i : nat, r + Z.of_nat i * FETCH_INTERVAL_SLOTS s) <$> seq 0 n.
Proof.
  intros Hs. revert s r Hs.
  assert (Hnext : ∀ s r, 0 < FETCH_INTERVAL_SLOTS s →
            calculateNextFinalizedSlot s = Some r →
            calculateNextFinalizedSlot (advance s r) = Some (r + FETCH_INTERVAL_SLOTS s)).
  { intros s r Hs Hr.
    pose proof (next_aligned s r Hs Hr) as Hal.
    pose proof (next_above_start s r Hs Hr) as Hgt.
    rewrite startingSlot_max in Hgt.
    rewrite calculateNextFinalizedSlot_some by done. f_equal. cbv zeta.
    rewrite startingSlot_max. simpl.
    replace (Z.max r (START_SLOT s)) with r by lia.
    set (step := FETCH_INTERVAL_SLOTS s) in *.
    destruct (Z.eqb_spec (latestSlotInEpoch step r) r) as [He | Hne]; [lia |].
    destruct (Z.le_gt_cases 0 r) as [Hpos | Hneg].
    { by rewrite latestSlotInEpoch_fixed in Hne. }
    unfold latestSlotInEpoch in *.
    pose proof (Z.quot_rem' r step) as Hqr.
    pose proof (Z.rem_bound_pos_neg r step Hs ltac:(lia)) as Hrem.
    pose proof (Z.div_mod r step ltac:(lia)) as Hdm.
    rewrite Hal in Hdm.
    assert (r `div` step - r `quot` step = -1 ∨ r `div` step - r `quot` step = 0) as [Hd | Hd]
      by nia; nia. }
  induction n as [| n IH]; intros s r Hs Hr; [done |].
  cbn [targets]. rewrite Hr. cbn [seq fmap list_fmap]. f_equal; [lia |].
  rewrite (IH (advance s r) (r + FETCH_INTERVAL_SLOTS s) Hs (Hnext s r Hs Hr)).
  rewrite <- fmap_S_seq, <- list_fmap_compose.
  apply list_fmap_ext. intros i x _. simpl. lia.
Qed.

Lemma targets_consecutive_witness :
  targets 4 (mkScheduler 70 0 32) = (λ i : nat, 95 + Z.of_nat i * 32) <$> seq 0 4.
Proof.
  apply (targets_consecutive 4 (mkScheduler 70 0 32) 95); [simpl; lia | reflexivity].
Defined.

End EpochScheduler.

(* ===================================================================== *)
(** * ChainClient: errors, asynchronous calls, retry and fallback         *)
(* ===================================================================== *)

Module ChainClient.

(** What a rejected promise carries: a [BeaconChainGeneralApiError] with
    its optional [$httpCode], or a plain [Error]. *)
Inductive error :=
| BeaconChainGeneralApiError (message : string) (httpCode : option Z)
| Error (message : string).

(** [e.$httpCode], [undefined] on a plain [Error]. *)
Definition httpCode (e : error) : option Z :=
  match e with
  | BeaconChainGeneralApiError _ c => c
  | Error _ => None
  end.

(** [404 != e.$httpCode] is [negb (is_404 e)]. *)
Definition is_404 (e : error) : bool :=
  match httpCode e with
  | Some c => c =? 404
  | None => false
  end.

Inductive result (A : Type) :=
| Ok (a : A)
| Err (e : error).
Arguments Ok {A} a.
Arguments Err {A} e.

(** An [async] method over a world [W]: it settles with a value or a
    rejection and leaves a new world. *)
Definition Async (W A : Type) : Type := W → result A * W.

Section AsyncOps.
Context {W : Type}.

Definition ret {A} (a : A) : Async W A := λ w, (Ok a, w).
Definition throw {A} (e : error) : Async W A := λ w, (Err e, w).

(** [await m] followed by the continuation [k]. *)
Definition bind {A B} (m : Async W A) (k : A → Async W B) : Async W B :=
  λ w, match m w with
       | (Ok a, w') => k a w'
       | (Err e, w') => (Err e, w')
       end.

(** [m.catch(h)] and [try { m } catch (e) { h e }]. *)
Definition catch {A} (m : Async W A) (h : error → Async W A) : Async W A :=
  λ w, match m w with
       | (Ok a, w') => (Ok a, w')
       | (Err e, w') => h e w'
       end.
End AsyncOps.

Notation "'let*' x ':=' m 'in' k" := (bind m (λ x, k))
  (at level 10, x name, m at level 100, k at level 200, only parsing).

(** [ShortBeaconBlockHeader] *)
Record ShortBeaconBlockHeader := mkHeader {
  slotNumber : Z;
  stateRoot : string;
  blockRoot : string;
  parentRoot : string
}.

(** The [state: bigint | string] argument of header lookups. *)
Inductive StateId :=
| SlotId (slot : Z)
| StrId (id : string).

(* --------------------------------------------------------------------- *)
(** ** [retryRequest] and [getBeaconBlockHeader]                          *)
(* --------------------------------------------------------------------- *)

Module Retry.

(** [this.endpoints]: only the entries the header lookup needs are
    distinguished. *)
Inductive Endpoint :=
| version
| genesis
| beaconHeaders (slotOrBlockRoot : StateId)
| blockInfo (block : StateId).

(** One HTTP request: the base URL it went to and the endpoint. *)
Record Request := mkRequest { rpcUrl : string; subUrl : Endpoint }.

(** The world of the client is the chronological log of the requests it
    has made; a server answers a request knowing how many came before, so
    its answers may change over time. *)
Definition Net (A : Type) : Type := Async (list Request) A.
Definition Server (T : Type) : Type := Request → nat → result T.

(** [this.rpcUrls]; [backup] is [''] when no backup URL is configured. *)
Record RpcUrls := mkRpcUrls { main : string; backup : string }.

(** JSON body [{ data: ... }] *)
Record Envelope (D : Type) := mkEnvelope { data : D }.
Arguments mkEnvelope {D} data.
Arguments data {D} e.

(** [BlockHeaderResponse]: [root] and the fields of [header.message]. *)
Record BlockHeaderResponse := mkBlockHeaderResponse {
  root : string;
  slot : Z;
  state_root : string;
  parent_root : string
}.

Record RequestRetryOptions := mkOptions {
  maxRetries : option nat;
  dataOnly : option bool;
  fallbackConditionCallback : option (error → bool)
}.

(** [if (dataOnly) return res.data; else return res;] *)
Inductive Payload (D : Type) :=
| Data (d : D)
| Whole (res : Envelope D).
Arguments Data {D} d.
Arguments Whole {D} res.

Section Requests.
Context {D : Type}.
Variable rpcUrls : RpcUrls.
Variable server : Server (Envelope D).

(** [apiGet]: one request, logged, answered by the server. *)
Definition apiGet (url : string) (sub : Endpoint) : Net (Envelope D) :=
  λ log, (server (mkRequest url sub) (length log), log ++ [mkRequest url sub]).

(** [rejectDelay(ms)]: waits, then rejects with the reason it was given.
    Time is not part of the world, so only the rejection remains. *)
Definition rejectDelay {A} (reason : error) : Net A := throw reason.

(** Modelled from the spec: the helper [retrier] of
    [common/functions/retrier] is not among the sources.  The
    specification says the request is retried "up to N times with
    bounded backoff": the callback is attempted until it succeeds or the
    budget of [n] attempts is used, and the last rejection is the one
    reported.  Every budget makes at least one attempt. *)
Fixpoint retrier {A} (n : nat) (callback : Net A) : Net A :=
  λ log, match callback log with
         | (Ok a, log') => (Ok a, log')
         | (Err e, log') =>
             match n with
             | S (S _ as m) => retrier m callback log'
             | _ => (Err e, log')
             end
         end.

Definition retryRequest (callback : string → Net (Envelope D))
    (options : RequestRetryOptions) : Net (Payload D) :=
  let maxRetries := default 5%nat (maxRetries options) in
  let dataOnly := default true (dataOnly options) in
  let fallbackConditionCallback :=
    default (λ _, true) (fallbackConditionCallback options) in
  let retry {A} := @retrier A maxRetries in
  let* res :=
    catch
      (catch
         (catch (callback (main rpcUrls)) rejectDelay)
         (λ _, retry (callback (main rpcUrls))))
      (λ e,
         if fallbackConditionCallback e then
           if String.eqb (backup rpcUrls) "" then throw e
           else retry (callback (backup rpcUrls))
         else throw e) in
  if dataOnly then ret (Data (data res)) else ret (Whole res).
End Requests.

Section Headers.
Variable rpcUrls : RpcUrls.
Variable server : Server (Envelope BlockHeaderResponse).

Definition shortHeader (blockHeader : BlockHeaderResponse) : ShortBeaconBlockHeader :=
  {| slotNumber := slot blockHeader;
     stateRoot := state_root blockHeader;
     blockRoot := root blockHeader;
     parentRoot := parent_root blockHeader |}.

(** [getBeaconBlockHeader(state, maxRetries = 3)] *)
Definition getBeaconBlockHeader (state : StateId) (maxRetries : nat)
  : Net ShortBeaconBlockHeader :=
  let* blockHeader :=
    retryRequest rpcUrls
      (λ rpcURL, apiGet server rpcURL (beaconHeaders state))
      {| maxRetries := Some maxRetries;
         dataOnly := None;
         fallbackConditionCallback := Some (λ e, negb (is_404 e)) |} in
  match blockHeader with
  | Data d => ret (shortHeader d)
  | Whole res => ret (shortHeader (data res))
  end.
End Headers.

(** A server on which every header is absent, and one that is down. *)
Definition notFound : error := BeaconChainGeneralApiError "not found" (Some 404).
Definition unavailable : error := BeaconChainGeneralApiError "unavailable" (Some 503).
Definition server404 : Server (Envelope BlockHeaderResponse) := λ _ _, Err notFound.

(** The primary is down, the backup serves slot 40. *)
Definition serverBackupOnly : Server (Envelope BlockHeaderResponse) :=
  λ req _,
    if String.eqb (rpcUrl req) "http://backup"
    then Ok (mkEnvelope (mkBlockHeaderResponse "0xb40" 40 "0xs40" "0xb39"))
    else Err unavailable.

Definition bothUrls : RpcUrls := mkRpcUrls "http://main" "http://backup".
Definition mainOnly : RpcUrls := mkRpcUrls "http://main" "".

Section RetryFacts.
Context {D : Type}.
Variable server : Server (Envelope D).

(** When the server rejects every attempt, [retrier] uses its whole
    budget and reports the last rejection. *)
Lemma retrier_all_fail url sub (e : nat → error) :
  (∀ i, server (mkRequest url sub) i = Err (e i)) →
  ∀ n log,
    retrier n (apiGet server url sub) log =
      (Err (e (length log + Nat.max 1 n - 1)%nat),
       log ++ replicate (Nat.max 1 n) (mkRequest url sub)).
Proof.
  intros Hfail n. induction n as [| n IH]; intros log.
  - simpl. unfold apiGet. rewrite Hfail. do 2 f_equal. f_equal. lia.
  - destruct n as [| k].
    + simpl. unfold apiGet. rewrite Hfail. do 2 f_equal. f_equal. lia.
    + change (retrier (S (S k)) (apiGet server url sub) log)
        with (match apiGet server url sub log with
              | (Ok a, log') => (Ok a, log')
              | (Err _, log') => retrier (S k) (apiGet server url sub) log'
              end).
      unfold apiGet at 1. rewrite Hfail, IH.
      rewrite length_app. cbn [length].
      replace (Nat.max 1 (S (S k))) with (S (Nat.max 1 (S k))) by lia.
      simpl replicate. rewrite <- app_assoc. simpl.
      do 2 f_equal. f_equal. lia.
Qed.

(** A first attempt that succeeds is the only request made. *)
Lemma retrier_first_ok {A} (callback : Net A) n log a log' :
  callback log = (Ok a, log') → retrier n callback log = (Ok a, log').
Proof. intros H. destruct n; simpl; by rewrite H. Qed.
End RetryFacts.

Lemma getBeaconBlockHeader_first_ok rpcUrls server state n log res :
  server (mkRequest (main rpcUrls) (beaconHeaders state)) (length log) = Ok res →
  getBeaconBlockHeader rpcUrls server state n log =
    (Ok (shortHeader (data res)), log ++ [mkRequest (main rpcUrls) (beaconHeaders state)]).
Proof.
  intros H. unfold getBeaconBlockHeader, retryRequest, bind, catch, apiGet. simpl.
  by rewrite H.
Qed.

(** C7 (as the code has it).  When every request to the primary endpoint
    is rejected, a header lookup makes one attempt plus the whole retry
    budget on the primary, whatever the rejections are (a 404 included);
    then, if the last rejection is a 404 or no backup URL is configured,
    that last rejection is surfaced and the backup is never contacted;
    otherwise the lookup continues on the backup endpoint with a fresh
    retry budget. *)
Theorem getBeaconBlockHeader_primary_rejects
    rpcUrls server state (n : nat) (e : nat → error) (log : list Request) :
  (∀ i, server (mkRequest (main rpcUrls) (beaconHeaders state)) i = Err (e i)) →
  let primary := mkRequest (main rpcUrls) (beaconHeaders state) in
  let budget := Nat.max 1 n in
  let log1 := log ++ replicate (S budget) primary in
  let last := e (length log + budget)%nat in
  getBeaconBlockHeader rpcUrls server state n log =
    if is_404 last || String.eqb (backup rpcUrls) ""
    then (Err last, log1)
    else (let* res := retrier n (apiGet server (backup rpcUrls) (beaconHeaders state)) in
          ret (shortHeader (data res))) log1.
Proof.
  intros Hfail primary budget log1 last.
  unfold getBeaconBlockHeader, retryRequest. simpl default.
  unfold bind at 1 2. unfold catch at 1 2 3. unfold apiGet at 1.
  rewrite Hfail. unfold rejectDelay, throw at 1.
  rewrite (retrier_all_fail server _ _ e Hfail).
  rewrite length_app. cbn [length].
  replace (length log + 1 + Nat.max 1 n - 1)%nat with (length log + budget)%nat by (subst budget; lia).
  fold last.
  replace ((log ++ [mkRequest (main rpcUrls) (beaconHeaders state)])
             ++ replicate (Nat.max 1 n) (mkRequest (main rpcUrls) (beaconHeaders state)))
    with log1 by (subst log1 primary budget; simpl; by rewrite <- app_assoc).
  destruct (is_404 last) eqn:H404; simpl.
  - reflexivity.
  - destruct (String.eqb (backup rpcUrls) "") eqn:Hb; simpl.
    + reflexivity.
    + unfold bind. destruct (retrier n _ log1) as [[res | err] log2]; reflexivity.
Qed.

Lemma getBeaconBlockHeader_primary_rejects_witness :
  getBeaconBlockHeader bothUrls server404 (SlotId 40) 3 [] =
    (Err notFound, replicate 4 (mkRequest "http://main" (beaconHeaders (SlotId 40)))).
Proof.
  apply (getBeaconBlockHeader_primary_rejects bothUrls server404 (SlotId 40) 3
           (λ _, notFound) []).
  intros i. reflexivity.
Defined.

(** C7, where the specification does not hold: the first answer of the primary is a
    404, and the lookup still asks the primary three more times. *)
Lemma getBeaconBlockHeader_404_is_retried :
  server404 (mkRequest "http://main" (beaconHeaders (SlotId 40))) 0%nat = Err notFound
  ∧ is_404 notFound = true
  ∧ snd (getBeaconBlockHeader bothUrls server404 (SlotId 40) 3 [])
    = [ mkRequest "http://main" (beaconHeaders (SlotId 40));
        mkRequest "http://main" (beaconHeaders (SlotId 40));
        mkRequest "http://main" (beaconHeaders (SlotId 40));
        mkRequest "http://main" (beaconHeaders (SlotId 40)) ]
  ∧ snd (getBeaconBlockHeader bothUrls server404 (SlotId 40) 3 [])
    ≠ [ mkRequest "http://main" (beaconHeaders (SlotId 40)) ].
Proof. repeat split; [reflexivity.. | discriminate]. Qed.

(** A retryable failure moves to the backup once the primary budget is
    used: four requests to the primary, then the backup answers. *)
Example getBeaconBlockHeader_falls_back :
  getBeaconBlockHeader bothUrls serverBackupOnly (SlotId 40) 3 [] =
    (Ok (mkHeader 40 "0xs40" "0xb40" "0xb39"),
     replicate 4 (mkRequest "http://main" (beaconHeaders (SlotId 40)))
       ++ [mkRequest "http://backup" (beaconHeaders (SlotId 40))]).
Proof. reflexivity. Qed.

(** Without a backup URL the rejection of the last primary attempt is what
    the caller sees. *)
Example getBeaconBlockHeader_no_backup :
  getBeaconBlockHeader mainOnly serverBackupOnly (SlotId 40) 3 [] =
    (Err unavailable, replicate 4 (mkRequest "http://main" (beaconHeaders (SlotId 40)))).
Proof. reflexivity. Qed.

(** Every run of [retrier] makes between one and [max 1 n] requests, all
    of them the same, and a rejected run has used them all. *)
Lemma retrier_requests {D} (server : Server (Envelope D)) url sub n :
  ∀ log, ∃ k : nat,
    (1 ≤ k ≤ Nat.max 1 n)%nat
    ∧ (retrier n (apiGet server url sub) log).2 = log ++ replicate k (mkRequest url sub)
    ∧ (∀ e, (retrier n (apiGet server url sub) log).1 = Err e → k = Nat.max 1 n).
Proof.
  induction n as [| n IH]; intros log.
  - exists 1%nat. simpl. unfold apiGet.
    destruct (server _ _); simpl; repeat split; auto; lia.
  - destruct n as [| m].
    + exists 1%nat. simpl. unfold apiGet.
      destruct (server _ _); simpl; repeat split; auto; lia.
    + change (retrier (S (S m)) (apiGet server url sub) log)
        with (match apiGet server url sub log with
              | (Ok a, log') => (Ok a, log')
              | (Err _, log') => retrier (S m) (apiGet server url sub) log'
              end).
      destruct (apiGet server url sub log) as [[a | e0] log0] eqn:Hget;
        unfold apiGet in Hget; injection Hget as Hres <-.
      * exists 1%nat. simpl. repeat split; try lia. by intros e [=].
      * destruct (IH (log ++ [mkRequest url sub])) as (k & Hk & Hlog & Hrej).
        exists (S k). split; [lia |]. split.
        -- rewrite Hlog, <- app_assoc. done.
        -- intros e He. rewrite (Hrej e He). lia.
Qed.

(** X5. Whatever the server answers, a header lookup makes at least one
    and at most [1 + max 1 n] requests to the primary URL, followed by at
    most [max 1 n] requests to the backup URL, all for the header asked
    for; the backup is contacted only when a backup URL is configured and
    only after the primary has been asked [1 + max 1 n] times. *)
Theorem getBeaconBlockHeader_requests rpcUrls server state (n : nat) (log : list Request) :
  ∃ a b : nat,
    (getBeaconBlockHeader rpcUrls server state n log).2
      = log ++ replicate a (mkRequest (main rpcUrls) (beaconHeaders state))
            ++ replicate b (mkRequest (backup rpcUrls) (beaconHeaders state))
    ∧ (1 ≤ a ≤ S (Nat.max 1 n))%nat
    ∧ (b ≤ Nat.max 1 n)%nat
    ∧ ((0 < b)%nat → a = S (Nat.max 1 n) ∧ backup rpcUrls ≠ "").
Proof.
  unfold getBeaconBlockHeader, retryRequest. simpl default.
  unfold bind, catch. unfold apiGet at 1.
  destruct (server (mkRequest (main rpcUrls) (beaconHeaders state)) (length log)) as [res | e0].
  - exists 1%nat, 0%nat. simpl. repeat split; lia.
  - unfold rejectDelay, throw at 1.
    destruct (retrier_requests server (main rpcUrls) (beaconHeaders state) n
                (log ++ [mkRequest (main rpcUrls) (beaconHeaders state)]))
      as (k & Hk & Hlog & Hrej).
    destruct (retrier n (apiGet server (main rpcUrls) (beaconHeaders state))
                (log ++ [mkRequest (main rpcUrls) (beaconHeaders state)]))
      as [[res | e1] log1] eqn:Hrun; simpl in Hlog, Hrej.
    + exists (S k), 0%nat. simpl. rewrite Hlog, ?app_nil_r, <- ?app_assoc.
      repeat split; lia.
    + specialize (Hrej e1 eq_refl). subst k.
      destruct (is_404 e1); simpl.
      * exists (S (Nat.max 1 n)), 0%nat. unfold throw. simpl.
        rewrite Hlog, ?app_nil_r, <- ?app_assoc. repeat split; lia.
      * destruct (String.eqb_spec (backup rpcUrls) "") as [Hb | Hb].
        -- exists (S (Nat.max 1 n)), 0%nat. unfold throw. simpl.
           rewrite Hlog, ?app_nil_r, <- ?app_assoc. repeat split; lia.
        -- destruct (retrier_requests server (backup rpcUrls) (beaconHeaders state) n log1)
             as (k2 & Hk2 & Hlog2 & _).
           exists (S (Nat.max 1 n)), k2.
           destruct (retrier n (apiGet server (backup rpcUrls) (beaconHeaders state)) log1)
             as [[res | e2] log2]; simpl in *;
             rewrite Hlog2, Hlog, <- !app_assoc; repeat split; try lia; done.
Qed.

End Retry.

(* --------------------------------------------------------------------- *)
(** ** Missed slots: probing and the walk along [parentRoot]              *)
(* --------------------------------------------------------------------- *)

Module MissedSlots.

Section Walk.
Context {World : Type}.

(** The header lookup the methods below call; its retries are internal
    to it, and its answers may depend on the world. *)
Variable getBeaconBlockHeader : StateId → Async World ShortBeaconBlockHeader.

(** The world together with a ghost record of the lookups made and of
    what each one answered. *)
Record Probed := mkProbed {
  world : World;
  probes : list (StateId * result ShortBeaconBlockHeader)
}.

Definition lookup (state : StateId) : Async Probed ShortBeaconBlockHeader :=
  λ s, let (r, w') := getBeaconBlockHeader state (world s) in
       (r, mkProbed w' (probes s ++ [(state, r)])).

(** The common body of the two probing methods: [move] is [slot + 1n] or
    [slot - 1n].  The recursion of the source is on [maxDeep]; here it is
    structural on [depth], which the entry points set to [maxDeep]. *)
Fixpoint probe (move : Z → Z) (depth : nat) (slot maxDeep : Z)
  : Async Probed ShortBeaconBlockHeader :=
  catch (lookup (SlotId slot))
    (λ e,
       if negb (is_404 e) then throw e
       else if maxDeep <? 1 then throw e
       else match depth with
            | O => throw e
            | S d => probe move d (move slot) (maxDeep - 1)
            end).

Definition getNextNotMissedBlockHeader (slot maxDeep : Z) :=
  probe (λ slot, slot + 1) (Z.to_nat maxDeep) slot maxDeep.

Definition getPreviousNotMissedBlockHeader (slot maxDeep : Z) :=
  probe (λ slot, slot - 1) (Z.to_nat maxDeep) slot maxDeep.

(** [checkSlotIsMissed]: the recursion follows whatever the lookups
    answer, so it is bounded by [fuel]; [None] means the fuel ran out
    before the walk was decided. *)
Fixpoint checkSlotIsMissed (fuel : nat) (target : Z) (someNextBlock : ShortBeaconBlockHeader)
  : Async Probed (option (bool * ShortBeaconBlockHeader)) :=
  if target >? slotNumber someNextBlock then
    throw (Error "Next block is greater than probably missing block")
  else if target =? slotNumber someNextBlock then
    ret (Some (false, someNextBlock))
  else
    let* blockHeader := lookup (StrId (parentRoot someNextBlock)) in
    if target =? slotNumber blockHeader then ret (Some (false, blockHeader))
    else if target >? slotNumber blockHeader then ret (Some (true, blockHeader))
    else match fuel with
         | O => ret None
         | S fuel' => checkSlotIsMissed fuel' target blockHeader
         end.

(** [getBeaconBlockHeaderOrPreviousIfMissed] *)
Definition getBeaconBlockHeaderOrPreviousIfMissed (fuel : nat) (slot : Z)
  : Async Probed (option (ShortBeaconBlockHeader * bool)) :=
  catch
    (let* h := lookup (SlotId slot) in ret (Some (h, false)))
    (λ e,
       if negb (is_404 e) then throw e
       else
         let* someNotMissedNextBlock := getNextNotMissedBlockHeader slot 32 in
         let* checked := checkSlotIsMissed fuel slot someNotMissedNextBlock in
         match checked with
         | Some (isMissed, notMissedPreviousBlock) =>
             ret (Some (notMissedPreviousBlock, isMissed))
         | None => ret None
         end).

(** A lookup answered "missing": rejected with a 404. *)
Definition missing (r : result ShortBeaconBlockHeader) : bool :=
  match r with
  | Ok _ => false
  | Err e => is_404 e
  end.

(** [ParentWalk target h s n h' s']: starting from header [h] in state
    [s], [n] successive lookups of [parentRoot] all succeed, the first
    [n - 1] of them return headers above [target], and the last returns
    [h'], at or below [target], leaving state [s']. *)
Inductive ParentWalk (target : Z)
    : ShortBeaconBlockHeader → Probed → nat → ShortBeaconBlockHeader → Probed → Prop :=
  | walk_last h s p s' :
      lookup (StrId (parentRoot h)) s = (Ok p, s') →
      slotNumber p <= target →
      ParentWalk target h s 1 p s'
  | walk_step h s p s' n h' s'' :
      lookup (StrId (parentRoot h)) s = (Ok p, s') →
      target < slotNumber p →
      ParentWalk target p s' n h' s'' →
      ParentWalk target h s (S n) h' s''.

Lemma lookup_probes state s r s' :
  lookup state s = (r, s') → probes s' = probes s ++ [(state, r)].
Proof.
  unfold lookup. destruct (getBeaconBlockHeader state (world s)) as [r0 w'].
  by intros [= <- <-].
Qed.

(** The recursion equations of the source. *)
Lemma probe_unfold move slot maxDeep s :
  probe move (Z.to_nat maxDeep) slot maxDeep s =
    catch (lookup (SlotId slot))
      (λ e,
         if negb (is_404 e) then throw e
         else if maxDeep <? 1 then throw e
         else probe move (Z.to_nat (maxDeep - 1)) (move slot) (maxDeep - 1)) s.
Proof.
  destruct (Z.to_nat maxDeep) as [| d] eqn:Hd; simpl; unfold catch;
    destruct (lookup (SlotId slot) s) as [[h | e] s1]; try reflexivity;
    destruct (is_404 e); simpl; try reflexivity;
    destruct (Z.ltb_spec maxDeep 1); try reflexivity.
  - lia.
  - replace (Z.to_nat (maxDeep - 1)) with d by lia. reflexivity.
Qed.

Lemma getNextNotMissedBlockHeader_unfold slot maxDeep s :
  getNextNotMissedBlockHeader slot maxDeep s =
    catch (lookup (SlotId slot))
      (λ e,
         if negb (is_404 e) then throw e
         else if maxDeep <? 1 then throw e
         else getNextNotMissedBlockHeader (slot + 1) (maxDeep - 1)) s.
Proof. apply probe_unfold. Qed.

Lemma getPreviousNotMissedBlockHeader_unfold slot maxDeep s :
  getPreviousNotMissedBlockHeader slot maxDeep s =
    catch (lookup (SlotId slot))
      (λ e,
         if negb (is_404 e) then throw e
         else if maxDeep <? 1 then throw e
         else getPreviousNotMissedBlockHeader (slot - 1) (maxDeep - 1)) s.
Proof. apply probe_unfold. Qed.

Lemma checkSlotIsMissed_unfold fuel target someNextBlock :
  checkSlotIsMissed fuel target someNextBlock =
    if target >? slotNumber someNextBlock then
      throw (Error "Next block is greater than probably missing block")
    else if target =? slotNumber someNextBlock then
      ret (Some (false, someNextBlock))
    else
      let* blockHeader := lookup (StrId (parentRoot someNextBlock)) in
      if target =? slotNumber blockHeader then ret (Some (false, blockHeader))
      else if target >? slotNumber blockHeader then ret (Some (true, blockHeader))
      else match fuel with
           | O => ret None
           | S fuel' => checkSlotIsMissed fuel' target blockHeader
           end.
Proof. destruct fuel; reflexivity. Qed.

(** What one run of the probing loop does: it asks for [slot],
    [move slot], ... in turn, each answer but the last being "missing",
    stops after at most [depth] moves, and settles with the last answer;
    a "missing" last answer means the depth was used up. *)
Lemma probe_spec move depth :
  ∀ slot maxDeep s,
    depth = Z.to_nat maxDeep →
    ∃ r s' (k : nat) pre,
      probe move depth slot maxDeep s = (r, s')
      ∧ (k ≤ depth)%nat
      ∧ probes s' = probes s ++ pre ++ [(SlotId (Nat.iter k move slot), r)]
      ∧ pre.*1 = (λ i, SlotId (Nat.iter i move slot)) <$> seq 0 k
      ∧ Forall (λ p, missing p.2 = true) pre
      ∧ (missing r = true → k = depth).
Proof.
  induction depth as [| d IH]; intros slot maxDeep s Hd.
  - simpl. unfold catch.
    destruct (lookup (SlotId slot) s) as [[h | e] s1] eqn:Hl;
      apply lookup_probes in Hl.
    + exists (Ok h), s1, 0%nat, []. simpl. repeat split; auto; discriminate.
    + exists (Err e), s1, 0%nat, [].
      destruct (is_404 e) eqn:H404; simpl;
        [destruct (maxDeep <? 1) |]; unfold throw; repeat split; auto;
        rewrite H404; discriminate.
  - simpl. unfold catch.
    destruct (lookup (SlotId slot) s) as [[h | e] s1] eqn:Hl;
      apply lookup_probes in Hl.
    + exists (Ok h), s1, 0%nat, []. simpl. repeat split; auto; try lia; discriminate.
    + destruct (is_404 e) eqn:H404; simpl.
      * destruct (Z.ltb_spec maxDeep 1); [lia |].
        destruct (IH (move slot) (maxDeep - 1) s1 ltac:(lia))
          as (r & s' & k & pre & Hrun & Hk & Hp & Hpre & Hmiss & Hlast).
        exists r, s', (S k), ((SlotId slot, Err e) :: pre).
        rewrite Hrun. split; [done |]. split; [lia |].
        repeat split.
        -- rewrite Hp, Hl, <- app_assoc, Nat.iter_succ_r. reflexivity.
        -- cbn [fmap list_fmap seq fst]. rewrite Hpre. f_equal.
           rewrite <- fmap_S_seq, <- list_fmap_compose.
           apply list_fmap_ext. intros i x _. unfold compose.
           by rewrite Nat.iter_succ_r.
        -- constructor; [exact H404 | exact Hmiss].
        -- intros Hm. by rewrite (Hlast Hm).
      * exists (Err e), s1, 0%nat, []. unfold throw. simpl.
        repeat split; auto; try lia. rewrite H404. discriminate.
Qed.

Lemma iter_add_one (slot : Z) (k : nat) : Nat.iter k (λ slot, slot + 1) slot = slot + Z.of_nat k.
Proof. induction k as [| k IH]; simpl; [lia |]. rewrite IH. lia. Qed.

Lemma iter_sub_one (slot : Z) (k : nat) : Nat.iter k (λ slot, slot - 1) slot = slot - Z.of_nat k.
Proof. induction k as [| k IH]; simpl; [lia |]. rewrite IH. lia. Qed.

(** C8. Both probing methods always settle.  [getNextNotMissedBlockHeader]
    asks for [slot], [slot + 1], ... one slot at a time and
    [getPreviousNotMissedBlockHeader] for [slot], [slot - 1], ...; every
    answer before the last is "missing"; at most [maxDeep] slots beyond
    the starting one are visited; the method settles with the last
    answer, and when that answer is again "missing" (every probed slot
    was missing) the whole depth has been used and the method fails
    with that last rejection, which is the failure the specification
    calls DepthExceeded. *)
Theorem probing_bounded_by_maxDeep (slot maxDeep : Z) (s : Probed) :
  (∃ r s' (k : nat) pre,
      getNextNotMissedBlockHeader slot maxDeep s = (r, s')
      ∧ (k ≤ Z.to_nat maxDeep)%nat
      ∧ probes s' = probes s ++ pre ++ [(SlotId (slot + Z.of_nat k), r)]
      ∧ pre.*1 = (λ i : nat, SlotId (slot + Z.of_nat i)) <$> seq 0 k
      ∧ Forall (λ p, missing p.2 = true) pre
      ∧ (missing r = true → k = Z.to_nat maxDeep))
  ∧ (∃ r s' (k : nat) pre,
      getPreviousNotMissedBlockHeader slot maxDeep s = (r, s')
      ∧ (k ≤ Z.to_nat maxDeep)%nat
      ∧ probes s' = probes s ++ pre ++ [(SlotId (slot - Z.of_nat k), r)]
      ∧ pre.*1 = (λ i : nat, SlotId (slot - Z.of_nat i)) <$> seq 0 k
      ∧ Forall (λ p, missing p.2 = true) pre
      ∧ (missing r = true → k = Z.to_nat maxDeep)).
Proof.
  split.
  - destruct (probe_spec (λ slot, slot + 1) _ slot maxDeep s eq_refl)
      as (r & s' & k & pre & Hrun & Hk & Hp & Hpre & Hmiss & Hlast).
    exists r, s', k, pre. rewrite iter_add_one in Hp.
    repeat split; auto.
    rewrite Hpre. apply list_fmap_ext. intros i x _. by rewrite iter_add_one.
  - destruct (probe_spec (λ slot, slot - 1) _ slot maxDeep s eq_refl)
      as (r & s' & k & pre & Hrun & Hk & Hp & Hpre & Hmiss & Hlast).
    exists r, s', k, pre. rewrite iter_sub_one in Hp.
    repeat split; auto.
    rewrite Hpre. apply list_fmap_ext. intros i x _. by rewrite iter_sub_one.
Qed.

Lemma ParentWalk_lookups target h s n h' s' :
  ParentWalk target h s n h' s' →
  slotNumber h' <= target ∧ length (probes s') = (length (probes s) + n)%nat.
Proof.
  induction 1 as [h s p s' Hl Hle | h s p s' n h' s'' Hl Hgt Hw [IHle IHlen]].
  - apply lookup_probes in Hl. rewrite Hl, length_app. simpl. done.
  - apply lookup_probes in Hl. rewrite Hl, length_app in IHlen. simpl in IHlen.
    split; [done | lia].
Qed.

Lemma checkSlotIsMissed_walk target :
  ∀ h s n h' s',
    ParentWalk target h s n h' s' →
    target < slotNumber h →
    ∀ fuel, (n ≤ S fuel)%nat →
      checkSlotIsMissed fuel target h s = (Ok (Some (slotNumber h' <? target, h')), s').
Proof.
  induction 1 as [h s p s' Hl Hle | h s p s' n h' s'' Hl Hgt Hw IH];
    intros Hlt fuel Hfuel; rewrite checkSlotIsMissed_unfold.
  - destruct (Z.gtb_spec target (slotNumber h)); [lia |].
    destruct (Z.eqb_spec target (slotNumber h)); [lia |].
    unfold bind. rewrite Hl.
    destruct (Z.eqb_spec target (slotNumber p)) as [-> | Hne].
    + by rewrite Z.ltb_irrefl.
    + destruct (Z.gtb_spec target (slotNumber p)); [| lia].
      destruct (Z.ltb_spec (slotNumber p) target); [done | lia].
  - destruct (Z.gtb_spec target (slotNumber h)); [lia |].
    destruct (Z.eqb_spec target (slotNumber h)); [lia |].
    unfold bind. rewrite Hl.
    destruct (Z.eqb_spec target (slotNumber p)); [lia |].
    destruct (Z.gtb_spec target (slotNumber p)); [lia |].
    assert (1 ≤ n)%nat by (inversion Hw; lia).
    destruct fuel as [| fuel']; [lia |].
    apply IH; [done | lia].
Qed.

(** C2. [checkSlotIsMissed(s, nextHeader)]:
    - when [nextHeader.slotNumber = s] it returns [(false, nextHeader)]
      and makes no lookup;
    - when [s > nextHeader.slotNumber] it fails with the error
      "Next block is greater than probably missing block" (the
      InconsistentChain failure of the specification), again without a
      lookup;
    - otherwise it follows [parentRoot]: if after [n] lookups the walk
      reaches the first ancestor [h] whose slot is not above [s], every
      earlier ancestor being above [s], then (given fuel for [n] steps)
      it returns [(false, h)] when [h.slotNumber = s] and [(true, h)]
      when [h.slotNumber < s], having made exactly those [n] lookups. *)
Theorem checkSlotIsMissed_spec (fuel : nat) (target : Z)
    (nextHeader : ShortBeaconBlockHeader) (s : Probed) :
  (target = slotNumber nextHeader →
     checkSlotIsMissed fuel target nextHeader s = (Ok (Some (false, nextHeader)), s))
  ∧ (target > slotNumber nextHeader →
     checkSlotIsMissed fuel target nextHeader s =
       (Err (Error "Next block is greater than probably missing block"), s))
  ∧ (target < slotNumber nextHeader →
     ∀ n h s', ParentWalk target nextHeader s n h s' → (n ≤ S fuel)%nat →
       (slotNumber h = target →
          checkSlotIsMissed fuel target nextHeader s = (Ok (Some (false, h)), s'))
       ∧ (slotNumber h < target →
          checkSlotIsMissed fuel target nextHeader s = (Ok (Some (true, h)), s'))
       ∧ slotNumber h <= target
       ∧ length (probes s') = (length (probes s) + n)%nat).
Proof.
  split; [| split].
  - intros ->. rewrite checkSlotIsMissed_unfold.
    destruct (Z.gtb_spec (slotNumber nextHeader) (slotNumber nextHeader)); [lia |].
    by rewrite Z.eqb_refl.
  - intros Hgt. rewrite checkSlotIsMissed_unfold.
    destruct (Z.gtb_spec target (slotNumber nextHeader)); [done | lia].
  - intros Hlt n h s' Hw Hfuel.
    pose proof (checkSlotIsMissed_walk _ _ _ _ _ _ Hw Hlt fuel Hfuel) as Hrun.
    destruct (ParentWalk_lookups _ _ _ _ _ _ Hw) as [Hle Hlen].
    repeat split; try done.
    + intros He. rewrite Hrun.
      destruct (Z.ltb_spec (slotNumber h) target); [lia | done].
    + intros Hl. rewrite Hrun.
      destruct (Z.ltb_spec (slotNumber h) target); [done | lia].
Qed.

(** The walk is decided as soon as the parents' slots decrease: on a set
    of headers [canonical] closed under successful parent lookups with
    strictly smaller slots, fuel for [slotNumber h - target] steps is
    enough, and the answer is a canonical header at or below [target]. *)
Lemma checkSlotIsMissed_terminates (canonical : ShortBeaconBlockHeader → Prop) target :
  (∀ h s, canonical h → target < slotNumber h →
     ∃ p s', lookup (StrId (parentRoot h)) s = (Ok p, s')
           ∧ canonical p ∧ slotNumber p < slotNumber h) →
  ∀ fuel h s,
    canonical h → target < slotNumber h →
    (Z.to_nat (slotNumber h - target) ≤ S fuel)%nat →
    ∃ n h' s', ParentWalk target h s n h' s' ∧ (n ≤ S fuel)%nat ∧ canonical h'.
Proof.
  intros Hchain. induction fuel as [| fuel IH]; intros h s Hc Hlt Hfuel.
  - destruct (Hchain h s Hc Hlt) as (p & s' & Hl & Hcp & Hdec).
    exists 1%nat, p, s'. split; [| by split].
    apply walk_last; [done | lia].
  - destruct (Hchain h s Hc Hlt) as (p & s' & Hl & Hcp & Hdec).
    destruct (Z.le_gt_cases (slotNumber p) target) as [Hle | Hgt].
    + exists 1%nat, p, s'. split; [| split; [lia | done]].
      by apply walk_last.
    + destruct (IH p s' Hcp ltac:(lia) ltac:(lia)) as (n & h' & s'' & Hw & Hn & Hc').
      exists (S n), h', s''. split; [| split; [lia | done]].
      by eapply walk_step.
Qed.

(** [getDutyDependentRoot] *)
Definition getDutyDependentRoot (epoch : Z) : Async Probed string :=
  let dutyRootSlot := epoch * 32 - 1 in
  let* h := getPreviousNotMissedBlockHeader dutyRootSlot 32 in
  ret (blockRoot h).

(** X2. Whatever the server answers and whatever the fuel, an answer of
    [checkSlotIsMissed] is consistent: [(false, h)] only with
    [h.slotNumber = target], [(true, h)] only with [h.slotNumber < target];
    [h] is the header the method was given when no lookup was made and
    otherwise the answer of the last lookup; at most [fuel + 1] lookups
    are made. *)
Theorem checkSlotIsMissed_sound (fuel : nat) :
  ∀ target someNextBlock s isMissed h s',
    checkSlotIsMissed fuel target someNextBlock s = (Ok (Some (isMissed, h)), s') →
    (if isMissed then slotNumber h < target else slotNumber h = target)
    ∧ ∃ added, probes s' = probes s ++ added
             ∧ (length added ≤ S fuel)%nat
             ∧ (added = [] ∧ h = someNextBlock
                ∨ ∃ pre state, added = pre ++ [(state, Ok h)]).
Proof.
  induction fuel as [| fuel IH]; intros target next s isMissed h s';
    rewrite checkSlotIsMissed_unfold;
    destruct (Z.gtb_spec target (slotNumber next)); try (by intros [=]);
    (destruct (Z.eqb_spec target (slotNumber next));
       [intros [= <- <- <-]; split; [done |]; exists [];
        rewrite app_nil_r; repeat split; [simpl; lia | by left] |]);
    unfold bind;
    destruct (lookup (StrId (parentRoot next)) s) as [[p | e] s1] eqn:Hl;
    try (by intros [=]);
    pose proof (lookup_probes _ _ _ _ Hl) as Hp;
    (destruct (Z.eqb_spec target (slotNumber p));
       [intros [= <- <- <-]; split; [done |];
        exists [(StrId (parentRoot next), Ok p)]; repeat split;
        [done | simpl; lia | right; by exists [], (StrId (parentRoot next))] |]);
    (destruct (Z.gtb_spec target (slotNumber p));
       [intros [= <- <- <-]; split; [lia |];
        exists [(StrId (parentRoot next), Ok p)]; repeat split;
        [done | simpl; lia | right; by exists [], (StrId (parentRoot next))] |]).
  - by intros [=].
  - intros Hrun.
    destruct (IH _ _ _ _ _ _ Hrun) as (Hflag & added & Hadded & Hlen & Hfrom).
    split; [done |].
    exists ((StrId (parentRoot next), Ok p) :: added). repeat split.
    + by rewrite Hadded, Hp, <- app_assoc.
    + simpl. lia.
    + right. destruct Hfrom as [[-> ->] | (pre & state & ->)].
      * by exists [], (StrId (parentRoot next)).
      * by exists ((StrId (parentRoot next), Ok p) :: pre), state.
Qed.

Lemma checkSlotIsMissed_extends (fuel : nat) :
  ∀ target someNextBlock s,
    ∃ added, probes (checkSlotIsMissed fuel target someNextBlock s).2 = probes s ++ added.
Proof.
  induction fuel as [| fuel IH]; intros target next s;
    rewrite checkSlotIsMissed_unfold;
    destruct (target >? slotNumber next); try (exists []; by rewrite app_nil_r);
    destruct (target =? slotNumber next); try (exists []; by rewrite app_nil_r);
    unfold bind;
    destruct (lookup (StrId (parentRoot next)) s) as [[p | e] s1] eqn:Hl;
    pose proof (lookup_probes _ _ _ _ Hl) as Hp;
    try (by eexists);
    destruct (target =? slotNumber p); try (by eexists);
    destruct (target >? slotNumber p); try (by eexists).
  destruct (IH target p s1) as [added Ha]. rewrite Ha, Hp, <- app_assoc. by eexists.
Qed.

(** X3. [getBeaconBlockHeaderOrPreviousIfMissed(slot)] first asks for
    [slot].  If that lookup succeeds its header is returned with
    [isMissed = false] and nothing else is asked; if it fails with anything
    but a 404 the failure is passed on and nothing else is asked; after a
    404, a header returned with [isMissed = true] is strictly below [slot]
    and one returned with [isMissed = false] is at [slot]. *)
Theorem getBeaconBlockHeaderOrPreviousIfMissed_sound (fuel : nat) (slot : Z) (s : Probed) :
  ∃ first rest,
    probes (getBeaconBlockHeaderOrPreviousIfMissed fuel slot s).2
      = probes s ++ (SlotId slot, first) :: rest
    ∧ match first with
      | Ok h =>
          (getBeaconBlockHeaderOrPreviousIfMissed fuel slot s).1 = Ok (Some (h, false))
          ∧ rest = []
      | Err e =>
          if is_404 e then
            ∀ h isMissed,
              (getBeaconBlockHeaderOrPreviousIfMissed fuel slot s).1 = Ok (Some (h, isMissed)) →
              if isMissed then slotNumber h < slot else slotNumber h = slot
          else
            (getBeaconBlockHeaderOrPreviousIfMissed fuel slot s).1 = Err e ∧ rest = []
      end.
Proof.
  unfold getBeaconBlockHeaderOrPreviousIfMissed, catch.
  assert (Hb : bind (lookup (SlotId slot)) (λ h, ret (Some (h, false))) s
               = match lookup (SlotId slot) s with
                 | (Ok h, s1) => (Ok (Some (h, false)), s1)
                 | (Err e, s1) => (Err e, s1)
                 end) by reflexivity.
  rewrite Hb. clear Hb.
  destruct (lookup (SlotId slot) s) as [[h0 | e] s1] eqn:Hl;
    pose proof (lookup_probes _ _ _ _ Hl) as Hp.
  - exists (Ok h0), []. simpl. by rewrite Hp.
  - destruct (is_404 e) eqn:H404; simpl.
    + unfold bind.
      destruct (probe_spec (λ slot, slot + 1) _ slot 32 s1 eq_refl)
        as (r & s2 & k & pre & Hrun & _ & Hp2 & _).
      unfold getNextNotMissedBlockHeader. rewrite Hrun.
      destruct r as [next | e2]; simpl.
      * destruct (checkSlotIsMissed_extends fuel slot next s2) as [added Ha].
        destruct (checkSlotIsMissed fuel slot next s2) as [[[[isMissed h] |] | e3] s3] eqn:Hc;
          simpl in *;
          exists (Err e),
            (pre ++ [(SlotId (Nat.iter k (λ slot, slot + 1) slot), Ok next)] ++ added);
          (split; [rewrite Ha, Hp2, Hp, <- !app_assoc; done |]);
          rewrite H404; intros h' b; try (by intros [=]).
        intros [= <- <-].
        by destruct (checkSlotIsMissed_sound _ _ _ _ _ _ _ Hc) as (Hflag & _).
      * exists (Err e), (pre ++ [(SlotId (Nat.iter k (λ slot, slot + 1) slot), Err e2)]).
        split; [rewrite Hp2, Hp, <- !app_assoc; done |].
        rewrite H404. by intros h' b [=].
    + exists (Err e), []. rewrite H404. simpl. by rewrite Hp.
Qed.

(** Where a returned header comes from: with [isMissed] it is below
    [slot]; without, it is at [slot] or it is what the node served for
    [slot]. *)
Lemma previousIfMissed_flag (fuel : nat) (slot : Z) (s : Probed) h isMissed :
  (getBeaconBlockHeaderOrPreviousIfMissed fuel slot s).1 = Ok (Some (h, isMissed)) →
  if isMissed then slotNumber h < slot
  else slotNumber h = slot
       ∨ ∃ w w', getBeaconBlockHeader (SlotId slot) w = (Ok h, w').
Proof.
  unfold getBeaconBlockHeaderOrPreviousIfMissed, catch.
  assert (Hb : bind (lookup (SlotId slot)) (λ h, ret (Some (h, false))) s
               = match lookup (SlotId slot) s with
                 | (Ok h, s1) => (Ok (Some (h, false)), s1)
                 | (Err e, s1) => (Err e, s1)
                 end) by reflexivity.
  rewrite Hb. clear Hb. unfold lookup at 1.
  destruct (getBeaconBlockHeader (SlotId slot) (world s)) as [[h0 | e] w1] eqn:Hl.
  - simpl. intros [= <- <-]. right. by exists (world s), w1.
  - destruct (is_404 e); simpl; [| by intros [=]].
    unfold bind.
    destruct (getNextNotMissedBlockHeader slot 32 _) as [[next | e2] s2]; [| by intros [=]].
    destruct (checkSlotIsMissed fuel slot next s2) as [[[[b h'] |] | e3] s3] eqn:Hc;
      simpl; try (by intros [=]).
    intros [= <- <-].
    assert (Hflag : if b then slotNumber h' < slot else slotNumber h' = slot).
    { revert Hc. clear. revert next s2. induction fuel as [| fuel IH]; intros next s2;
        rewrite checkSlotIsMissed_unfold;
        destruct (Z.gtb_spec slot (slotNumber next)); try (by intros [=]);
        (destruct (Z.eqb_spec slot (slotNumber next)); [by intros [= <- <- <-] |]);
        unfold bind;
        destruct (lookup (StrId (parentRoot next)) s2) as [[p | e] s1]; try (by intros [=]);
        (destruct (Z.eqb_spec slot (slotNumber p)); [by intros [= <- <- <-] |]);
        (destruct (Z.gtb_spec slot (slotNumber p)); [intros [= <- <- <-]; lia |]).
      - by intros [=].
      - apply IH. }
    destruct b; [done | by left].
Qed.

(** X4. [getDutyDependentRoot(epoch)] looks only at slots before the
    epoch: it asks for [32 * epoch - 1], then one slot lower at a time,
    never below [32 * epoch - 33]; when it returns a root, that root is the
    block root of the last header it was served. *)
Theorem getDutyDependentRoot_probes (epoch : Z) (s : Probed) :
  ∃ (k : nat) answers,
    (k ≤ 32)%nat
    ∧ probes (getDutyDependentRoot epoch s).2 = probes s ++ answers
    ∧ answers.*1 = (λ i : nat, SlotId (32 * epoch - 1 - Z.of_nat i)) <$> seq 0 (S k)
    ∧ ∀ root, (getDutyDependentRoot epoch s).1 = Ok root →
        ∃ h, last answers = Some (SlotId (32 * epoch - 1 - Z.of_nat k), Ok h)
           ∧ blockRoot h = root.
Proof.
  unfold getDutyDependentRoot, bind, getPreviousNotMissedBlockHeader.
  destruct (probe_spec (λ slot, slot - 1) _ (epoch * 32 - 1) 32 s eq_refl)
    as (r & s' & k & pre & Hrun & Hk & Hp & Hpre & _).
  rewrite Hrun. rewrite iter_sub_one in Hp.
  exists k, (pre ++ [(SlotId (epoch * 32 - 1 - Z.of_nat k), r)]).
  split; [done |]. split; [by destruct r |]. split.
  - rewrite fmap_app, Hpre, seq_S, fmap_app. simpl. f_equal.
    + apply list_fmap_ext. intros i x _. rewrite iter_sub_one. f_equal. lia.
    + do 2 f_equal. lia.
  - intros root. destruct r as [h | e]; simpl; [| by intros [=]].
    intros [= <-]. exists h. rewrite last_snoc. split; [| done]. do 3 f_equal. lia.
Qed.

End Walk.

(** *** A synthetic chain: slots 38, 39, 41 and 42; slot 40 was missed. *)

Definition h38 := mkHeader 38 "0xs38" "0xb38" "0xb37".
Definition h39 := mkHeader 39 "0xs39" "0xb39" "0xb38".
Definition h41 := mkHeader 41 "0xs41" "0xb41" "0xb39".
Definition h42 := mkHeader 42 "0xs42" "0xb42" "0xb41".
Definition chain : list ShortBeaconBlockHeader := [h38; h39; h41; h42].

Definition matches (state : StateId) (h : ShortBeaconBlockHeader) : bool :=
  match state with
  | SlotId slot => slot =? slotNumber h
  | StrId id => String.eqb id (blockRoot h)
  end.

(** A node that serves exactly the headers of [chain]. *)
Definition node (state : StateId) : Async unit ShortBeaconBlockHeader :=
  λ w, match List.find (matches state) chain with
       | Some h => (Ok h, w)
       | None => (Err Retry.notFound, w)
       end.

Definition start : Probed := mkProbed tt [].

Lemma checkSlotIsMissed_spec_witness :
  checkSlotIsMissed node 0 42 h42 start = (Ok (Some (false, h42)), start)
  ∧ checkSlotIsMissed node 0 43 h42 start =
      (Err (Error "Next block is greater than probably missing block"), start)
  ∧ checkSlotIsMissed node 1 40 h42 start =
      (Ok (Some (true, h39)),
       mkProbed tt [(StrId "0xb41", Ok h41); (StrId "0xb39", Ok h39)])
  ∧ checkSlotIsMissed node 0 41 h42 start =
      (Ok (Some (false, h41)), mkProbed tt [(StrId "0xb41", Ok h41)]).
Proof.
  split; [| split; [| split]].
  - apply (checkSlotIsMissed_spec node 0 42 h42 start). reflexivity.
  - apply (checkSlotIsMissed_spec node 0 43 h42 start). reflexivity.
  - refine (proj1 (proj2 (proj2 (proj2 (checkSlotIsMissed_spec node 1 40 h42 start)) _
                     2%nat h39 _ _ _)) _).
    + reflexivity.
    + eapply walk_step; [reflexivity | simpl; lia |].
      apply walk_last; [reflexivity | simpl; lia].
    + lia.
    + simpl. lia.
  - refine (proj1 (proj2 (proj2 (checkSlotIsMissed_spec node 0 41 h42 start)) _
                     1%nat h41 _ _ _) _).
    + reflexivity.
    + apply walk_last; [reflexivity | simpl; lia].
    + lia.
    + reflexivity.
Defined.

Lemma checkSlotIsMissed_sound_witness :
  (if true then slotNumber h39 < 40 else slotNumber h39 = 40)
  ∧ ∃ added,
      probes (mkProbed tt [(StrId "0xb41", Ok h41); (StrId "0xb39", Ok h39)])
        = probes start ++ added
      ∧ (length added ≤ 2)%nat
      ∧ (added = [] ∧ h39 = h42 ∨ ∃ pre state, added = pre ++ [(state, Ok h39)]).
Proof.
  apply (checkSlotIsMissed_sound node 1 40 h42 start true h39). reflexivity.
Defined.

(** The dependent root of epoch 2 when slots 63 down to 43 are missing. *)
Example dependent_root_of_epoch_2 :
  (getDutyDependentRoot node 2 start).1 = Ok "0xb42"
  ∧ length (probes (getDutyDependentRoot node 2 start).2) = 22%nat.
Proof. split; reflexivity. Qed.

(** The end-to-end scenario of the specification: asking for the missed
    slot 40 yields the header of slot 39 and [isMissed = true]. *)
Example slot_40_is_missed :
  fst (getBeaconBlockHeaderOrPreviousIfMissed node 8 40 start) = Ok (Some (h39, true)).
Proof. reflexivity. Qed.

Example slot_41_is_present :
  fst (getBeaconBlockHeaderOrPreviousIfMissed node 8 41 start) = Ok (Some (h41, false)).
Proof. reflexivity. Qed.

(** With nothing after slot 42, the forward search from 43 asks for the
    slots 43 to 45 and gives up with the last 404. *)
Example next_from_43_gives_up :
  getNextNotMissedBlockHeader node 43 2 start =
    (Err Retry.notFound,
     mkProbed tt [(SlotId 43, Err Retry.notFound);
                  (SlotId 44, Err Retry.notFound);
                  (SlotId 45, Err Retry.notFound)]).
Proof. reflexivity. Qed.

Example previous_from_40 :
  fst (getPreviousNotMissedBlockHeader node 40 32 start) = Ok h39.
Proof. reflexivity. Qed.

End MissedSlots.

(* --------------------------------------------------------------------- *)
(** ** Duties: chunked requests and the dependent-root check              *)
(* --------------------------------------------------------------------- *)

Module Duties.

Section Chunked.
Context {World A : Type}.

(** [environment.ETH2_POST_REQUEST_CHUNK_SIZE] *)
Variable ETH2_POST_REQUEST_CHUNK_SIZE : nat.

(** The world together with a ghost record of the chunks submitted and of
    what each submission settled with. *)
Record Sent := mkSent {
  net : World;
  chunksSent : list (list string * result (list A))
}.

(** The awaited call for one chunk, recorded. *)
Definition submit (request : list string → Async World (list A)) (chunk : list string)
  : Async Sent (list A) :=
  λ s, let (r, w') := request chunk (net s) in
       (r, mkSent w' (chunksSent s ++ [(chunk, r)])).

(** [while (chunked.length > 0) { chunk = chunked.splice(0, size);
    result = result.concat(await request(chunk)) } return result].
    A chunk size of [0] never empties the list: that is [None]. *)
Fixpoint chunkLoop (request : list string → Async World (list A)) (fuel : nat)
    (chunked : list string) (result : list A) : Async Sent (option (list A)) :=
  match chunked with
  | [] => ret (Some result)
  | _ =>
      match fuel with
      | O => ret None
      | S fuel' =>
          let chunk := take ETH2_POST_REQUEST_CHUNK_SIZE chunked in
          let* answer := submit request chunk in
          chunkLoop request fuel' (drop ETH2_POST_REQUEST_CHUNK_SIZE chunked)
            (result ++ answer)
      end
  end.

(** [getChunkedAttesterDuties], over [this.getCanonicalAttesterDuties] *)
Definition getChunkedAttesterDuties
    (getCanonicalAttesterDuties : Z → string → list string → Async World (list A))
    (fuel : nat) (epoch : Z) (dependentRoot : string) (indexes : list string) :=
  chunkLoop (getCanonicalAttesterDuties epoch dependentRoot) fuel indexes [].

(** [getSyncCommitteeDuties], over the [retryRequest] of one chunk; its
    [catch] logs and throws the rejection again. *)
Definition getSyncCommitteeDuties
    (postSyncCommitteeDuties : Z → list string → Async World (list A))
    (fuel : nat) (epoch : Z) (indexes : list string) :=
  chunkLoop (λ chunk, catch (postSyncCommitteeDuties epoch chunk) throw) fuel indexes [].

Lemma submit_chunksSent request chunk s r s' :
  submit request chunk s = (r, s') → chunksSent s' = chunksSent s ++ [(chunk, r)].
Proof.
  unfold submit. destruct (request chunk (net s)) as [r0 w']. by intros [= <- <-].
Qed.

Lemma chunkLoop_spec request :
  (0 < ETH2_POST_REQUEST_CHUNK_SIZE)%nat →
  ∀ fuel chunked result s,
    (length chunked ≤ fuel)%nat →
    ∃ added,
      chunksSent (chunkLoop request fuel chunked result s).2 = chunksSent s ++ added
      ∧ Forall (λ c, (0 < length c.1 ≤ ETH2_POST_REQUEST_CHUNK_SIZE)%nat) added
      ∧ concat added.*1 `prefix_of` chunked
      ∧ match (chunkLoop request fuel chunked result s).1 with
        | Ok (Some all) =>
            concat added.*1 = chunked
            ∧ ∃ answers, added.*2 = Ok <$> answers ∧ all = result ++ concat answers
        | Ok None => False
        | Err e =>
            ∃ pre chunk answers,
              added = pre ++ [(chunk, Err e)] ∧ pre.*2 = Ok <$> answers
        end.
Proof.
  intros Hsize. induction fuel as [| fuel IH]; intros chunked result s Hlen.
  - destruct chunked; [| simpl in Hlen; lia].
    exists []. simpl. rewrite app_nil_r. repeat split; auto.
    exists []. by rewrite app_nil_r.
  - destruct chunked as [| i rest].
    { exists []. simpl. rewrite app_nil_r. repeat split; auto.
      exists []. by rewrite app_nil_r. }
    set (chunked := i :: rest) in *.
    assert (Hchunk : (0 < length (take ETH2_POST_REQUEST_CHUNK_SIZE chunked)
                      ≤ ETH2_POST_REQUEST_CHUNK_SIZE)%nat).
    { rewrite length_take. subst chunked. simpl. lia. }
    change (chunkLoop request (S fuel) chunked result s)
      with (bind (submit request (take ETH2_POST_REQUEST_CHUNK_SIZE chunked))
              (λ answer, chunkLoop request fuel (drop ETH2_POST_REQUEST_CHUNK_SIZE chunked)
                           (result ++ answer)) s).
    unfold bind.
    destruct (submit request (take ETH2_POST_REQUEST_CHUNK_SIZE chunked) s)
      as [[answer | e] s1] eqn:Hsub;
      pose proof (submit_chunksSent _ _ _ _ _ Hsub) as Hsent.
    + destruct (IH (drop ETH2_POST_REQUEST_CHUNK_SIZE chunked) (result ++ answer) s1)
        as (added & Hadded & Hsizes & Hprefix & Hres).
      { rewrite length_drop. subst chunked. simpl in *. lia. }
      exists ((take ETH2_POST_REQUEST_CHUNK_SIZE chunked, Ok answer) :: added).
      split; [by rewrite Hadded, Hsent, <- app_assoc |].
      split; [by constructor |].
      split.
      { cbn [fmap list_fmap fst concat].
        rewrite <- (take_drop ETH2_POST_REQUEST_CHUNK_SIZE chunked) at 2.
        by apply prefix_app. }
      destruct (chunkLoop request fuel _ _ s1).1 as [[all |] | e]; [| done |].
      * destruct Hres as (Hall & answers & Hans & ->).
        split.
        -- cbn [fmap list_fmap fst concat]. rewrite Hall. apply take_drop.
        -- exists (answer :: answers). split.
           ++ cbn [fmap list_fmap snd]. by rewrite Hans.
           ++ simpl. by rewrite <- app_assoc.
      * destruct Hres as (pre & chunk & answers & -> & Hans).
        exists ((take ETH2_POST_REQUEST_CHUNK_SIZE chunked, Ok answer) :: pre), chunk,
          (answer :: answers).
        split; [done |]. cbn [fmap list_fmap snd]. by rewrite Hans.
    + exists [(take ETH2_POST_REQUEST_CHUNK_SIZE chunked, Err e)].
      split; [done |]. split; [constructor; [done | constructor] |].
      split.
      { cbn [fmap list_fmap fst concat]. rewrite app_nil_r.
        rewrite <- (take_drop ETH2_POST_REQUEST_CHUNK_SIZE chunked) at 2.
        by apply prefix_app_r. }
      simpl. by exists [], (take ETH2_POST_REQUEST_CHUNK_SIZE chunked), [].
Qed.

(** X6. With a positive chunk size, [getSyncCommitteeDuties] submits the
    validator indexes in order, each exactly once, in chunks of at most
    the chunk size, none empty; when every submission succeeds the result
    is the concatenation of the answers in order; a submission that is
    rejected is the last one made and its rejection is the outcome. *)
Theorem getSyncCommitteeDuties_chunks
    (postSyncCommitteeDuties : Z → list string → Async World (list A))
    (epoch : Z) (indexes : list string) (s : Sent) :
  (0 < ETH2_POST_REQUEST_CHUNK_SIZE)%nat →
  ∃ added,
    chunksSent (getSyncCommitteeDuties postSyncCommitteeDuties (length indexes) epoch indexes s).2
      = chunksSent s ++ added
    ∧ Forall (λ c, (0 < length c.1 ≤ ETH2_POST_REQUEST_CHUNK_SIZE)%nat) added
    ∧ concat added.*1 `prefix_of` indexes
    ∧ match (getSyncCommitteeDuties postSyncCommitteeDuties (length indexes) epoch indexes s).1 with
      | Ok (Some all) =>
          concat added.*1 = indexes
          ∧ ∃ answers, added.*2 = Ok <$> answers ∧ all = concat answers
      | Ok None => False
      | Err e =>
          ∃ pre chunk answers,
            added = pre ++ [(chunk, Err e)] ∧ pre.*2 = Ok <$> answers
      end.
Proof.
  intros Hsize. unfold getSyncCommitteeDuties.
  apply (chunkLoop_spec _ Hsize (length indexes) indexes [] s). done.
Qed.

End Chunked.

(** Three indexes in chunks of two, against a node that answers each
    chunk with the number of indexes in it. *)
Definition countingNode (epoch : Z) (chunk : list string) : Async unit (list nat) :=
  ret [length chunk].

Lemma getSyncCommitteeDuties_chunks_witness :
  ∃ added,
    chunksSent (getSyncCommitteeDuties 2 countingNode 3 10 ["1"; "2"; "3"] (mkSent tt [])).2
      = [] ++ added
    ∧ Forall (λ c : list string * result (list nat), (0 < length c.1 ≤ 2)%nat) added
    ∧ concat added.*1 `prefix_of` ["1"; "2"; "3"]
    ∧ match (getSyncCommitteeDuties 2 countingNode 3 10 ["1"; "2"; "3"] (mkSent tt [])).1 with
      | Ok (Some all) =>
          concat added.*1 = ["1"; "2"; "3"]
          ∧ ∃ answers, added.*2 = Ok <$> answers ∧ all = concat answers
      | Ok None => False
      | Err e =>
          ∃ pre chunk answers,
            added = pre ++ [(chunk, Err e)] ∧ pre.*2 = Ok <$> answers
      end.
Proof.
  apply (getSyncCommitteeDuties_chunks 2 countingNode 10 ["1"; "2"; "3"] (mkSent tt [])). lia.
Defined.

Example three_indexes_in_two_chunks :
  getSyncCommitteeDuties 2 countingNode 3 10 ["1"; "2"; "3"] (mkSent tt [])
  = (Ok (Some [2%nat; 1%nat]),
     mkSent tt [(["1"; "2"], Ok [2%nat]); (["3"], Ok [1%nat])]).
Proof. reflexivity. Qed.

(** With a chunk size of [0] the loop never gets anywhere. *)
Example chunk_size_zero_never_ends :
  (getSyncCommitteeDuties 0 countingNode 50 10 ["1"; "2"; "3"] (mkSent tt [])).1 = Ok None.
Proof. reflexivity. Qed.

Section Canonical.
Context {A : Type}.

(** The body of a duties response with [dataOnly: false]. *)
Record DutiesResponse := mkDutiesResponse {
  dependent_root : string;
  duties : list A
}.

(** The [this.retryRequest(...)] call of the duties endpoint. *)
Variable fetch : Retry.Net DutiesResponse.

(** The local [request] of [getCanonicalAttesterDuties] and of
    [getCanonicalProposerDuties]; [role] is ["Attester"] or ["Proposer"]. *)
Definition request (role dependentRoot : string) : Retry.Net (list A) :=
  let* res := fetch in
  if negb (String.eqb (dependent_root res) dependentRoot) then
    throw (Error (role +:+ " duty dependent root is not as expected. Actual: "
                  +:+ dependent_root res +:+ " Expected: " +:+ dependentRoot))
  else ret (duties res).

Definition getCanonicalAttesterDuties (dependentRoot : string) (maxRetries : nat)
  : Retry.Net (list A) :=
  let retry := @Retry.retrier (list A) maxRetries in
  catch
    (catch (request "Attester" dependentRoot)
       (λ _, retry (request "Attester" dependentRoot)))
    (λ _, throw (Error ("Failed to get canonical attester duty info after "
                        +:+ pretty maxRetries +:+ " retries"))).

Definition getCanonicalProposerDuties (dependentRoot : string) (maxRetries : nat)
  : Retry.Net (list A) :=
  let retry := @Retry.retrier (list A) maxRetries in
  catch
    (catch (request "Proposer" dependentRoot)
       (λ _, retry (request "Proposer" dependentRoot)))
    (λ _, throw (Error ("Failed to get canonical proposer duty info after "
                        +:+ pretty maxRetries +:+ " retries"))).

Lemma retrier_resolved {B} (callback : Retry.Net B) n :
  ∀ log b log',
    Retry.retrier n callback log = (Ok b, log') →
    ∃ log0, callback log0 = (Ok b, log').
Proof.
  induction n as [| n IH]; intros log b log'.
  - simpl. destruct (callback log) as [[b0 | e] log1] eqn:Hc; [| by intros [=]].
    intros [= <- <-]. by exists log.
  - destruct n as [| m].
    + simpl. destruct (callback log) as [[b0 | e] log1] eqn:Hc; [| by intros [=]].
      intros [= <- <-]. by exists log.
    + change (Retry.retrier (S (S m)) callback log)
        with (match callback log with
              | (Ok a, log') => (Ok a, log')
              | (Err _, log') => Retry.retrier (S m) callback log'
              end).
      destruct (callback log) as [[b0 | e] log1] eqn:Hc.
      * intros [= <- <-]. by exists log.
      * apply IH.
Qed.

Lemma request_resolved role dependentRoot log data log' :
  request role dependentRoot log = (Ok data, log') →
  ∃ res, fetch log = (Ok res, log')
       ∧ dependent_root res = dependentRoot ∧ duties res = data.
Proof.
  unfold request, bind. destruct (fetch log) as [[res | e] log1]; [| by intros [=]].
  destruct (String.eqb_spec (dependent_root res) dependentRoot) as [Heq | Hne]; simpl.
  - intros [= <- <-]. by exists res.
  - by intros [=].
Qed.

(** X7. [getCanonicalAttesterDuties] and [getCanonicalProposerDuties]
    never return duties computed against another dependent root: what
    they return is the [data] of a response they were served whose
    [dependent_root] is the expected one; and when they reject, it is
    with the error "Failed to get canonical ... duty info after N
    retries", whatever went wrong underneath. *)
Theorem canonical_duties_match_dependent_root (dependentRoot : string) (maxRetries : nat)
    (log : list Retry.Request) :
  match (getCanonicalAttesterDuties dependentRoot maxRetries log).1 with
  | Ok data =>
      ∃ log0 res,
        fetch log0 = (Ok res, (getCanonicalAttesterDuties dependentRoot maxRetries log).2)
        ∧ dependent_root res = dependentRoot ∧ duties res = data
  | Err e =>
      e = Error ("Failed to get canonical attester duty info after "
                 +:+ pretty maxRetries +:+ " retries")
  end
  ∧ match (getCanonicalProposerDuties dependentRoot maxRetries log).1 with
    | Ok data =>
        ∃ log0 res,
          fetch log0 = (Ok res, (getCanonicalProposerDuties dependentRoot maxRetries log).2)
          ∧ dependent_root res = dependentRoot ∧ duties res = data
    | Err e =>
        e = Error ("Failed to get canonical proposer duty info after "
                   +:+ pretty maxRetries +:+ " retries")
    end.
Proof.
  split.
  - unfold getCanonicalAttesterDuties, catch.
    destruct (request "Attester" dependentRoot log) as [[data | e] log1] eqn:Hreq.
    + simpl. apply request_resolved in Hreq as (res & ? & ? & ?). by exists log, res.
    + destruct (Retry.retrier maxRetries (request "Attester" dependentRoot) log1)
        as [[data | e2] log2] eqn:Hretry; simpl; [| done].
      apply retrier_resolved in Hretry as [log0 Hreq0].
      apply request_resolved in Hreq0 as (res & ? & ? & ?). by exists log0, res.
  - unfold getCanonicalProposerDuties, catch.
    destruct (request "Proposer" dependentRoot log) as [[data | e] log1] eqn:Hreq.
    + simpl. apply request_resolved in Hreq as (res & ? & ? & ?). by exists log, res.
    + destruct (Retry.retrier maxRetries (request "Proposer" dependentRoot) log1)
        as [[data | e2] log2] eqn:Hretry; simpl; [| done].
      apply retrier_resolved in Hretry as [log0 Hreq0].
      apply request_resolved in Hreq0 as (res & ? & ? & ?). by exists log0, res.
Qed.

End Canonical.

(** A node that has reorganised: its duties depend on another root. *)
Example reorganised_node_is_refused :
  getCanonicalAttesterDuties (ret (mkDutiesResponse "0xother" [1; 2; 3])) "0xroot" 3 []
  = (Err (Error "Failed to get canonical attester duty info after 3 retries"), []).
Proof. reflexivity. Qed.

End Duties.

(* --------------------------------------------------------------------- *)
(** ** The cached fields of the client                                    *)
(* --------------------------------------------------------------------- *)

Module Cached.

(** [this.version] and [this.genesisTime], initially [''] and [0n]. *)
Record Eth2Client := mkClient { version : string; genesisTime : Z }.

(** A method of the client acts on its fields and on the request log. *)
Definition Client (A : Type) : Type := Async (Eth2Client * list Retry.Request) A.

Section Cache.
Variable rpcUrls : Retry.RpcUrls.
(** The node's answers on the genesis endpoint ([data.genesis_time]) and
    on the version endpoint ([data.version]). *)
Variable genesisNode : Retry.Server (Retry.Envelope Z).
Variable versionNode : Retry.Server (Retry.Envelope string).
Variable CHAIN_SLOT_TIME_SECONDS : Z.

(** [retryRequest] without options. *)
Definition plainRequest {D} (node : Retry.Server (Retry.Envelope D)) (sub : Retry.Endpoint)
  : Retry.Net D :=
  let* payload :=
    Retry.retryRequest rpcUrls (λ rpcURL, Retry.apiGet node rpcURL sub)
      (Retry.mkOptions None None None) in
  match payload with
  | Retry.Data d => ret d
  | Retry.Whole res => ret (Retry.data res)
  end.

Definition getVersion : Client string :=
  λ '(this, log),
    if negb (String.eqb (version this) "") then (Ok (version this), (this, log))
    else
      match plainRequest versionNode Retry.version log with
      | (Ok v, log') => (Ok v, (mkClient v (genesisTime this), log'))
      | (Err e, log') => (Err e, (this, log'))
      end.

Definition getGenesisTime : Client Z :=
  λ '(this, log),
    if genesisTime this >? 0 then (Ok (genesisTime this), (this, log))
    else
      match plainRequest genesisNode Retry.genesis log with
      | (Ok g, log') => (Ok g, (mkClient (version this) g, log'))
      | (Err e, log') => (Err e, (this, log'))
      end.

Definition getSlotTime (slot : Z) : Client Z :=
  let* genesis := getGenesisTime in
  ret (genesis + slot * CHAIN_SLOT_TIME_SECONDS).

(** X8. The genesis time and the version are fetched once: after a call
    of [getGenesisTime] has returned a positive time, every later
    [getGenesisTime] returns it and every [getSlotTime(slot)] returns that
    time plus [slot] slot durations, without a request and without
    touching the client; likewise for a non-empty version. *)
Theorem genesis_and_version_cached (w w' : Eth2Client * list Retry.Request) :
  (∀ g, getGenesisTime w = (Ok g, w') → 0 < g →
     getGenesisTime w' = (Ok g, w')
     ∧ ∀ slot, getSlotTime slot w' = (Ok (g + slot * CHAIN_SLOT_TIME_SECONDS), w'))
  ∧ (∀ v, getVersion w = (Ok v, w') → v ≠ "" → getVersion w' = (Ok v, w')).
Proof.
  destruct w as [this log]. split.
  - intros g Hrun Hg.
    assert (Hcached : getGenesisTime w' = (Ok g, w')).
    { unfold getGenesisTime in *.
      destruct (Z.gtb_spec (genesisTime this) 0) as [Hhit | Hmiss].
      - injection Hrun as <- <-. destruct (Z.gtb_spec (genesisTime this) 0); [done | lia].
      - destruct (plainRequest genesisNode Retry.genesis log) as [[g0 | e] log']; [| done].
        injection Hrun as <- <-. simpl.
        destruct (Z.gtb_spec g0 0); [done | lia]. }
    split; [done |]. intros slot. unfold getSlotTime, bind. by rewrite Hcached.
  - intros v Hrun Hv. unfold getVersion in *.
    destruct (String.eqb_spec (version this) "") as [Hmiss | Hhit]; simpl in *.
    + destruct (plainRequest versionNode Retry.version log) as [[v0 | e] log']; [| done].
      injection Hrun as <- <-. simpl.
      destruct (String.eqb_spec v0 ""); done.
    + injection Hrun as <- <-.
      destruct (String.eqb_spec (version this) ""); done.
Qed.

End Cache.

(** A node whose genesis was at 1606824023 and that reports a version. *)
Definition genesisAt : Retry.Server (Retry.Envelope Z) :=
  λ _ _, Ok (Retry.mkEnvelope 1606824023).
Definition versionIs : Retry.Server (Retry.Envelope string) :=
  λ _ _, Ok (Retry.mkEnvelope "Lighthouse/v4").

Lemma genesis_and_version_cached_witness :
  getGenesisTime Retry.mainOnly genesisAt
    (mkClient "" 1606824023, [Retry.mkRequest "http://main" Retry.genesis])
  = (Ok 1606824023, (mkClient "" 1606824023, [Retry.mkRequest "http://main" Retry.genesis]))
  ∧ ∀ slot,
      getSlotTime Retry.mainOnly genesisAt 12 slot
        (mkClient "" 1606824023, [Retry.mkRequest "http://main" Retry.genesis])
      = (Ok (1606824023 + slot * 12),
         (mkClient "" 1606824023, [Retry.mkRequest "http://main" Retry.genesis])).
Proof.
  apply (proj1 (genesis_and_version_cached Retry.mainOnly genesisAt versionIs 12
                  (mkClient "" 0, [])
                  (mkClient "" 1606824023, [Retry.mkRequest "http://main" Retry.genesis]))).
  - reflexivity.
  - lia.
Defined.

End Cached.

(* --------------------------------------------------------------------- *)
(** ** The block that carries the attestations of a slot                  *)
(* --------------------------------------------------------------------- *)

Module BlockInfo.

Section Search.
Context {World Info : Type}.

(** [BigInt(blockInfo.message.slot)] *)
Variable slotOf : Info → Z.

(** [getBlockInfo]: the block, [undefined] for a 404, or a rejection. *)
Variable getBlockInfo : StateId → Async World (option Info).

(** [bigintRange] of [common/utils/range], which is not among the
    sources: the methods below only pass its result on. *)
Variable bigintRange : Z → Z → list Z.

(** The world with a ghost record of the blocks asked for. *)
Record Asked := mkAsked {
  world : World;
  asked : list (StateId * result (option Info))
}.

Definition ask (block : StateId) : Async Asked (option Info) :=
  λ s, let (r, w') := getBlockInfo block (world s) in
       (r, mkAsked w' (asked s ++ [(block, r)])).

(** The recursion of [getNextNotMissedBlockInfo], structural on [depth],
    which the entry point sets to [maxDeep]. *)
Fixpoint search (depth : nat) (slot maxDeep : Z) : Async Asked (option Info) :=
  let* blockInfo := ask (SlotId slot) in
  match blockInfo with
  | None =>
      if maxDeep <? 1 then ret None
      else match depth with
           | O => ret None
           | S d => search d (slot + 1) (maxDeep - 1)
           end
  | Some info => ret (Some info)
  end.

Definition getNextNotMissedBlockInfo (slot maxDeep : Z) : Async Asked (option Info) :=
  search (Z.to_nat maxDeep) slot maxDeep.

Definition getBlockInfoWithSlotAttestations (slot : Z) : Async Asked (option Info * list Z) :=
  let nearestBlockIncludedAttestations := slot + 1 in
  let maxDeep := 8 in
  let* blockInfo := getNextNotMissedBlockInfo nearestBlockIncludedAttestations maxDeep in
  let missedSlots :=
    match blockInfo with
    | None =>
        bigintRange nearestBlockIncludedAttestations
          (nearestBlockIncludedAttestations + (maxDeep + 1))
    | Some _ => []
    end in
  let missedSlots :=
    match blockInfo with
    | Some info =>
        if negb (nearestBlockIncludedAttestations =? slotOf info)
        then bigintRange nearestBlockIncludedAttestations (slotOf info)
        else missedSlots
    | None => missedSlots
    end in
  ret (blockInfo, missedSlots).

Lemma ask_asked block s r s' :
  ask block s = (r, s') → asked s' = asked s ++ [(block, r)].
Proof.
  unfold ask. destruct (getBlockInfo block (world s)) as [r0 w']. by intros [= <- <-].
Qed.

(** The recursion equation of the source. *)
Lemma getNextNotMissedBlockInfo_unfold slot maxDeep s :
  getNextNotMissedBlockInfo slot maxDeep s =
    (let* blockInfo := ask (SlotId slot) in
     match blockInfo with
     | None =>
         if maxDeep <? 1 then ret None
         else getNextNotMissedBlockInfo (slot + 1) (maxDeep - 1)
     | Some info => ret (Some info)
     end) s.
Proof.
  unfold getNextNotMissedBlockInfo.
  destruct (Z.to_nat maxDeep) as [| d] eqn:Hd; simpl; unfold bind;
    destruct (ask (SlotId slot) s) as [[[info |] | e] s1]; try reflexivity;
    destruct (Z.ltb_spec maxDeep 1); try reflexivity.
  - lia.
  - replace (Z.to_nat (maxDeep - 1)) with d by lia. reflexivity.
Qed.

Lemma search_spec depth :
  ∀ slot maxDeep s,
    depth = Z.to_nat maxDeep →
    ∃ (k : nat) final,
      (k ≤ depth)%nat
      ∧ asked (search depth slot maxDeep s).2
        = asked s ++ ((λ i : nat, (SlotId (slot + Z.of_nat i), Ok None)) <$> seq 0 k)
                  ++ [(SlotId (slot + Z.of_nat k), final)]
      ∧ (search depth slot maxDeep s).1 = final
      ∧ (final = Ok None → k = depth).
Proof.
  induction depth as [| d IH]; intros slot maxDeep s Hd; simpl; unfold bind;
    destruct (ask (SlotId slot) s) as [[[info |] | e] s1] eqn:Hask;
    pose proof (ask_asked _ _ _ _ Hask) as Ha.
  - exists 0%nat, (Ok (Some info)). simpl. rewrite Z.add_0_r. by repeat split.
  - exists 0%nat, (Ok None). simpl. rewrite Z.add_0_r.
    destruct (maxDeep <? 1); by repeat split.
  - exists 0%nat, (Err e). simpl. rewrite Z.add_0_r. by repeat split.
  - exists 0%nat, (Ok (Some info)). simpl. rewrite Z.add_0_r.
    repeat split; (lia || done).
  - destruct (Z.ltb_spec maxDeep 1); [lia |].
    destruct (IH (slot + 1) (maxDeep - 1) s1 ltac:(lia)) as (k & final & Hk & Hasked & Hres & Hall).
    exists (S k), final. split; [lia |]. split; [| split; [done | intros Hnone; by rewrite Hall]].
    rewrite Hasked, Ha, <- app_assoc. f_equal. cbn [seq fmap list_fmap app].
    rewrite Z.add_0_r. f_equal.
    rewrite <- fmap_S_seq, <- list_fmap_compose. f_equal.
    + apply list_fmap_ext. intros i x _. simpl. do 2 f_equal. lia.
    + do 3 f_equal. lia.
  - exists 0%nat, (Err e). simpl. rewrite Z.add_0_r. repeat split; (lia || done).
Qed.

(** X9. [getBlockInfoWithSlotAttestations(slot)] asks for the blocks of
    [slot + 1], [slot + 2], ... in turn, going on only past blocks that
    are absent, and never beyond [slot + 9].  It settles with the answer
    to the last block asked for: a rejection is passed on; a block is
    returned, with no missed slots when it is the block of [slot + 1] and
    otherwise with the range from [slot + 1] to the block's slot; and no
    block is returned only when all nine were absent, with the range from
    [slot + 1] to [slot + 10]. *)
Theorem getBlockInfoWithSlotAttestations_search (slot : Z) (s : Asked) :
  ∃ (k : nat) final,
    (k ≤ 8)%nat
    ∧ asked (getBlockInfoWithSlotAttestations slot s).2
      = asked s ++ ((λ i : nat, (SlotId (slot + 1 + Z.of_nat i), Ok None)) <$> seq 0 k)
                ++ [(SlotId (slot + 1 + Z.of_nat k), final)]
    ∧ match final with
      | Err e => (getBlockInfoWithSlotAttestations slot s).1 = Err e
      | Ok (Some info) =>
          (getBlockInfoWithSlotAttestations slot s).1
          = Ok (Some info,
                if slot + 1 =? slotOf info then []
                else bigintRange (slot + 1) (slotOf info))
      | Ok None =>
          k = 8%nat
          ∧ (getBlockInfoWithSlotAttestations slot s).1
            = Ok (None, bigintRange (slot + 1) (slot + 1 + 9))
      end.
Proof.
  unfold getBlockInfoWithSlotAttestations, bind, getNextNotMissedBlockInfo.
  destruct (search_spec (Z.to_nat 8) (slot + 1) 8 s eq_refl)
    as (k & final & Hk & Hasked & Hres & Hall).
  exists k, final. split; [exact Hk |].
  destruct (search (Z.to_nat 8) (slot + 1) 8 s) as [r s'] eqn:Hrun.
  simpl in Hasked, Hres. subst r.
  destruct final as [[info |] | e]; simpl.
  - split; [done |]. by destruct (slot + 1 =? slotOf info).
  - split; [done |]. split; [by apply Hall | done].
  - by split.
Qed.

End Search.

End BlockInfo.

End ChainClient.

(* ===================================================================== *)
(** * Inspector: [InspectorService.waitForNextFinalizedSlot]              *)
(* ===================================================================== *)

Module Inspector.

(** What [waitForNextFinalizedSlot] resolves with. *)
Record Ready := mkReady {
  slotToWrite : Z;
  stateRoot : string;
  slotNumber : Z
}.

Section Wait.
Context {World : Type}.

(** [this.clClient.getBeaconBlockHeader] and
    [this.dataProcessor.latestSlotInDb] *)
Variable getBeaconBlockHeader :
  ChainClient.StateId → ChainClient.Async World ChainClient.ShortBeaconBlockHeader.
Variable latestSlotInDb : Z.

(** [waitForNextFinalizedSlot(nextSlot)]; the sleep before "no slot
    ready" takes time only.  [None] is the exhausted fuel of the walk
    along the parents. *)
Definition waitForNextFinalizedSlot (fuel : nat) (nextSlot : Z)
  : ChainClient.Async ChainClient.MissedSlots.Probed (option Ready) :=
  ChainClient.bind
    (ChainClient.MissedSlots.lookup getBeaconBlockHeader (ChainClient.StrId "finalized"))
    (λ latestFinalizedBeaconBlock,
       if (ChainClient.slotNumber latestFinalizedBeaconBlock >=? nextSlot)
          && (nextSlot >? latestSlotInDb)
       then
         ChainClient.bind
           (ChainClient.MissedSlots.getBeaconBlockHeaderOrPreviousIfMissed
              getBeaconBlockHeader fuel nextSlot)
           (λ resolved,
              match resolved with
              | None => ChainClient.ret None
              | Some (nextFinalizedBeaconBlock, isMissed) =>
                  if negb isMissed then
                    ChainClient.ret
                      (Some {| slotToWrite := ChainClient.slotNumber nextFinalizedBeaconBlock;
                               stateRoot := ChainClient.stateRoot nextFinalizedBeaconBlock;
                               slotNumber := ChainClient.slotNumber nextFinalizedBeaconBlock |})
                  else
                    ChainClient.ret
                      (Some {| slotToWrite := nextSlot;
                               stateRoot := ChainClient.stateRoot nextFinalizedBeaconBlock;
                               slotNumber := ChainClient.slotNumber nextFinalizedBeaconBlock |})
              end)
       else ChainClient.ret (Some {| slotToWrite := 0; stateRoot := ""; slotNumber := 0 |})).

(** The node serves under a slot number only the header of that slot. *)
Definition servesBySlot : Prop :=
  ∀ slot w h w',
    getBeaconBlockHeader (ChainClient.SlotId slot) w = (ChainClient.Ok h, w') →
    ChainClient.slotNumber h = slot.

(** X10. Against a node that serves under a slot number only the header
    of that slot, [waitForNextFinalizedSlot(nextSlot)] resolves either
    with "no slot ready" ([{0, '', 0}]) or with [slotToWrite = nextSlot],
    and then [nextSlot] is newer than the stored slot and the state is
    read from the header of [nextSlot] itself or, when that slot was
    missed, from a header strictly before it. *)
Theorem waitForNextFinalizedSlot_writes_target (fuel : nat) (nextSlot : Z)
    (s : ChainClient.MissedSlots.Probed) (ready : Ready) :
  servesBySlot →
  (waitForNextFinalizedSlot fuel nextSlot s).1 = ChainClient.Ok (Some ready) →
  ready = mkReady 0 "" 0
  ∨ (slotToWrite ready = nextSlot
     ∧ latestSlotInDb < nextSlot
     ∧ slotNumber ready <= nextSlot
     ∧ (slotNumber ready < nextSlot ∨ slotNumber ready = slotToWrite ready)).
Proof.
  intros Hserves. unfold waitForNextFinalizedSlot, ChainClient.bind at 1.
  destruct (ChainClient.MissedSlots.lookup _ _ s) as [[f | e] s1]; [| by intros [=]].
  destruct (Z.geb_spec (ChainClient.slotNumber f) nextSlot) as [Hfin | Hfin]; simpl;
    [| intros [= <-]; by left].
  destruct (Z.gtb_spec nextSlot latestSlotInDb) as [Hnew | Hold]; simpl;
    [| intros [= <-]; by left].
  unfold ChainClient.bind.
  pose proof (ChainClient.MissedSlots.previousIfMissed_flag getBeaconBlockHeader
                fuel nextSlot s1) as Hflag.
  destruct (ChainClient.MissedSlots.getBeaconBlockHeaderOrPreviousIfMissed _ fuel nextSlot s1)
    as [[[[h isMissed] |] | e] s2]; simpl in *; try (by intros [=]).
  specialize (Hflag h isMissed eq_refl).
  destruct isMissed; simpl; intros [= <-]; right; simpl.
  - repeat split; lia.
  - assert (ChainClient.slotNumber h = nextSlot) as ->.
    { destruct Hflag as [? | (w & w' & Hserved)]; [done | by eapply Hserves]. }
    repeat split; lia.
Qed.

End Wait.

(** X11. In the main loop the target is the one
    [calculateNextFinalizedSlot] computes from the stored slot.  With a
    positive step and a non-negative stored slot, against a node that
    serves headers by slot: when the finalized header is below the target
    the answer is "no slot ready", which the loop's guard
    [slotToWrite > 0] skips; otherwise an answer names the target itself
    as the slot to write, and it passes that guard. *)
Theorem loop_processes_computed_target {World : Type}
    (getBeaconBlockHeader :
       ChainClient.StateId → ChainClient.Async World ChainClient.ShortBeaconBlockHeader)
    (sched : EpochScheduler.Scheduler) (fuel : nat) (nextSlot : Z)
    (s : ChainClient.MissedSlots.Probed) finalized s1 :
  0 < EpochScheduler.FETCH_INTERVAL_SLOTS sched →
  0 <= EpochScheduler.latestSlotInDb sched →
  servesBySlot getBeaconBlockHeader →
  EpochScheduler.calculateNextFinalizedSlot sched = Some nextSlot →
  ChainClient.MissedSlots.lookup getBeaconBlockHeader (ChainClient.StrId "finalized") s
    = (ChainClient.Ok finalized, s1) →
  (ChainClient.slotNumber finalized < nextSlot →
     waitForNextFinalizedSlot getBeaconBlockHeader (EpochScheduler.latestSlotInDb sched)
       fuel nextSlot s
     = (ChainClient.Ok (Some (mkReady 0 "" 0)), s1))
  ∧ (nextSlot <= ChainClient.slotNumber finalized →
     ∀ ready,
       (waitForNextFinalizedSlot getBeaconBlockHeader (EpochScheduler.latestSlotInDb sched)
          fuel nextSlot s).1 = ChainClient.Ok (Some ready) →
       slotToWrite ready = nextSlot ∧ 0 < slotToWrite ready).
Proof.
  intros Hstep Hdb Hserves Hnext Hfin.
  pose proof (EpochScheduler.next_above_start sched nextSlot Hstep Hnext) as Habove.
  rewrite EpochScheduler.startingSlot_max in Habove.
  split.
  - intros Hbelow. unfold waitForNextFinalizedSlot, ChainClient.bind. rewrite Hfin.
    destruct (Z.geb_spec (ChainClient.slotNumber finalized) nextSlot); [lia | done].
  - intros Hreached ready.
    unfold waitForNextFinalizedSlot, ChainClient.bind at 1. rewrite Hfin.
    destruct (Z.geb_spec (ChainClient.slotNumber finalized) nextSlot); [| lia].
    destruct (Z.gtb_spec nextSlot (EpochScheduler.latestSlotInDb sched)); [| lia].
    simpl. unfold ChainClient.bind.
    pose proof (ChainClient.MissedSlots.previousIfMissed_flag getBeaconBlockHeader
                  fuel nextSlot s1) as Hflag.
    destruct (ChainClient.MissedSlots.getBeaconBlockHeaderOrPreviousIfMissed _ fuel nextSlot s1)
      as [[[[h isMissed] |] | e] s2]; simpl in *; try (by intros [=]).
    specialize (Hflag h isMissed eq_refl).
    destruct isMissed; simpl; intros [= <-]; simpl; [lia |].
    assert (ChainClient.slotNumber h = nextSlot) as ->; [| lia].
    destruct Hflag as [? | (w & w' & Hserved)]; [done | by eapply Hserves].
Qed.

(** The synthetic chain of above, finalized up to slot 42. *)
Definition finalizedNode (state : ChainClient.StateId)
  : ChainClient.Async unit ChainClient.ShortBeaconBlockHeader :=
  match state with
  | ChainClient.StrId "finalized" => ChainClient.ret ChainClient.MissedSlots.h42
  | _ => ChainClient.MissedSlots.node state
  end.

Lemma finalizedNode_servesBySlot : servesBySlot finalizedNode.
Proof.
  intros slot w h w'. unfold finalizedNode, ChainClient.MissedSlots.node. simpl.
  destruct (Z.eqb_spec slot 38) as [-> | ?]; [by intros [= <- <-] |].
  destruct (Z.eqb_spec slot 39) as [-> | ?]; [by intros [= <- <-] |].
  destruct (Z.eqb_spec slot 41) as [-> | ?]; [by intros [= <- <-] |].
  destruct (Z.eqb_spec slot 42) as [-> | ?]; [by intros [= <- <-] |].
  by intros [=].
Qed.

Lemma waitForNextFinalizedSlot_writes_target_witness :
  mkReady 40 "0xs39" 39 = mkReady 0 "" 0
  ∨ (slotToWrite (mkReady 40 "0xs39" 39) = 40
     ∧ 31 < 40
     ∧ slotNumber (mkReady 40 "0xs39" 39) <= 40
     ∧ (slotNumber (mkReady 40 "0xs39" 39) < 40
        ∨ slotNumber (mkReady 40 "0xs39" 39) = slotToWrite (mkReady 40 "0xs39" 39))).
Proof.
  apply (waitForNextFinalizedSlot_writes_target finalizedNode 31 8 40
           ChainClient.MissedSlots.start (mkReady 40 "0xs39" 39)).
  - exact finalizedNode_servesBySlot.
  - reflexivity.
Defined.

Lemma loop_processes_computed_target_witness :
  (ChainClient.slotNumber ChainClient.MissedSlots.h42 < 63 →
     waitForNextFinalizedSlot finalizedNode 32 8 63 ChainClient.MissedSlots.start
     = (ChainClient.Ok (Some (mkReady 0 "" 0)),
        ChainClient.MissedSlots.mkProbed tt
          [(ChainClient.StrId "finalized", ChainClient.Ok ChainClient.MissedSlots.h42)]))
  ∧ (63 <= ChainClient.slotNumber ChainClient.MissedSlots.h42 →
     ∀ ready,
       (waitForNextFinalizedSlot finalizedNode 32 8 63 ChainClient.MissedSlots.start).1
         = ChainClient.Ok (Some ready) →
       slotToWrite ready = 63 ∧ 0 < slotToWrite ready).
Proof.
  apply (loop_processes_computed_target finalizedNode (EpochScheduler.mkScheduler 32 0 32)
           8 63 ChainClient.MissedSlots.start ChainClient.MissedSlots.h42).
  - simpl. lia.
  - simpl. lia.
  - exact finalizedNode_servesBySlot.
  - reflexivity.
  - reflexivity.
Defined.

(** Slot 40 was missed: the state of slot 39 is written under slot 40. *)
Example missed_target_reads_previous_state :
  (waitForNextFinalizedSlot finalizedNode 31 8 40 ChainClient.MissedSlots.start).1
  = ChainClient.Ok (Some (mkReady 40 "0xs39" 39)).
Proof. reflexivity. Qed.

End Inspector.

(* ===================================================================== *)
(** * DutyResolver: [ClickhouseService.writeAttestations]                 *)
(* ===================================================================== *)

Module DutyResolver.

(** An attester duty as [writeAttestations] reads and updates it.  Slots
    and indexes are decimal strings in the source and are compared after
    [BigInt]/[parseInt] (or as equal strings), so they are integers here. *)
Record AttesterDutyInfo := mkDuty {
  pubkey : string;
  validator_index : string;
  committee_index : Z;
  committee_length : Z;
  committees_at_slot : Z;
  validator_committee_index : Z;
  slot : Z;
  attested : bool;
  in_block : option Z
}.

(** One attestation of a block: the committee it is for and the
    aggregation bits. *)
Record BlockAttestation := mkAtt {
  att_slot : Z;
  att_committee_index : Z;
  bits : list bool
}.

(** [CheckAttestersDutyResult].  [blocksAttestations] is the object keyed
    by block slot, given as [Object.entries] enumerates it. *)
Record CheckAttestersDutyResult := mkDutyResult {
  attestersDutyInfo : list AttesterDutyInfo;
  blocksAttestations : list (Z * list BlockAttestation);
  allMissedSlots : list Z
}.

(** The row written for a duty. *)
Record Row := mkRow {
  row_pubkey : string;
  row_validator_id : string;
  row_slot_to_attestation : Z;
  row_attested : bool;
  row_info_from_block : option Z
}.

Section WriteAttestations.
(** [config.get('ATTESTATION_MAX_INCLUSION_IN_BLOCK_DELAY')] and
    [this.chunkSize] *)
Variable ATTESTATION_MAX_INCLUSION_IN_BLOCK_DELAY : Z.
Variable chunkSize : nat.

Variable attDutyResult : CheckAttestersDutyResult.

(** [bits[parseInt(a.validator_committee_index)]]; an index outside the
    array reads [undefined], which is falsy. *)
Definition bitAt (bits : list bool) (i : Z) : bool :=
  if i <? 0 then false else default false (bits !! Z.to_nat i).

(** [att.slot == a.slot && att.committee_index == a.committee_index] *)
Definition sameCommittee (a : AttesterDutyInfo) (att : BlockAttestation) : bool :=
  (att_slot att =? slot a) && (att_committee_index att =? committee_index a).

(** [allMissedSlots.filter(missed => missed > a.slot && missed < block).length] *)
Definition missedSlotsOffset (a : AttesterDutyInfo) (block : Z) : Z :=
  Z.of_nat (length (filter (λ missed, slot a < missed ∧ missed < block)
                           (allMissedSlots attDutyResult))).

(** The loop over [Object.entries(blocksAttestations)], carrying the two
    fields of the duty it assigns. *)
Fixpoint scanBlocks (a : AttesterDutyInfo) (entries : list (Z * list BlockAttestation))
    (attested : bool) (in_block : option Z) : bool * option Z :=
  match entries with
  | [] => (attested, in_block)
  | (block, blockAttestations) :: rest =>
      if slot a >=? block then scanBlocks a rest attested in_block
      else
        let committeeAttestationInfo := List.find (sameCommittee a) blockAttestations in
        let '(attested, in_block) :=
          match committeeAttestationInfo with
          | Some info => (bitAt (bits info) (validator_committee_index a), Some block)
          | None => (attested, in_block)
          end in
        if attested then
          if block - slot a - missedSlotsOffset a block
               >? ATTESTATION_MAX_INCLUSION_IN_BLOCK_DELAY
          then (false, in_block)
          else (true, in_block)
        else scanBlocks a rest attested in_block
  end.

(** The body of [for (const a of chunk)], up to the row. *)
Definition checkDuty (a : AttesterDutyInfo) : AttesterDutyInfo :=
  let '(attested, in_block) :=
    scanBlocks a (blocksAttestations attDutyResult) false None in
  {| pubkey := pubkey a;
     validator_index := validator_index a;
     committee_index := committee_index a;
     committee_length := committee_length a;
     committees_at_slot := committees_at_slot a;
     validator_committee_index := validator_committee_index a;
     slot := slot a;
     attested := attested;
     in_block := in_block |}.

Definition writeRow (a : AttesterDutyInfo) : Row :=
  {| row_pubkey := pubkey a;
     row_validator_id := validator_index a;
     row_slot_to_attestation := slot a;
     row_attested := attested a;
     row_info_from_block := in_block a |}.

(** [this.retry(async () => await ws.exec())] for a stream holding the
    rows of a chunk, after the inserts already executed: the error it
    rejects with, if it does. *)
Variable exec : list (list Row) → list Row → option ChainClient.error.

(** [while (attestersDutyInfo.length > 0) { chunk = splice(0, chunkSize); ... }]
    over the caller's array and the inserts executed.  [splice] takes the
    chunk out of the array before its rows are written; a rejected insert
    ends the method there, with the later duties unwritten.  With
    [chunkSize = 0] the loop never ends, which is the [None] of exhausted
    fuel. *)
Fixpoint writeChunks (fuel : nat) (duties : list AttesterDutyInfo) (db : list (list Row))
  : ChainClient.result (option unit) * (list AttesterDutyInfo * list (list Row)) :=
  match duties with
  | [] => (ChainClient.Ok (Some tt), ([], db))
  | _ =>
      match fuel with
      | O => (ChainClient.Ok None, (duties, db))
      | S fuel' =>
          let chunk := take chunkSize duties in
          let rest := drop chunkSize duties in
          let ws := writeRow ∘ checkDuty <$> chunk in
          match exec db ws with
          | Some e => (ChainClient.Err e, (rest, db))
          | None => writeChunks fuel' rest (db ++ [ws])
          end
      end
  end.

(** [writeAttestations]: what it settles with, what is left of
    [attDutyResult.attestersDutyInfo], and the inserts. *)
Definition writeAttestations (fuel : nat) (db : list (list Row))
  : ChainClient.result (option unit) * (list AttesterDutyInfo * list (list Row)) :=
  writeChunks fuel (attestersDutyInfo attDutyResult) db.

(** A candidate block includes the duty when it comes after the
    attestation slot and its first attestation for the duty's slot and
    committee has the validator's bit set. *)
Definition includes (a : AttesterDutyInfo) (entry : Z * list BlockAttestation) : bool :=
  (slot a <? entry.1)
  && match List.find (sameCommittee a) entry.2 with
     | Some info => bitAt (bits info) (validator_committee_index a)
     | None => false
     end.

(** [B - A - k] *)
Definition inclusionDistance (a : AttesterDutyInfo) (block : Z) : Z :=
  block - slot a - missedSlotsOffset a block.

(** [e] is the nearest including block: the first entry of the
    enumeration that includes the duty. *)
Definition nearest (a : AttesterDutyInfo) (pre : list (Z * list BlockAttestation))
    (e : Z * list BlockAttestation) (post : list (Z * list BlockAttestation)) : Prop :=
  blocksAttestations attDutyResult = pre ++ e :: post
  ∧ Forall (λ e', includes a e' = false) pre
  ∧ includes a e = true.

(** One iteration on a block that does not include the duty leaves the
    duty not attested and goes on. *)
Lemma scanBlocks_skip a e rest ib :
  includes a e = false →
  ∃ ib', scanBlocks a (e :: rest) false ib = scanBlocks a rest false ib'.
Proof.
  destruct e as [block atts]. unfold includes. simpl.
  destruct (Z.geb_spec (slot a) block) as [Hge | Hlt].
  - intros _. by exists ib.
  - destruct (Z.ltb_spec (slot a) block); [| lia]. simpl.
    destruct (List.find (sameCommittee a) atts) as [info |].
    + intros ->. by exists (Some block).
    + intros _. by exists ib.
Qed.

(** The iteration on a block that includes the duty decides. *)
Lemma scanBlocks_hit a e rest ib :
  includes a e = true →
  scanBlocks a (e :: rest) false ib =
    (negb (inclusionDistance a e.1 >? ATTESTATION_MAX_INCLUSION_IN_BLOCK_DELAY),
     Some e.1).
Proof.
  destruct e as [block atts]. unfold includes, inclusionDistance. simpl.
  intros [Hlt Hbit]%andb_true_iff. apply Z.ltb_lt in Hlt.
  destruct (Z.geb_spec (slot a) block); [lia |].
  destruct (List.find (sameCommittee a) atts) as [info |]; [| done].
  rewrite Hbit. by destruct (_ >? _).
Qed.

Lemma scanBlocks_none a entries :
  Forall (λ e, includes a e = false) entries →
  ∀ ib, (scanBlocks a entries false ib).1 = false.
Proof.
  induction 1 as [| e rest He _ IH]; intros ib; [done |].
  destruct (scanBlocks_skip a e rest ib He) as [ib' ->]. apply IH.
Qed.

Lemma scanBlocks_nearest a pre e post :
  Forall (λ e', includes a e' = false) pre →
  includes a e = true →
  ∀ ib, scanBlocks a (pre ++ e :: post) false ib =
          (negb (inclusionDistance a e.1 >? ATTESTATION_MAX_INCLUSION_IN_BLOCK_DELAY),
           Some e.1).
Proof.
  induction 1 as [| e' rest He' _ IH]; intros He ib.
  - by apply scanBlocks_hit.
  - simpl app. destruct (scanBlocks_skip a e' (rest ++ e :: post) ib He') as [ib' ->].
    by apply IH.
Qed.

(** Either no candidate includes the duty, or there is a first one. *)
Lemma nearest_or_none a (entries : list (Z * list BlockAttestation)) :
  Forall (λ e, includes a e = false) entries
  ∨ ∃ pre e post, entries = pre ++ e :: post
                ∧ Forall (λ e', includes a e' = false) pre
                ∧ includes a e = true.
Proof.
  induction entries as [| e rest [IH | (pre & e1 & post & -> & Hpre & He1)]].
  - by left.
  - destruct (includes a e) eqn:He.
    + right. by exists [], e, rest.
    + left. by constructor.
  - destruct (includes a e) eqn:He.
    + right. by exists [], e, (pre ++ e1 :: post).
    + right. exists (e :: pre), e1, post. repeat split; [| done]. by constructor.
Qed.

Lemma scanBlocks_in_block a entries :
  ∀ ib, (∀ b, ib = Some b → slot a < b) →
        ∀ att b, scanBlocks a entries att ib = (b.1, Some b.2) → slot a < b.2.
Proof.
  induction entries as [| [block atts] rest IH]; intros ib Hib att b; simpl.
  - intros [= _ Hb]. by apply Hib.
  - destruct (Z.geb_spec (slot a) block) as [Hge | Hlt]; [by apply IH |].
    destruct (List.find (sameCommittee a) atts) as [info |].
    + destruct (bitAt (bits info) (validator_committee_index a)).
      * destruct (_ >? _); intros [= _ <-]; done.
      * apply IH. by intros ? [= <-].
    + destruct att.
      * destruct (_ >? _); intros [= _ Hb]; by apply Hib.
      * by apply IH.
Qed.

Lemma attested_checkDuty a :
  attested (checkDuty a) = (scanBlocks a (blocksAttestations attDutyResult) false None).1.
Proof. unfold checkDuty. by destruct (scanBlocks _ _ _ _). Qed.

Lemma in_block_checkDuty a :
  in_block (checkDuty a) = (scanBlocks a (blocksAttestations attDutyResult) false None).2.
Proof. unfold checkDuty. by destruct (scanBlocks _ _ _ _). Qed.

(** The flag is decided by the nearest including block. *)
Lemma attested_iff_nearest (a : AttesterDutyInfo) :
  attested (checkDuty a) = true ↔
    ∃ pre e post, nearest a pre e post
      ∧ inclusionDistance a e.1 <= ATTESTATION_MAX_INCLUSION_IN_BLOCK_DELAY.
Proof.
  rewrite attested_checkDuty. split.
  - intros Hatt.
    destruct (nearest_or_none a (blocksAttestations attDutyResult))
      as [Hnone | (pre & e & post & Heq & Hpre & He)].
    + by rewrite (scanBlocks_none a _ Hnone None) in Hatt.
    + exists pre, e, post. repeat split; try done.
      rewrite Heq, (scanBlocks_nearest a pre e post Hpre He None) in Hatt.
      simpl in Hatt. destruct (Z.gtb_spec (inclusionDistance a e.1)
                                 ATTESTATION_MAX_INCLUSION_IN_BLOCK_DELAY); [done | lia].
  - intros (pre & e & post & (Heq & Hpre & He) & Hdist).
    rewrite Heq, (scanBlocks_nearest a pre e post Hpre He None). simpl.
    destruct (Z.gtb_spec (inclusionDistance a e.1)
                ATTESTATION_MAX_INCLUSION_IN_BLOCK_DELAY); [lia | done].
Qed.

(** What the code records.  For every duty, the recorded [attested]
    flag is [true] exactly when the nearest candidate block in the
    enumeration whose first attestation for the duty's slot and committee
    has the validator's bit set (a block after the attestation slot) lies
    within the configured inclusion distance, missed slots in between not
    counted; the recorded block is always after the attestation slot; and
    when no candidate has such a first attestation the duty is recorded
    as not attested.  An attestation of the committee that is not the
    first of its block is never read, which is where the code falls short
    of the specification (the failing input is given below). *)
Theorem checkDuty_attested (a : AttesterDutyInfo) :
  (attested (checkDuty a) = true ↔
     ∃ pre e post, nearest a pre e post
       ∧ inclusionDistance a e.1 <= ATTESTATION_MAX_INCLUSION_IN_BLOCK_DELAY)
  ∧ (∀ block, in_block (checkDuty a) = Some block → slot a < block)
  ∧ (Forall (λ e, includes a e = false) (blocksAttestations attDutyResult) →
     attested (checkDuty a) = false).
Proof.
  split; [apply attested_iff_nearest | split].
  - intros block Hb. rewrite in_block_checkDuty in Hb.
    destruct (scanBlocks a (blocksAttestations attDutyResult) false None) as [att ib] eqn:Hs.
    simpl in Hb. subst ib.
    by eapply (scanBlocks_in_block a _ None ltac:(done) false (att, block)).
  - intros Hnone. rewrite attested_checkDuty. by apply scanBlocks_none.
Qed.


(** Missed slots listed once each: between two blocks there are no more
    of them than slots. *)
Lemma missed_between (missed : list Z) (lo hi : Z) :
  NoDup missed →
  Z.of_nat (length (filter (λ m, lo <= m ∧ m < hi) missed)) <= Z.max 0 (hi - lo).
Proof.
  intros Hnd.
  assert (Hsub : filter (λ m, lo <= m ∧ m < hi) missed ⊆+ seqZ lo (hi - lo)).
  { apply NoDup_submseteq; [by apply NoDup_filter |].
    intros m [Hm _]%list_elem_of_filter. apply elem_of_seqZ. lia. }
  apply submseteq_length in Hsub. rewrite length_seqZ in Hsub. lia.
Qed.

Lemma missed_split (missed : list Z) (A B1 B2 : Z) :
  A < B1 → B1 <= B2 →
  Z.of_nat (length (filter (λ m, A < m ∧ m < B2) missed))
  <= Z.of_nat (length (filter (λ m, A < m ∧ m < B1) missed))
     + Z.of_nat (length (filter (λ m, B1 <= m ∧ m < B2) missed)).
Proof.
  intros HA HB. induction missed as [| m l IH]; [done |].
  rewrite !filter_cons.
  repeat case_decide; simpl; lia.
Qed.

(** With each missed slot listed once, a later block is never closer to
    the attestation slot than an earlier one. *)
Lemma inclusionDistance_mono a B1 B2 :
  NoDup (allMissedSlots attDutyResult) →
  slot a < B1 → B1 <= B2 →
  inclusionDistance a B1 <= inclusionDistance a B2.
Proof.
  intros Hnd HA HB. unfold inclusionDistance, missedSlotsOffset.
  pose proof (missed_between (allMissedSlots attDutyResult) B1 B2 Hnd).
  pose proof (missed_split (allMissedSlots attDutyResult) (slot a) B1 B2 HA HB).
  lia.
Qed.

(** X13. When the blocks are enumerated by increasing slot (as [Object.entries]
    does for integer keys) and every missed slot is listed once, the
    nearest including block decides for all of them: the duty is attested
    exactly when some including candidate block is within the distance. *)
Lemma checkDuty_attested_sorted (a : AttesterDutyInfo) :
  StronglySorted (λ e1 e2 : Z * list BlockAttestation, e1.1 < e2.1)
    (blocksAttestations attDutyResult) →
  NoDup (allMissedSlots attDutyResult) →
  attested (checkDuty a) = true ↔
    ∃ e, e ∈ blocksAttestations attDutyResult
       ∧ includes a e = true
       ∧ inclusionDistance a e.1 <= ATTESTATION_MAX_INCLUSION_IN_BLOCK_DELAY.
Proof.
  intros Hsorted Hnd.
  rewrite attested_iff_nearest. split.
  - intros (pre & e & post & (Heq & Hpre & He) & Hdist).
    exists e. split; [| done]. rewrite Heq. set_solver.
  - intros (e & Hin & He & Hdist).
    destruct (nearest_or_none a (blocksAttestations attDutyResult))
      as [Hnone | (pre & e1 & post & Heq & Hpre & He1)].
    { rewrite Forall_forall in Hnone. specialize (Hnone e Hin). congruence. }
    exists pre, e1, post. split; [done |].
    rewrite Heq in Hin, Hsorted.
    apply elem_of_app in Hin as [Hin | Hin].
    { rewrite Forall_forall in Hpre. specialize (Hpre e Hin). congruence. }
    apply elem_of_cons in Hin as [-> | Hin]; [done |].
    apply StronglySorted_app_1_r in Hsorted.
    apply StronglySorted_inv in Hsorted as [_ Hlt].
    rewrite Forall_forall in Hlt. specialize (Hlt e Hin).
    assert (slot a < e1.1).
    { unfold includes in He1. apply andb_true_iff in He1 as [H1 _]. by apply Z.ltb_lt. }
    pose proof (inclusionDistance_mono a e1.1 e.1 Hnd ltac:(done) ltac:(lia)). lia.
Qed.

(** X12. A duty recorded as attested always names its including block
    in [in_block]: a block after the duty's slot, whose first attestation
    of the duty's committee has the validator's bit, within the inclusion
    distance; so a duty recorded without a block is never attested. *)
Theorem attested_names_block (a : AttesterDutyInfo) :
  attested (checkDuty a) = true →
  ∃ block blockAttestations,
    in_block (checkDuty a) = Some block
    ∧ (block, blockAttestations) ∈ blocksAttestations attDutyResult
    ∧ slot a < block
    ∧ includes a (block, blockAttestations) = true
    ∧ inclusionDistance a block <= ATTESTATION_MAX_INCLUSION_IN_BLOCK_DELAY.
Proof.
  intros (pre & [block atts] & post & (Heq & Hpre & He) & Hdist)%attested_iff_nearest.
  exists block, atts. rewrite in_block_checkDuty, Heq.
  rewrite (scanBlocks_nearest a pre (block, atts) post Hpre He None). simpl.
  repeat split; try done.
  - set_solver.
  - unfold includes in He. apply andb_true_iff in He as [Hlt _]. by apply Z.ltb_lt.
Qed.


End WriteAttestations.

(** The condition in the words of the specification: some candidate block
    after the attestation slot contains an attestation for the duty's slot
    and committee whose bitfield marks the validator, within the inclusion
    distance. *)
Definition specIncluded (maxDelay : Z) (r : CheckAttestersDutyResult)
    (a : AttesterDutyInfo) : Prop :=
  ∃ block blockAttestations att,
    (block, blockAttestations) ∈ blocksAttestations r
    ∧ slot a < block
    ∧ att ∈ blockAttestations
    ∧ att_slot att = slot a
    ∧ att_committee_index att = committee_index a
    ∧ bitAt (bits att) (validator_committee_index a) = true
    ∧ inclusionDistance r a block <= maxDelay.

(** A validator in position 1 of committee 3, due to attest at slot 40. *)
Definition duty40 : AttesterDutyInfo := mkDuty "0xa1" "7" 3 2 4 1 40 false None.

(** Block 41 carries two aggregates of committee 3 for slot 40; only the
    second has the validator's bit. *)
Definition twoAggregates : CheckAttestersDutyResult :=
  mkDutyResult [duty40]
    [(41, [mkAtt 40 3 [true; false]; mkAtt 40 3 [false; true]])]
    [].

(** The scenario of the specification: the only candidate is block 42,
    slot 41 was missed, and the limit is 2. *)
Definition endToEnd : CheckAttestersDutyResult :=
  mkDutyResult [duty40] [(42, [mkAtt 40 3 [false; true]])] [41].

(** C1 fails on the code.  Block 41 holds an attestation of the duty's
    committee with the validator's bit set, at distance 1 with a limit of
    2, so the duty is included as the claim and the comments of the
    source have it; it is recorded as not attested, because
    [blockAttestations.find] reads only the first aggregate of the
    committee in a block. *)
Lemma second_aggregate_not_read :
  specIncluded 2 twoAggregates duty40
  ∧ attested (checkDuty 2 twoAggregates duty40) = false.
Proof.
  split; [| reflexivity].
  exists 41, [mkAtt 40 3 [true; false]; mkAtt 40 3 [false; true]], (mkAtt 40 3 [false; true]).
  repeat split; try reflexivity.
  - apply list_elem_of_singleton. reflexivity.
  - right. left.
  - vm_compute. discriminate.
Qed.

Lemma checkDuty_attested_witness :
  attested (checkDuty 2 endToEnd duty40) = true.
Proof.
  apply (proj1 (checkDuty_attested 2 endToEnd duty40)).
  exists [], (42, [mkAtt 40 3 [false; true]]), [].
  repeat split; try reflexivity.
  - constructor.
  - vm_compute. discriminate.
Defined.

Lemma attested_names_block_witness :
  ∃ block blockAttestations,
    in_block (checkDuty 2 endToEnd duty40) = Some block
    ∧ (block, blockAttestations) ∈ blocksAttestations endToEnd
    ∧ slot duty40 < block
    ∧ includes duty40 (block, blockAttestations) = true
    ∧ inclusionDistance endToEnd duty40 block <= 2.
Proof. apply (attested_names_block 2 endToEnd duty40). reflexivity. Defined.

Lemma checkDuty_attested_sorted_witness :
  attested (checkDuty 2 endToEnd duty40) = true ↔
    ∃ e, e ∈ blocksAttestations endToEnd
       ∧ includes duty40 e = true
       ∧ inclusionDistance endToEnd duty40 e.1 <= 2.
Proof.
  apply (checkDuty_attested_sorted 2 endToEnd duty40).
  - repeat constructor.
  - apply (bool_decide_unpack _). vm_compute. exact I.
Defined.

(** Three duties of slots 40 and 41, written in chunks of two. *)
Definition duty41 : AttesterDutyInfo := mkDuty "0xb2" "8" 3 2 4 0 41 false None.
Definition duty40b : AttesterDutyInfo := mkDuty "0xc3" "9" 3 2 4 0 40 false None.

Definition threeDuties : CheckAttestersDutyResult :=
  mkDutyResult [duty40; duty41; duty40b]
    [(42, [mkAtt 40 3 [false; true]; mkAtt 41 3 [true; false]])] [].

(** A database that accepts every insert, and one that rejects the
    second. *)
Definition accepting : list (list Row) → list Row → option ChainClient.error := λ _ _, None.
Definition secondRejected : list (list Row) → list Row → option ChainClient.error :=
  λ db _, if (length db =? 1)%nat then Some (ChainClient.Error "timeout") else None.


Example three_duties_in_two_inserts :
  writeAttestations 2 2 threeDuties accepting 3 []
  = (ChainClient.Ok (Some tt),
     ([], [[mkRow "0xa1" "7" 40 true (Some 42); mkRow "0xb2" "8" 41 true (Some 42)];
           [mkRow "0xc3" "9" 40 false (Some 42)]])).
Proof. reflexivity. Qed.

(** In chunks of one with the second insert rejected, the second duty is
    neither written nor left in the array, and the third is not written. *)
Example second_insert_rejected :
  writeAttestations 2 1 threeDuties secondRejected 3 []
  = (ChainClient.Err (ChainClient.Error "timeout"),
     ([duty40b], [[mkRow "0xa1" "7" 40 true (Some 42)]])).
Proof. reflexivity. Qed.

Example endToEnd_row :
  writeAttestations 2 100 endToEnd accepting 1 []
  = (ChainClient.Ok (Some tt), ([], [[mkRow "0xa1" "7" 40 true (Some 42)]])).
Proof. reflexivity. Qed.

(** A block at the attestation slot itself is passed over, whatever it
    contains. *)
Example same_slot_block_ignored :
  writeAttestations 2 100 (mkDutyResult [duty40] [(40, [mkAtt 40 3 [true; true]])] [])
    accepting 1 []
  = (ChainClient.Ok (Some tt), ([], [[mkRow "0xa1" "7" 40 false None]])).
Proof. reflexivity. Qed.

(** Included, but three slots late with nothing missed in between: not
    attested. *)
Example too_late :
  writeAttestations 2 100 (mkDutyResult [duty40] [(43, [mkAtt 40 3 [false; true]])] [])
    accepting 1 []
  = (ChainClient.Ok (Some tt), ([], [[mkRow "0xa1" "7" 40 false (Some 43)]])).
Proof. reflexivity. Qed.

End DutyResolver.

(* ===================================================================== *)
(** * SummaryAggregator: [SummaryService] and lodash's [merge]            *)
(* ===================================================================== *)

Module SummaryAggregator.

(** JavaScript values as the summaries hold them.  A plain object is the
    list of its own properties in insertion order; a [Map] is an object
    that is not plain.  [merge] never looks inside a number, so numbers
    carry an integer. *)
#[warnings="-register-all"]
Inductive value :=
| VUndefined
| VBool (b : bool)
| VNumber (n : Z)
| VBigInt (z : Z)
| VString (s : string)
| VArray (items : list value)
| VObject (props : list (string * value))
| VMap (entries : list (Z * Z)).

Definition object : Type := list (string * value).

Import Dict.

(** [o.key]: [undefined] when the property is absent. *)
Definition read (o : object) (key : string) : value :=
  default VUndefined (getProp o key).

(** lodash [isObject] on the values above. *)
Definition isObject (v : value) : bool :=
  match v with
  | VArray _ | VObject _ | VMap _ => true
  | _ => false
  end.

(** [assignMergeValue(object, key, value)]: a defined value is assigned;
    [undefined] is assigned only when the key is not in the object. *)
Definition assignMergeValue (o : object) (key : string) (v : value) : object :=
  match v with
  | VUndefined =>
      match getProp o key with
      | Some _ => o
      | None => setProp o key VUndefined
      end
  | _ => setProp o key v
  end.

(** [baseMerge] over the properties of a plain-object source; [deep] is
    the value [baseMergeDeep] computes for an object-valued property. *)
Fixpoint mergeProps (deep : value → value → value)
    (source : list (string * value)) (o : object) : object :=
  match source with
  | [] => o
  | (key, srcValue) :: rest =>
      let newValue :=
        if isObject srcValue then deep srcValue (read o key) else srcValue in
      mergeProps deep rest (assignMergeValue o key newValue)
  end.

(** [baseMerge] over the indexes of an array source. *)
Fixpoint mergeItems (deep : value → value → value)
    (source : list value) (items : list value) : list value :=
  match source with
  | [] => items
  | srcValue :: rest =>
      let objValue := default VUndefined (head items) in
      let newValue :=
        if isObject srcValue then deep srcValue objValue
        else match srcValue with
             | VUndefined => objValue
             | _ => srcValue
             end in
      newValue :: mergeItems deep rest (tail items)
  end.

(** [baseMergeDeep]: the new value of a property whose source value
    [srcValue] is an object, given the destination value [objValue].
    Arrays merge index by index into an array destination and plain
    objects merge into an object destination, a fresh [[]] or [{}] taking
    the place of any other destination; a [Map] is assigned as it is.
    (lodash would merge a plain object into a destination array or [Map]
    in place; the summary types exclude that combination.) *)
Fixpoint mergeDeep (srcValue objValue : value) {struct srcValue} : value :=
  match srcValue with
  | VArray source =>
      VArray (mergeItems mergeDeep source
                match objValue with VArray items => items | _ => [] end)
  | VObject source =>
      VObject (mergeProps mergeDeep source
                 match objValue with VObject o => o | _ => [] end)
  | _ => srcValue
  end.

(** lodash [merge(object, source)] on plain objects; it returns the
    destination it has updated. *)
Definition merge (o source : object) : object := mergeProps mergeDeep source o.

(** The two maps of the service; [meta] is [undefined] after [clearMeta]. *)
Record SummaryService := mkService {
  storage : list (Z * object);
  meta : option object
}.

(** [constructor] *)
Definition new : SummaryService := {| storage := []; meta := Some [] |}.

Definition setMeta (val : object) (this : SummaryService) : SummaryService :=
  let curr := default [] (meta this) in
  {| storage := storage this; meta := Some (merge curr val) |}.

Definition getMeta (this : SummaryService) : option object := meta this.

Definition get (index : Z) (this : SummaryService) : option object :=
  getProp (storage this) index.

Definition set (index : Z) (summary : object) (this : SummaryService) : SummaryService :=
  let curr := default [] (get index this) in
  {| storage := setProp (storage this) index (merge curr summary); meta := meta this |}.

Definition values (this : SummaryService) : list object := (storage this).*2.

(** [{ ...v, att_meta: undefined, sync_meta: undefined }] *)
Definition stripMeta (v : object) : object :=
  setProp (setProp v "att_meta" VUndefined) "sync_meta" VUndefined.

(** [valuesToWrite()], with the service it leaves behind. *)
Definition valuesToWrite (this : SummaryService) : list object * SummaryService :=
  (stripMeta <$> values this, this).

Definition clear (this : SummaryService) : SummaryService :=
  {| storage := []; meta := meta this |}.

Definition clearMeta (this : SummaryService) : SummaryService :=
  {| storage := storage this; meta := None |}.

Lemma read_setProp_eq (o : object) key v : read (setProp o key v) key = v.
Proof. unfold read. by rewrite getProp_setProp_eq. Qed.

Lemma read_setProp_ne (o : object) key key' v :
  key ≠ key' → read (setProp o key v) key' = read o key'.
Proof. intros. unfold read. by rewrite getProp_setProp_ne. Qed.

Lemma read_assignMergeValue_ne o key key' v :
  key ≠ key' → read (assignMergeValue o key v) key' = read o key'.
Proof.
  intros Hne. unfold assignMergeValue.
  destruct v; try by apply read_setProp_ne.
  destruct (getProp o key); [done | by apply read_setProp_ne].
Qed.

Lemma read_assignMergeValue_undefined o key :
  read (assignMergeValue o key VUndefined) key = read o key.
Proof.
  unfold assignMergeValue. destruct (getProp o key) eqn:Hg; [done |].
  rewrite read_setProp_eq. unfold read. by rewrite Hg.
Qed.

Lemma read_assignMergeValue_defined o key v :
  v ≠ VUndefined → read (assignMergeValue o key v) key = v.
Proof. intros Hv. destruct v; try done; apply read_setProp_eq. Qed.

(** A property the source does not define is read after the merge as it
    was before, whatever the other properties do. *)
Lemma mergeProps_keeps deep source key :
  (∀ v, (key, v) ∈ source → v = VUndefined) →
  ∀ o, read (mergeProps deep source o) key = read o key.
Proof.
  induction source as [| [k srcValue] rest IH]; intros Hundef o; [done |].
  simpl. rewrite IH by (intros v Hv; apply Hundef; by right).
  destruct (decide (k = key)) as [-> | Hne].
  - rewrite (Hundef srcValue) by left. simpl. apply read_assignMergeValue_undefined.
  - by apply read_assignMergeValue_ne.
Qed.

(** A defined value that is not an object, supplied once, is what the
    property reads after the merge. *)
Lemma mergeProps_writes deep source key v :
  NoDup source.*1 → (key, v) ∈ source → isObject v = false → v ≠ VUndefined →
  ∀ o, read (mergeProps deep source o) key = v.
Proof.
  induction source as [| [k srcValue] rest IH]; intros Hnd Hin Hprim Hdef o.
  - by apply elem_of_nil in Hin.
  - simpl in *. apply NoDup_cons in Hnd as [Hk Hnd].
    apply elem_of_cons in Hin as [[= <- <-] | Hin].
    + rewrite mergeProps_keeps.
      * rewrite Hprim. by apply read_assignMergeValue_defined.
      * intros v' Hv'. exfalso. apply Hk. apply list_elem_of_fmap. by exists (key, v').
    + by apply IH.
Qed.

Lemma get_set_eq index summary this :
  get index (set index summary this) = Some (merge (default [] (get index this)) summary).
Proof. unfold get, set. simpl. apply getProp_setProp_eq. Qed.

Lemma get_set_ne index j summary this :
  index ≠ j → get j (set index summary this) = get j this.
Proof. intros. unfold get, set. simpl. by apply getProp_setProp_ne. Qed.

(** C10. [set(v, p)] and [setMeta(p)] leave every field that [p] does not
    define as it was: if [p] has no property [key], or has it with the
    value [undefined], the stored record reads the same value at [key]
    after the call as before; the records of the other validators are
    untouched. *)
Theorem set_keeps_undefined_fields (index : Z) (p : object) (this : SummaryService)
    (key : string) :
  (∀ v, (key, v) ∈ p → v = VUndefined) →
  read (default [] (get index (set index p this))) key
    = read (default [] (get index this)) key
  ∧ read (default [] (getMeta (setMeta p this))) key
    = read (default [] (getMeta this)) key
  ∧ (∀ j, j ≠ index → get j (set index p this) = get j this).
Proof.
  intros Hundef. split; [| split].
  - rewrite get_set_eq. simpl. by apply mergeProps_keeps.
  - unfold getMeta, setMeta. simpl. by apply mergeProps_keeps.
  - intros j Hj. apply get_set_ne. congruence.
Qed.

(** The same below the top level: reading along a path of property
    names. *)
Fixpoint readPath (v : value) (path : list string) : value :=
  match path with
  | [] => v
  | key :: rest =>
      match v with
      | VObject o => readPath (read o key) rest
      | _ => VUndefined
      end
  end.

(** The source defines nothing at [path]: it has plain objects along the
    path as far as it goes, and at the end of it nothing or [undefined]. *)
Fixpoint undefinedAt (source : object) (path : list string) : Prop :=
  match path with
  | [] => False
  | key :: rest =>
      match rest with
      | [] => ∀ v, (key, v) ∈ source → v = VUndefined
      | _ :: _ =>
          ∃ inner, (∀ v, (key, v) ∈ source → v = VObject inner) ∧ undefinedAt inner rest
      end
  end.

Lemma readPath_undefined path : readPath VUndefined path = VUndefined.
Proof. by destruct path. Qed.

Lemma readPath_not_object v key rest :
  (∀ o, v ≠ VObject o) → readPath v (key :: rest) = VUndefined.
Proof. intros Hv. destruct v; try done. by destruct (Hv props). Qed.

Lemma mergeProps_keeps_path path :
  ∀ source o,
    undefinedAt source path →
    readPath (VObject (mergeProps mergeDeep source o)) path = readPath (VObject o) path.
Proof.
  induction path as [| key rest IH]; intros source o Hundef; [done |].
  destruct rest as [| key2 rest2].
  - simpl. by apply mergeProps_keeps.
  - destruct Hundef as (inner & Hinner & Hdeep).
    assert (Hstep : ∀ o', readPath (VObject o') (key :: key2 :: rest2)
                          = readPath (read o' key) (key2 :: rest2)) by reflexivity.
    rewrite !Hstep. clear Hstep.
    assert (Hempty : ∀ v, (∀ o', v ≠ VObject o') →
              readPath (VObject []) (key2 :: rest2) = readPath v (key2 :: rest2)).
    { intros v Hv. rewrite (readPath_not_object v) by done.
      simpl. apply readPath_undefined. }
    set (path2 := key2 :: rest2) in *.
    revert o. induction source as [| [k srcValue] source' IHs]; intros o; [done |].
    cbn [mergeProps]. rewrite IHs by (intros v Hv; apply Hinner; by right).
    destruct (decide (k = key)) as [-> | Hne].
    + rewrite (Hinner srcValue) by left. cbn [isObject mergeDeep assignMergeValue].
      rewrite read_setProp_eq, (IH inner _ Hdeep).
      destruct (read o key) eqn:Hread; try (by apply Hempty). done.
    + by rewrite read_assignMergeValue_ne.
Qed.

(** [set] keeps what the partial leaves undefined at any depth. *)
Lemma set_keeps_undefined_paths index p this path :
  undefinedAt p path →
  readPath (VObject (default [] (get index (set index p this)))) path
    = readPath (VObject (default [] (get index this))) path.
Proof. intros Hundef. rewrite get_set_eq. simpl. by apply mergeProps_keeps_path. Qed.

(** Two passes over validator 7: the balance pass, then an attestation
    pass that mentions [val_balance] only as [undefined]. *)
Definition balancePass : object :=
  [("epoch", VBigInt 10); ("val_id", VBigInt 7); ("val_balance", VBigInt 32000000000)].
Definition attestationPass : object :=
  [("epoch", VBigInt 10); ("val_id", VBigInt 7); ("val_balance", VUndefined);
   ("att_happened", VBool true);
   ("att_meta", VObject [("included_in_block", VBigInt 321)])].

Lemma set_keeps_undefined_fields_witness :
  read (default [] (get 7 (set 7 attestationPass (set 7 balancePass new)))) "val_balance"
    = read (default [] (get 7 (set 7 balancePass new))) "val_balance"
  ∧ read (default [] (getMeta (setMeta attestationPass (set 7 balancePass new)))) "val_balance"
    = read (default [] (getMeta (set 7 balancePass new))) "val_balance"
  ∧ (∀ j, j ≠ 7 → get j (set 7 attestationPass (set 7 balancePass new))
                  = get j (set 7 balancePass new)).
Proof.
  apply (set_keeps_undefined_fields 7 attestationPass (set 7 balancePass new) "val_balance").
  intros v Hv. repeat (apply elem_of_cons in Hv as [Hv | Hv]; [by inversion Hv |]).
  by apply elem_of_nil in Hv.
Defined.

Example two_passes :
  get 7 (set 7 attestationPass (set 7 balancePass new)) =
    Some [("epoch", VBigInt 10); ("val_id", VBigInt 7);
          ("val_balance", VBigInt 32000000000);
          ("att_happened", VBool true);
          ("att_meta", VObject [("included_in_block", VBigInt 321)])].
Proof. reflexivity. Qed.

(** Nested objects merge field by field. *)
Example nested_merge :
  merge [("att_meta", VObject [("included_in_block", VBigInt 321)])]
        [("att_meta", VObject [("included_in_block", VUndefined);
                               ("reward_per_increment",
                                VObject [("source", VNumber 1)])])]
  = [("att_meta", VObject [("included_in_block", VBigInt 321);
                           ("reward_per_increment", VObject [("source", VNumber 1)])])].
Proof. reflexivity. Qed.

Lemma read_stripMeta_att v : read (stripMeta v) "att_meta" = VUndefined.
Proof.
  unfold stripMeta. rewrite read_setProp_ne by done. apply read_setProp_eq.
Qed.

Lemma read_stripMeta_sync v : read (stripMeta v) "sync_meta" = VUndefined.
Proof. unfold stripMeta. apply read_setProp_eq. Qed.

Lemma getProp_stripMeta v key :
  key ≠ "att_meta" → key ≠ "sync_meta" → getProp (stripMeta v) key = getProp v key.
Proof.
  intros Ha Hs. unfold stripMeta.
  rewrite getProp_setProp_ne by done. by rewrite getProp_setProp_ne.
Qed.

(** C9. [valuesToWrite()] returns one summary per stored summary, in the
    order of the map; in each of them [att_meta] and [sync_meta] read
    [undefined] and every other property is the one of the stored summary;
    the service (its summaries and its meta) is the same after the call. *)
Theorem valuesToWrite_strips_meta (this : SummaryService) :
  (valuesToWrite this).2 = this
  ∧ length (valuesToWrite this).1 = length (storage this)
  ∧ ∀ (i : nat) index v,
      storage this !! i = Some (index, v) →
      ∃ w, (valuesToWrite this).1 !! i = Some w
         ∧ read w "att_meta" = VUndefined
         ∧ read w "sync_meta" = VUndefined
         ∧ ∀ key, key ≠ "att_meta" → key ≠ "sync_meta" → getProp w key = getProp v key.
Proof.
  split; [done |]. split.
  - unfold valuesToWrite, values. simpl. by rewrite !length_fmap.
  - intros i index v Hi. exists (stripMeta v). split.
    + unfold valuesToWrite, values. simpl.
      rewrite !list_lookup_fmap. unfold object in *. by rewrite Hi.
    + split; [apply read_stripMeta_att |]. split; [apply read_stripMeta_sync |].
      intros key. apply getProp_stripMeta.
Qed.

Lemma valuesToWrite_strips_meta_witness :
  ∃ w, (valuesToWrite (set 7 attestationPass (set 7 balancePass new))).1 !! 0%nat = Some w
     ∧ read w "att_meta" = VUndefined
     ∧ read w "sync_meta" = VUndefined
     ∧ ∀ key, key ≠ "att_meta" → key ≠ "sync_meta" →
         getProp w key = getProp (merge balancePass attestationPass) key.
Proof.
  apply (proj2 (proj2 (valuesToWrite_strips_meta
                         (set 7 attestationPass (set 7 balancePass new)))) 0%nat 7).
  reflexivity.
Defined.

Example valuesToWrite_two_passes :
  (valuesToWrite (set 7 attestationPass (set 7 balancePass new))).1 =
    [[("epoch", VBigInt 10); ("val_id", VBigInt 7);
      ("val_balance", VBigInt 32000000000);
      ("att_happened", VBool true);
      ("att_meta", VUndefined);
      ("sync_meta", VUndefined)]].
Proof. reflexivity. Qed.

(* --------------------------------------------------------------------- *)
(** ** Successive passes, and the calls of the service                    *)
(* --------------------------------------------------------------------- *)

(** Successive [set] calls, each for a validator with a partial summary. *)
Definition passes (ps : list (Z * object)) (this : SummaryService) : SummaryService :=
  foldl (λ s '(index, p), set index p s) this ps.

Lemma passes_keep index key later :
  Forall (λ '(j, q), j = index → ∀ v, (key, v) ∈ q → v = VUndefined) later →
  ∀ this,
    read (default [] (get index (passes later this))) key
    = read (default [] (get index this)) key.
Proof.
  induction 1 as [| [j q] later Hq _ IH]; intros this; [done |].
  cbn [passes foldl]. fold (passes later (set j q this)). rewrite IH.
  destruct (decide (j = index)) as [-> | Hne].
  - rewrite get_set_eq. simpl. apply mergeProps_keeps. by apply Hq.
  - by rewrite get_set_ne.
Qed.

(** X21. A field that one pass defines with a value that is not an
    object is what the summary of that validator reads afterwards, and it
    stays so through any later passes, for this or other validators, that
    leave the field undefined for this validator. *)
Theorem defined_field_survives_passes (index : Z) (p : object) (key : string) (v : value)
    (later : list (Z * object)) (this : SummaryService) :
  NoDup p.*1 →
  (key, v) ∈ p →
  isObject v = false →
  v ≠ VUndefined →
  Forall (λ '(j, q), j = index → ∀ v', (key, v') ∈ q → v' = VUndefined) later →
  read (default [] (get index (passes later (set index p this)))) key = v.
Proof.
  intros Hnd Hin Hprim Hdef Hlater.
  rewrite (passes_keep index key later Hlater), get_set_eq. simpl.
  by apply mergeProps_writes.
Qed.

Lemma defined_field_survives_passes_witness :
  read (default [] (get 7 (passes [(8, balancePass); (7, attestationPass)]
                             (set 7 balancePass new)))) "val_balance"
  = VBigInt 32000000000.
Proof.
  apply (defined_field_survives_passes 7 balancePass "val_balance" (VBigInt 32000000000)
           [(8, balancePass); (7, attestationPass)] new).
  - apply (bool_decide_unpack _). vm_compute. exact I.
  - unfold balancePass. rewrite !elem_of_cons. auto.
  - reflexivity.
  - discriminate.
  - repeat constructor.
    + intros Heq. discriminate Heq.
    + intros _ v' Hv'.
      repeat (apply elem_of_cons in Hv' as [Hv' | Hv']; [by inversion Hv' |]).
      by apply elem_of_nil in Hv'.
Defined.

(** The calls the other services make. *)
Inductive Call :=
| CallSet (index : Z) (summary : object)
| CallSetMeta (val : object)
| CallClear
| CallClearMeta.

Definition call (c : Call) (this : SummaryService) : SummaryService :=
  match c with
  | CallSet index summary => set index summary this
  | CallSetMeta val => setMeta val this
  | CallClear => clear this
  | CallClearMeta => clearMeta this
  end.

(** The service after a sequence of calls on a new one. *)
Definition run (cs : list Call) : SummaryService := foldl (λ s c, call c s) new cs.

(** The validators [set] was called for since the last [clear], and
    whether the last call about the meta was [clearMeta]. *)
Definition indexesSinceClear (cs : list Call) : list Z :=
  foldl (λ acc c, match c with
                  | CallSet index _ => acc ++ [index]
                  | CallClear => []
                  | _ => acc
                  end) [] cs.

Definition metaDeleted (cs : list Call) : bool :=
  foldl (λ b c, match c with
                | CallSetMeta _ => false
                | CallClearMeta => true
                | _ => b
                end) false cs.

(** X22. After any sequence of calls on a new service there is one
    summary per validator: a validator has a summary exactly when [set]
    was called for it since the last [clear], [values()] has as many
    summaries as there are such validators, whatever the number of calls
    for each; and [getMeta()] is [undefined] exactly when the last call
    about the meta was [clearMeta]. *)
Theorem one_summary_per_validator (cs : list Call) :
  NoDup (storage (run cs)).*1
  ∧ (∀ index, is_Some (get index (run cs)) ↔ index ∈ indexesSinceClear cs)
  ∧ length (values (run cs)) = length (remove_dups (indexesSinceClear cs))
  ∧ (getMeta (run cs) = None ↔ metaDeleted cs = true).
Proof.
  assert (Hinv : NoDup (storage (run cs)).*1
                 ∧ (∀ index, index ∈ (storage (run cs)).*1 ↔ index ∈ indexesSinceClear cs)
                 ∧ (getMeta (run cs) = None ↔ metaDeleted cs = true)).
  { induction cs as [| c cs IH] using rev_ind.
    - split; [constructor |]. split; [done |]. by split.
    - unfold run, indexesSinceClear, metaDeleted in *. rewrite !foldl_snoc.
      destruct IH as (Hnd & Hmem & Hmeta).
      destruct c as [index summary | val | |]; simpl.
      + split; [by apply setProp_NoDup |]. split; [| done].
        intros i. rewrite setProp_keys, elem_of_app, list_elem_of_singleton, <- Hmem.
        destruct (decide (index ∈ _)) as [Hin | Hnin].
        * split; [by left | intros [? | ->]; done].
        * by rewrite elem_of_app, list_elem_of_singleton.
      + split; [done |]. split; [done |]. by split.
      + split; [constructor |]. split; [done | done].
      + split; [done |]. split; [done |]. by split. }
  destruct Hinv as (Hnd & Hmem & Hmeta).
  split; [done |]. split; [| split; [| done]].
  - intros index. unfold get. by rewrite getProp_is_Some.
  - unfold values. rewrite length_fmap, <- (length_fmap fst).
    apply Permutation_length, NoDup_Permutation; [done | apply NoDup_remove_dups |].
    intros i. by rewrite Hmem, elem_of_remove_dups.
Qed.

(** Three calls for validator 7 and one for validator 8 after a [clear]:
    two summaries. *)
Example two_validators :
  values (run [CallSet 5 balancePass; CallClear; CallClearMeta;
               CallSet 7 balancePass; CallSet 8 balancePass;
               CallSet 7 attestationPass; CallSet 7 attestationPass])
  = [merge balancePass attestationPass; balancePass]
  ∧ getMeta (run [CallSet 5 balancePass; CallClear; CallClearMeta]) = None.
Proof. split; reflexivity. Qed.

End SummaryAggregator.

(* ===================================================================== *)
(** * AlertEngine: alert rules and [CriticalAlertsService]                *)
(* ===================================================================== *)

Module AlertEngine.

Import Dict.

(** The severity payload of one operator, an object with numeric fields
    such as [{ ongoing, negDelta }] or [{ all, missed }], and the rule
    result, an object keyed by operator name. *)
Definition OperatorResult : Type := list (string * Z).
Definition AlertRuleResult : Type := list (string * OperatorResult).

(** [AlertRequestBody]; the two annotations are kept as the data they are
    rendered from. *)
Record AlertRequestBody := mkBody {
  startsAt : Z;
  endsAt : Z;
  label_alertname : string;
  label_severity : string;
  summary : nat;
  description : list (string * OperatorResult)
}.

(** [PreparedToSendAlert] *)
Record PreparedToSendAlert := mkPrepared {
  timestamp : Z;
  body : AlertRequestBody;
  ruleResult : AlertRuleResult
}.

(** The process-wide [sentAlerts] object. *)
Abbreviation SentAlerts := (gmap string PreparedToSendAlert).

(** A settled promise. *)
Inductive outcome (A : Type) :=
| Resolved (a : A)
| Rejected (reason : string).
Arguments Resolved {A} a.
Arguments Rejected {A} reason.

(** ** Numbers *)

(** The quotient of two integers as a JavaScript number, kept exact.
    Division by zero gives [NaN] or an infinity.  (Rounding to a double is
    monotone, so a strict comparison of doubles implies the exact one.) *)
Inductive number :=
| NaN
| PosInfinity
| NegInfinity
| Frac (n d : Z).

Definition divide (x y : Z) : number :=
  if y =? 0 then
    if x =? 0 then NaN else if 0 <? x then PosInfinity else NegInfinity
  else if 0 <? y then Frac x y else Frac (- x) (- y).

(** [p > q]; any comparison with [NaN] is false. *)
Definition greater (p q : number) : bool :=
  match p, q with
  | NaN, _ | _, NaN => false
  | PosInfinity, PosInfinity => false
  | PosInfinity, _ => true
  | _, PosInfinity => false
  | NegInfinity, _ => false
  | Frac _ _, NegInfinity => true
  | Frac a b, Frac c d => c * b <? a * d
  end.

(** [x / y] where either operand may be [undefined] (then [NaN]). *)
Definition divideFields (x y : option Z) : number :=
  match x, y with
  | Some x, Some y => divide x y
  | _, _ => NaN
  end.

(** ** [sendRule] of the two rules *)

Section SendRule.
(** [this.alertname], [Date.now()] and the [sentAlerts] object *)
Variable alertname : string.
Variable now : Z.
Variable sentAlerts : SentAlerts.

(** [sentAlerts[this.alertname]?.timestamp ?? 0] *)
Definition prevSendTimestamp : Z :=
  default 0 (timestamp <$> sentAlerts !! alertname).

(** [sentAlerts[this.alertname]?.ruleResult[operator]?.field ?? 0] *)
Definition prevField (operator field : string) : Z :=
  default 0 (prev ← sentAlerts !! alertname;
             operatorResult ← getProp (ruleResult prev) operator;
             getProp operatorResult field).

Definition defaultInterval : Z := 6 * 60 * 60 * 1000.
Definition ifIncreasedInterval : Z := 60 * 60 * 1000.

(** [operatorResult.negDelta > prev], false when the field is [undefined] *)
Definition fieldGreater (x : option Z) (y : Z) : bool :=
  match x with
  | Some x => y <? x
  | None => false
  end.

(** [CriticalNegativeDelta.sendRule]; [this.sendTimestamp] is [now]. *)
Definition CriticalNegativeDelta_sendRule (ruleResult : AlertRuleResult) : bool :=
  let sendTimestamp := now in
  if (0 <? length ruleResult)%nat then
    if sendTimestamp - prevSendTimestamp >? defaultInterval then true
    else
      existsb
        (λ '(operator, operatorResult),
           fieldGreater (getProp operatorResult "negDelta") (prevField operator "negDelta")
           && (sendTimestamp - prevSendTimestamp >? ifIncreasedInterval))
        ruleResult
  else false.

(** [operatorResult.missed / operatorResult.all > prevMissed / prevAll] *)
Definition shareIncreased (operator : string) (operatorResult : OperatorResult) : bool :=
  let prevAll := prevField operator "all" in
  let prevMissed := prevField operator "missed" in
  greater (divideFields (getProp operatorResult "missed") (getProp operatorResult "all"))
          (divide prevMissed prevAll).

(** [CriticalMissedProposes.sendRule] *)
Definition CriticalMissedProposes_sendRule (ruleResult : AlertRuleResult) : bool :=
  let sendTimestamp := now in
  if (0 <? length ruleResult)%nat then
    existsb
      (λ '(operator, operatorResult),
         shareIncreased operator operatorResult
         && (sendTimestamp - prevSendTimestamp >? defaultInterval))
      ruleResult
  else false.

Lemma nonempty_length {A} (l : list A) : (0 <? length l)%nat = true ↔ l ≠ [].
Proof. destruct l; simpl; split; (done || congruence). Qed.

Lemma CriticalMissedProposes_sendRule_true ruleResult :
  CriticalMissedProposes_sendRule ruleResult = true ↔
    ruleResult ≠ []
    ∧ now - prevSendTimestamp > defaultInterval
    ∧ ∃ operator operatorResult,
        (operator, operatorResult) ∈ ruleResult
        ∧ shareIncreased operator operatorResult = true.
Proof.
  unfold CriticalMissedProposes_sendRule.
  destruct (decide (ruleResult = [])) as [-> | Hne].
  - split; [done | by intros [? _]].
  - rewrite (proj2 (nonempty_length ruleResult) Hne), existsb_exists. split.
    + intros ([operator operatorResult] & Hin & [Hshare Hint]%andb_true_iff).
      split; [done |]. split; [by apply Z.gtb_gt |].
      exists operator, operatorResult. by rewrite list_elem_of_In.
    + intros (_ & Hint & operator & operatorResult & Hin & Hshare).
      exists (operator, operatorResult). rewrite <- list_elem_of_In. split; [done |].
      apply andb_true_iff. split; [done | by apply Z.gtb_gt].
Qed.

(** With no record of the alert every recorded share is [0 / 0], and
    nothing compares greater than [NaN]. *)
Lemma CriticalMissedProposes_sendRule_no_record ruleResult :
  sentAlerts !! alertname = None →
  CriticalMissedProposes_sendRule ruleResult = false.
Proof.
  intros Hnone. apply not_true_is_false.
  intros (_ & _ & operator & operatorResult & _ & Hshare)%CriticalMissedProposes_sendRule_true.
  unfold shareIncreased, prevField in Hshare. rewrite Hnone in Hshare. simpl in Hshare.
  by destruct (divideFields _ _).
Qed.

(** X15. [CriticalNegativeDelta.sendRule] answers [true] exactly on a
    non-empty rule result when either more than six hours have passed
    since the recorded send, or more than one hour has passed and some
    operator has a defined [negDelta] greater than the recorded one (zero
    for an operator without a record). *)
Theorem CriticalNegativeDelta_sendRule_decides (ruleResult : AlertRuleResult) :
  CriticalNegativeDelta_sendRule ruleResult = true ↔
    ruleResult ≠ []
    ∧ (now - prevSendTimestamp > defaultInterval
       ∨ (now - prevSendTimestamp > ifIncreasedInterval
          ∧ ∃ operator operatorResult negDelta,
              (operator, operatorResult) ∈ ruleResult
              ∧ getProp operatorResult "negDelta" = Some negDelta
              ∧ negDelta > prevField operator "negDelta")).
Proof.
  unfold CriticalNegativeDelta_sendRule.
  destruct (decide (ruleResult = [])) as [-> | Hne].
  - split; [done | by intros [? _]].
  - rewrite (proj2 (nonempty_length ruleResult) Hne).
    destruct (Z.gtb_spec (now - prevSendTimestamp) defaultInterval) as [Hlong | Hshort].
    + split; [| done]. intros _. split; [done |]. left. lia.
    + rewrite existsb_exists. split.
      * intros ([operator operatorResult] & Hin & [Hgt Hint]%andb_true_iff).
        split; [done |]. right. split; [by apply Z.gtb_gt |].
        unfold fieldGreater in Hgt.
        destruct (getProp operatorResult "negDelta") as [negDelta |] eqn:Hfield; [| done].
        exists operator, operatorResult, negDelta. rewrite list_elem_of_In.
        apply Z.ltb_lt in Hgt. repeat split; [done | done | lia].
      * intros (_ & [Hlong | (Hint & operator & operatorResult & negDelta & Hin & Hfield & Hgt)]);
          [lia |].
        exists (operator, operatorResult). rewrite <- list_elem_of_In. split; [done |].
        apply andb_true_iff. split; [| by apply Z.gtb_gt].
        unfold fieldGreater. rewrite Hfield. apply Z.ltb_lt. lia.
Qed.

(** X16. [CriticalMissedProposes.sendRule] answers [true] only for an
    operator that is already in the recorded rule result of the alert,
    with a recorded [all] other than zero or a negative recorded
    [missed]: against a missing record the recorded share is [0 / 0], and
    no share compares greater than that. *)
Theorem CriticalMissedProposes_needs_record (ruleResult : AlertRuleResult) :
  CriticalMissedProposes_sendRule ruleResult = true →
  ∃ prev operator operatorResult recorded,
    sentAlerts !! alertname = Some prev
    ∧ (operator, operatorResult) ∈ ruleResult
    ∧ getProp (AlertEngine.ruleResult prev) operator = Some recorded
    ∧ (prevField operator "all" ≠ 0 ∨ prevField operator "missed" < 0).
Proof.
  intros (_ & _ & operator & operatorResult & Hin & Hshare)%CriticalMissedProposes_sendRule_true.
  unfold shareIncreased in Hshare.
  assert (Hprev : prevField operator "all" ≠ 0 ∨ prevField operator "missed" < 0).
  { destruct (decide (prevField operator "all" = 0)) as [Hall | Hall]; [| by left].
    right. rewrite Hall in Hshare. unfold divide in Hshare. simpl in Hshare.
    destruct (Z.eqb_spec (prevField operator "missed") 0) as [Hzero | Hnz].
    - by destruct (divideFields _ _).
    - destruct (Z.ltb_spec 0 (prevField operator "missed")); [| lia].
      by destruct (divideFields _ _). }
  unfold prevField in Hprev.
  destruct (sentAlerts !! alertname) as [prev |] eqn:Hrec; simpl in Hprev; [| lia].
  destruct (getProp (AlertEngine.ruleResult prev) operator) as [recorded |] eqn:Hop;
    simpl in Hprev; [| lia].
  exists prev, operator, operatorResult, recorded. repeat split; try done.
  unfold prevField. rewrite Hrec. simpl. by rewrite Hop.
Qed.

End SendRule.

(** *** One operator, unchanged since the alert was last sent *)

Definition operatorA : AlertRuleResult := [("Operator A", [("all", 9); ("missed", 4)])].
Definition operatorA_delta : AlertRuleResult := [("Operator A", [("ongoing", 100); ("negDelta", 40)])].

Definition lastSent : Z := 1700000000000.
Definition sevenHoursLater : Z := lastSent + 7 * 60 * 60 * 1000.

Definition sentBefore : SentAlerts :=
  {[ "CriticalMissedProposes" :=
       mkPrepared lastSent
         (mkBody lastSent (lastSent + 60000) "CriticalMissedProposes" "critical" 1 operatorA)
         operatorA ]}.

(** C3 fails on the code.  At start-up [sentAlerts] is empty.  The rule
    result is not empty and more than six hours have passed since the
    last recorded send (there is none, so the time counts from 0), and
    [CriticalMissedProposes.sendRule] answers [false]: the recorded share
    it compares with is [0 / 0].  [CriticalNegativeDelta.sendRule], which
    has the six-hour branch, answers [true] in the same state. *)
Lemma CriticalMissedProposes_first_alert_not_sent :
  operatorA ≠ []
  ∧ (∅ : SentAlerts) !! "CriticalMissedProposes" = None
  ∧ sevenHoursLater - prevSendTimestamp "CriticalMissedProposes" ∅ > defaultInterval
  ∧ CriticalMissedProposes_sendRule "CriticalMissedProposes" sevenHoursLater ∅ operatorA = false
  ∧ CriticalNegativeDelta_sendRule "CriticalNegativeDelta" sevenHoursLater ∅ operatorA_delta
    = true.
Proof. split; [done |]. split; [done |]. repeat split; vm_compute; reflexivity. Qed.

Lemma CriticalMissedProposes_needs_record_witness :
  ∃ prev operator operatorResult recorded,
    sentBefore !! "CriticalMissedProposes" = Some prev
    ∧ (operator, operatorResult) ∈ ([("Operator A", [("all", 9); ("missed", 5)])] : AlertRuleResult)
    ∧ getProp (ruleResult prev) operator = Some recorded
    ∧ (prevField "CriticalMissedProposes" sentBefore operator "all" ≠ 0
       ∨ prevField "CriticalMissedProposes" sentBefore operator "missed" < 0).
Proof.
  apply (CriticalMissedProposes_needs_record "CriticalMissedProposes" sevenHoursLater sentBefore
           [("Operator A", [("all", 9); ("missed", 5)])]).
  vm_compute. reflexivity.
Defined.

(** A larger share than the one recorded, seven hours later: sent. *)
Example CriticalMissedProposes_share_grew :
  CriticalMissedProposes_sendRule "CriticalMissedProposes" sevenHoursLater sentBefore
    [("Operator A", [("all", 9); ("missed", 5)])] = true.
Proof. vm_compute. reflexivity. Qed.

(** Within the six hours [CriticalNegativeDelta] sends again only for a
    worse count, and then only after one hour. *)
Example CriticalNegativeDelta_escalates :
  let sent : SentAlerts :=
    {[ "CriticalNegativeDelta" :=
         mkPrepared lastSent
           (mkBody lastSent (lastSent + 60000) "CriticalNegativeDelta" "critical" 1 operatorA_delta)
           operatorA_delta ]} in
  CriticalNegativeDelta_sendRule "CriticalNegativeDelta" (lastSent + 2 * 60 * 60 * 1000) sent
    operatorA_delta = false
  ∧ CriticalNegativeDelta_sendRule "CriticalNegativeDelta" (lastSent + 2 * 60 * 60 * 1000) sent
      [("Operator A", [("ongoing", 100); ("negDelta", 41)])] = true
  ∧ CriticalNegativeDelta_sendRule "CriticalNegativeDelta" (lastSent + 30 * 60 * 1000) sent
      [("Operator A", [("ongoing", 100); ("negDelta", 41)])] = false.
Proof. repeat split; vm_compute; reflexivity. Qed.

(* --------------------------------------------------------------------- *)
(** ** The rules as alerts, and the service                               *)
(* --------------------------------------------------------------------- *)

(** Rows of the statistics the rules read. *)
Record NOsValidatorsStatusStats := mkStatus { status_nos_name : string; active_ongoing : Z }.
Record NOsValidatorsNegDeltaCount := mkNegDelta { neg_nos_name : string; neg_count : Z }.
Record NOsProposesStats := mkProposes { prop_nos_name : string; all : Z; missed : Z }.

(** The queries of the storage service; each may reject. *)
Record Storage := mkStorage {
  getLidoNodeOperatorsStats : Z → outcome (list NOsValidatorsStatusStats);
  getValidatorsCountWithNegativeDelta : Z → outcome (list NOsValidatorsNegDeltaCount);
  getLidoNodeOperatorsProposesStats : Z → outcome (list NOsProposesStats)
}.

(** The capabilities of an alert: its name, its rule, its send decision
    (given [Date.now()] and [sentAlerts]) and its body (given
    [this.sendTimestamp]). *)
Record Alert := mkAlert {
  alertname : string;
  alertRule : Z → outcome AlertRuleResult;
  sendRule : Z → SentAlerts → AlertRuleResult → bool;
  alertBody : Z → AlertRuleResult → AlertRequestBody
}.

Section Rules.
(** [config.get('CRITICAL_ALERTS_MIN_VAL_COUNT')] and [this.storage] *)
Variable CRITICAL_ALERTS_MIN_VAL_COUNT : Z.
Variable storage : Storage.

(** [CriticalNegativeDelta.alertRule]; [x > y / 3] is [y < 3 * x]. *)
Definition CriticalNegativeDelta_alertRule (bySlot : Z) : outcome AlertRuleResult :=
  match getLidoNodeOperatorsStats storage bySlot with
  | Rejected e => Rejected e
  | Resolved operators =>
      match getValidatorsCountWithNegativeDelta storage bySlot with
      | Rejected e => Rejected e
      | Resolved negativeValidatorsCount =>
          Resolved
            (foldl
               (λ result operator,
                  match List.find (λ a, String.eqb (neg_nos_name a) (status_nos_name operator))
                          negativeValidatorsCount with
                  | None => result
                  | Some negDelta =>
                      if active_ongoing operator <? 3 * neg_count negDelta then
                        setProp result (status_nos_name operator)
                          [("ongoing", active_ongoing operator);
                           ("negDelta", neg_count negDelta)]
                      else result
                  end)
               []
               (List.filter (λ o, CRITICAL_ALERTS_MIN_VAL_COUNT <? active_ongoing o) operators))
      end
  end.

(** [CriticalMissedProposes.alertRule] *)
Definition CriticalMissedProposes_alertRule (bySlot : Z) : outcome AlertRuleResult :=
  match getLidoNodeOperatorsStats storage bySlot with
  | Rejected e => Rejected e
  | Resolved operators =>
      match getLidoNodeOperatorsProposesStats storage bySlot with
      | Rejected e => Rejected e
      | Resolved proposes =>
          Resolved
            (foldl
               (λ result operator,
                  match List.find (λ a, String.eqb (prop_nos_name a) (status_nos_name operator))
                          proposes with
                  | None => result
                  | Some proposeStats =>
                      if all proposeStats <? 3 * missed proposeStats then
                        setProp result (status_nos_name operator)
                          [("all", all proposeStats); ("missed", missed proposeStats)]
                      else result
                  end)
               []
               (List.filter (λ o, CRITICAL_ALERTS_MIN_VAL_COUNT <? active_ongoing o) operators))
      end
  end.

(** [alertBody]: valid for one minute from the send timestamp. *)
Definition criticalBody (name : string) (sendTimestamp : Z) (ruleResult : AlertRuleResult)
  : AlertRequestBody :=
  {| startsAt := sendTimestamp;
     endsAt := sendTimestamp + 60000;
     label_alertname := name;
     label_severity := "critical";
     summary := length ruleResult;
     description := ruleResult |}.

Definition CriticalNegativeDelta : Alert :=
  {| alertname := "CriticalNegativeDelta";
     alertRule := CriticalNegativeDelta_alertRule;
     sendRule := CriticalNegativeDelta_sendRule "CriticalNegativeDelta";
     alertBody := criticalBody "CriticalNegativeDelta" |}.

Definition CriticalMissedProposes : Alert :=
  {| alertname := "CriticalMissedProposes";
     alertRule := CriticalMissedProposes_alertRule;
     sendRule := CriticalMissedProposes_sendRule "CriticalMissedProposes";
     alertBody := criticalBody "CriticalMissedProposes" |}.
End Rules.

(** Modelled from the spec: [Alert.toSend] of [alerts/BasicAlert.ts] is not
    among the sources.  Per evaluation cycle and rule the specification
    has: compute the rule result, decide whether to send, and on send
    render the body; the prepared alert carries the rule result, the body
    and the send timestamp. *)
Definition toSend (alert : Alert) (epoch now : Z) (sentAlerts : SentAlerts)
  : outcome (option PreparedToSendAlert) :=
  match alertRule alert epoch with
  | Rejected e => Rejected e
  | Resolved ruleResult =>
      if sendRule alert now sentAlerts ruleResult then
        Resolved (Some {| timestamp := now;
                          body := alertBody alert now ruleResult;
                          ruleResult := ruleResult |})
      else Resolved None
  end.

Inductive logEntry :=
| warn (message : string)
| log (message : string) (count : nat)
| error (message : string).

(** What the service acts on: the [sentAlerts] object, the HTTP posts made
    (each with whether it is answered successfully), what the service
    itself has logged, and a ghost list of the alerts whose [toSend] has
    been run. *)
Record World := mkWorld {
  sentAlerts : SentAlerts;
  posted : list (AlertRequestBody * bool);
  logged : list logEntry;
  evaluated : list string
}.

Definition logging (entry : logEntry) (w : World) : World :=
  mkWorld (sentAlerts w) (posted w) (logged w ++ [entry]) (evaluated w).

Definition evaluating (alert : Alert) (w : World) : World :=
  mkWorld (sentAlerts w) (posted w) (logged w) (evaluated w ++ [alertname alert]).

(** [sentAlerts[alert.alertname] = toSend] *)
Definition recording (alert : Alert) (prepared : PreparedToSendAlert) (w : World) : World :=
  mkWorld (<[alertname alert := prepared]> (sentAlerts w)) (posted w) (logged w) (evaluated w).

Section Service.
(** [prometheus.getSlotTimeDiffWithNow()], [this.baseUrl], [Date.now()],
    the alertmanager (whether a post of a body succeeds) and
    [this.alerts]. *)
Variable slotTimeDiffWithNow : Z.
Variable baseUrl : string.
Variable now : Z.
Variable delivers : AlertRequestBody → bool.
Variable alerts : list Alert.

(** [fire]: the post is made.  The request is neither awaited nor
    returned, so the promise [fire] returns is fulfilled whatever becomes
    of the request; a failure is caught and logged by the request's own
    handler when the answer comes, which can be after [send] has returned,
    and is not among the entries [send] logs. *)
Definition fire (alert : AlertRequestBody) (w : World) : World :=
  mkWorld (sentAlerts w) (posted w ++ [(alert, delivers alert)]) (logged w) (evaluated w).

(** The [for] loop of [send]; a rejection leaves the loop. *)
Fixpoint forAlerts (rest : list Alert) (epoch : Z) (count : nat) (w : World)
  : outcome nat * World :=
  match rest with
  | [] => (Resolved count, w)
  | alert :: rest =>
      match toSend alert epoch now (sentAlerts w) with
      | Rejected e => (Rejected e, evaluating alert w)
      | Resolved None => forAlerts rest epoch count (evaluating alert w)
      | Resolved (Some prepared) =>
          forAlerts rest epoch (S count)
            (recording alert prepared (fire (body prepared) (evaluating alert w)))
      end
  end.

(** [CriticalAlertsService.send] *)
Definition send (epoch : Z) (w : World) : outcome unit * World :=
  if slotTimeDiffWithNow >? 3600000 then
    (Resolved tt,
     logging (warn "Data actuality greater than 1 hour. Critical alerts are suppressed") w)
  else if String.eqb baseUrl "" then
    (Resolved tt,
     logging (warn "Env var 'CRITICAL_ALERTS_ALERTMANAGER_URL' is not set. Unable to send critical alerts") w)
  else
    match forAlerts alerts epoch 0 w with
    | (Resolved count, w') => (Resolved tt, logging (log "Sent critical alerts" count) w')
    | (Rejected e, w') =>
        (Resolved tt,
         logging (error e)
           (logging (error "Error when trying to processing critical alerts") w'))
    end.

(** The cycle is live: the data is fresh and the alertmanager URL is set. *)
Definition live : Prop := slotTimeDiffWithNow <= 3600000 ∧ baseUrl ≠ "".

Definition evaluates (epoch : Z) (alert : Alert) : Prop :=
  ∃ ruleResult, alertRule alert epoch = Resolved ruleResult.

Lemma evaluated_fire alert w : evaluated (fire alert w) = evaluated w.
Proof. reflexivity. Qed.

Lemma sentAlerts_fire alert w : sentAlerts (fire alert w) = sentAlerts w.
Proof. reflexivity. Qed.

Lemma posted_fire alert w : posted (fire alert w) = posted w ++ [(alert, delivers alert)].
Proof. reflexivity. Qed.

Lemma toSend_evaluates alert epoch sent :
  evaluates epoch alert → ∃ prepared, toSend alert epoch now sent = Resolved prepared.
Proof.
  intros [ruleResult Hr]. unfold toSend. rewrite Hr.
  destruct (sendRule alert now sent ruleResult); eauto.
Qed.

Lemma toSend_rejects alert epoch sent e :
  alertRule alert epoch = Rejected e → toSend alert epoch now sent = Rejected e.
Proof. intros Hr. unfold toSend. by rewrite Hr. Qed.

Lemma send_live epoch w :
  live →
  send epoch w =
    match forAlerts alerts epoch 0 w with
    | (Resolved count, w') => (Resolved tt, logging (log "Sent critical alerts" count) w')
    | (Rejected e, w') =>
        (Resolved tt,
         logging (error e)
           (logging (error "Error when trying to processing critical alerts") w'))
    end.
Proof.
  intros [Hfresh Hurl]. unfold send.
  destruct (Z.gtb_spec slotTimeDiffWithNow 3600000); [lia |].
  destruct (String.eqb_spec baseUrl ""); done.
Qed.

End Service.

(** Two runs of the loop that differ only in what becomes of the
    deliveries end alike, with the same records, the same log and the
    same rules evaluated. *)
Lemma forAlerts_delivery_irrelevant now d1 d2 epoch alerts :
  ∀ count w1 w2,
    sentAlerts w1 = sentAlerts w2 →
    logged w1 = logged w2 →
    evaluated w1 = evaluated w2 →
    (forAlerts now d1 alerts epoch count w1).1 = (forAlerts now d2 alerts epoch count w2).1
    ∧ sentAlerts (forAlerts now d1 alerts epoch count w1).2
      = sentAlerts (forAlerts now d2 alerts epoch count w2).2
    ∧ logged (forAlerts now d1 alerts epoch count w1).2
      = logged (forAlerts now d2 alerts epoch count w2).2
    ∧ evaluated (forAlerts now d1 alerts epoch count w1).2
      = evaluated (forAlerts now d2 alerts epoch count w2).2.
Proof.
  induction alerts as [| alert rest IH]; intros count w1 w2 Hsent Hlog Hev; simpl.
  - done.
  - rewrite Hsent.
    destruct (toSend alert epoch now (sentAlerts w2)) as [[prepared |] | e]; simpl.
    + apply IH; simpl; by rewrite ?Hsent, ?Hlog, ?Hev.
    + apply IH; simpl; by rewrite ?Hsent, ?Hlog, ?Hev.
    + by rewrite Hsent, Hlog, Hev.
Qed.

(** The rules of a list that all evaluate are gone through, and the loop
    goes on from the world they leave. *)
Lemma forAlerts_through now delivers epoch pre :
  Forall (evaluates epoch) pre →
  ∀ count w, ∃ count' w1,
    forAlerts now delivers pre epoch count w = (Resolved count', w1)
    ∧ evaluated w1 = evaluated w ++ (alertname <$> pre)
    ∧ ∀ rest, forAlerts now delivers (pre ++ rest) epoch count w
              = forAlerts now delivers rest epoch count' w1.
Proof.
  induction 1 as [| alert pre Hev _ IH]; intros count w.
  - exists count, w. simpl. by rewrite app_nil_r.
  - simpl.
    destruct (toSend_evaluates now alert epoch (sentAlerts w) Hev) as [[prepared |] ->].
    + destruct (IH (S count) (recording alert prepared
                               (fire delivers (body prepared) (evaluating alert w))))
        as (count' & w1 & Hrun & Hevd & Hrest).
      exists count', w1. split; [done |]. split; [| done].
      rewrite Hevd. simpl. by rewrite <- app_assoc.
    + destruct (IH count (evaluating alert w)) as (count' & w1 & Hrun & Hevd & Hrest).
      exists count', w1. split; [done |]. split; [| done].
      rewrite Hevd. simpl. by rewrite <- app_assoc.
Qed.

(** The loop logs nothing itself and only adds to the posts, one post for
    each rule counted. *)
Lemma forAlerts_posted now delivers alerts epoch :
  ∀ count w, ∃ added,
    posted (forAlerts now delivers alerts epoch count w).2 = posted w ++ added
    ∧ logged (forAlerts now delivers alerts epoch count w).2 = logged w
    ∧ Forall (λ post, post.2 = delivers post.1) added
    ∧ ∀ count', (forAlerts now delivers alerts epoch count w).1 = Resolved count' →
        count' = (count + length added)%nat.
Proof.
  induction alerts as [| alert rest IH]; intros count w; simpl.
  - exists []. rewrite app_nil_r. split; [done |]. split; [done |]. split; [done |].
    intros count' [= <-]. simpl. lia.
  - destruct (toSend alert epoch now (sentAlerts w)) as [[prepared |] | e]; simpl.
    + destruct (IH (S count) (recording alert prepared
                               (fire delivers (body prepared) (evaluating alert w))))
        as (added & Hposted & Hlogged & Hflags & Hcount).
      exists ((body prepared, delivers (body prepared)) :: added).
      rewrite Hposted, Hlogged. simpl. rewrite <- app_assoc.
      split; [done |]. split; [done |]. split; [by constructor |].
      intros count' Hres. rewrite (Hcount count' Hres). simpl. lia.
    + destruct (IH count (evaluating alert w)) as (added & Hposted & Hlogged & Hflags & Hcount).
      by exists added.
    + exists []. rewrite app_nil_r. split; [done |]. split; [done |]. split; [done |]. done.
Qed.

(** The loop leaves alone the records of other names and removes none. *)
Lemma forAlerts_frame now delivers alerts epoch :
  ∀ count w name,
    (name ∉ alertname <$> alerts →
     sentAlerts (forAlerts now delivers alerts epoch count w).2 !! name
     = sentAlerts w !! name)
    ∧ (is_Some (sentAlerts w !! name) →
       is_Some (sentAlerts (forAlerts now delivers alerts epoch count w).2 !! name)).
Proof.
  induction alerts as [| alert rest IH]; intros count w name; simpl; [done |].
  destruct (toSend alert epoch now (sentAlerts w)) as [[p |] | e]; simpl.
  - destruct (IH (S count) (recording alert p (fire delivers (body p) (evaluating alert w)))
                name) as [Hother Hkept].
    simpl in Hother, Hkept.
    split.
    + intros [Hne Hnin]%not_elem_of_cons. rewrite Hother by done.
      by rewrite lookup_insert_ne.
    + intros Hsome. apply Hkept.
      destruct (decide (alertname alert = name)) as [-> | Hne].
      * rewrite lookup_insert_eq. by eexists.
      * by rewrite lookup_insert_ne.
  - destruct (IH count (evaluating alert w) name) as [Hother Hkept]. simpl in *.
    split; [intros [Hne Hnin]%not_elem_of_cons; by apply Hother | done].
  - done.
Qed.

(** C5 (as the code has it).  A cycle never rejects, whatever becomes of
    the deliveries.  In a live cycle in which every rule evaluates, all
    the rules are gone through in order.  A rule that is reached (the
    rules before it evaluate) and prepares an alert has its body posted,
    after the posts of the rules before it, whatever became of those
    posts and whatever the rules after it do.  When the evaluation of a
    rule rejects, the cycle ends there: the rules before it and the rule
    itself are the ones evaluated, and the posts and the records are
    those the rules before it left; nothing is posted or recorded for the
    rejecting rule and the rules after it. *)
Theorem send_cycle diff url now (delivers : AlertRequestBody → bool)
    (alerts : list Alert) (epoch : Z) (w : World) :
  (send diff url now delivers alerts epoch w).1 = Resolved tt
  ∧ (live diff url → Forall (evaluates epoch) alerts →
     evaluated (send diff url now delivers alerts epoch w).2
     = evaluated w ++ (alertname <$> alerts))
  ∧ (live diff url → ∀ pre alert rest,
       alerts = pre ++ alert :: rest →
       Forall (evaluates epoch) pre →
       ∃ count w1,
         forAlerts now delivers pre epoch 0 w = (Resolved count, w1)
         ∧ evaluated w1 = evaluated w ++ (alertname <$> pre)
         ∧ (∀ prepared,
              toSend alert epoch now (sentAlerts w1) = Resolved (Some prepared) →
              ∃ before after,
                posted w1 = posted w ++ before
                ∧ posted (send diff url now delivers alerts epoch w).2
                  = posted w ++ before
                    ++ (body prepared, delivers (body prepared)) :: after)
         ∧ (∀ e,
              alertRule alert epoch = Rejected e →
              evaluated (send diff url now delivers alerts epoch w).2
              = evaluated w ++ (alertname <$> pre) ++ [alertname alert]
              ∧ posted (send diff url now delivers alerts epoch w).2 = posted w1
              ∧ sentAlerts (send diff url now delivers alerts epoch w).2 = sentAlerts w1)).
Proof.
  split; [| split].
  - unfold send. destruct (_ >? _); [done |]. destruct (String.eqb _ _); [done |].
    by destruct (forAlerts now delivers alerts epoch 0 w) as [[count | e] w'].
  - intros Hlive Hall. rewrite (send_live diff url now delivers alerts epoch w Hlive).
    destruct (forAlerts_through now delivers epoch alerts Hall 0%nat w)
      as (count' & w1 & Hrun & Hevd & _).
    by rewrite Hrun.
  - intros Hlive pre alert rest -> Hpre.
    rewrite (send_live diff url now delivers (pre ++ alert :: rest) epoch w Hlive).
    destruct (forAlerts_through now delivers epoch pre Hpre 0%nat w)
      as (count & w1 & Hrun & Hevd & Hrest).
    exists count, w1. split; [done |]. split; [done |]. rewrite Hrest. split.
    + intros prepared Hprep.
      destruct (forAlerts_posted now delivers pre epoch 0%nat w) as (before & Hbefore & _).
      rewrite Hrun in Hbefore. simpl in Hbefore.
      cbn [forAlerts]. rewrite Hprep.
      destruct (forAlerts_posted now delivers rest epoch (S count)
                  (recording alert prepared
                     (fire delivers (body prepared) (evaluating alert w1))))
        as (after & Hafter & _).
      simpl in Hafter.
      exists before, after. split; [done |].
      destruct (forAlerts now delivers rest epoch _ _) as [[c | e] w']; simpl in *;
        by rewrite Hafter, Hbefore, <- !app_assoc.
    + intros e Hrej. cbn [forAlerts]. rewrite (toSend_rejects now alert epoch _ e Hrej).
      simpl. rewrite Hevd. by rewrite <- app_assoc.
Qed.

(** C4 (as the code has it).  What becomes of the deliveries has no
    effect on the cycle: with whatever alertmanager, [send] settles alike,
    keeps the same records in [sentAlerts], logs the same entries and
    evaluates the same rules.  In particular the record of every alert
    that [toSend] prepares is overwritten once [fire] has been called for
    its body, also when the delivery fails: in a live cycle, for a rule
    that is reached and prepares an alert, the prepared alert is the
    record under the rule's name at the end of the cycle (unless a later
    rule has the same name), and its body is among the posts with the
    answer the alertmanager gave. *)
Theorem sentAlerts_ignore_delivery diff url now (d1 d2 : AlertRequestBody → bool)
    (alerts : list Alert) (epoch : Z) (w : World) :
  ((send diff url now d1 alerts epoch w).1 = (send diff url now d2 alerts epoch w).1
   ∧ sentAlerts (send diff url now d1 alerts epoch w).2
     = sentAlerts (send diff url now d2 alerts epoch w).2
   ∧ logged (send diff url now d1 alerts epoch w).2
     = logged (send diff url now d2 alerts epoch w).2
   ∧ evaluated (send diff url now d1 alerts epoch w).2
     = evaluated (send diff url now d2 alerts epoch w).2)
  ∧ (∀ pre alert rest count w1 prepared,
       live diff url →
       alerts = pre ++ alert :: rest →
       forAlerts now d1 pre epoch 0 w = (Resolved count, w1) →
       toSend alert epoch now (sentAlerts w1) = Resolved (Some prepared) →
       alertname alert ∉ alertname <$> rest →
       sentAlerts (send diff url now d1 alerts epoch w).2 !! alertname alert = Some prepared
       ∧ (body prepared, d1 (body prepared)) ∈ posted (send diff url now d1 alerts epoch w).2).
Proof.
  split.
  - unfold send. destruct (_ >? _); [done |]. destruct (String.eqb _ _); [done |].
    destruct (forAlerts_delivery_irrelevant now d1 d2 epoch alerts 0%nat w w
                eq_refl eq_refl eq_refl) as (Hout & Hsent & Hlog & Hev).
    destruct (forAlerts now d1 alerts epoch 0 w) as [[c1 | e1] w1];
      destruct (forAlerts now d2 alerts epoch 0 w) as [[c2 | e2] w2];
      simpl in *; try done.
    + injection Hout as ->. by rewrite Hsent, Hlog, Hev.
    + injection Hout as ->. by rewrite Hsent, Hlog, Hev.
  - intros pre alert rest count w1 prepared Hlive -> Hrun Hprep Hname.
    rewrite (send_live diff url now d1 (pre ++ alert :: rest) epoch w Hlive).
    assert (Hgo : ∀ l c w0 c1 w', forAlerts now d1 l epoch c w0 = (Resolved c1, w') →
              ∀ l', forAlerts now d1 (l ++ l') epoch c w0 = forAlerts now d1 l' epoch c1 w').
    { induction l as [| a l IH]; intros c w0 c1 w' Hl l'; simpl in *.
      - by injection Hl as -> ->.
      - destruct (toSend a epoch now (sentAlerts w0)) as [[p |] | e]; [| | done];
          by apply IH. }
    rewrite (Hgo pre 0%nat w count w1 Hrun). cbn [forAlerts]. rewrite Hprep.
    set (w2 := recording alert prepared (fire d1 (body prepared) (evaluating alert w1))).
    destruct (forAlerts_frame now d1 rest epoch (S count) w2 (alertname alert)) as [Hkept _].
    destruct (forAlerts_posted now d1 rest epoch (S count) w2) as (after & Hafter & _).
    specialize (Hkept Hname).
    assert (Hrec : sentAlerts w2 !! alertname alert = Some prepared)
      by (unfold w2; simpl; apply lookup_insert_eq).
    assert (Hpost : (body prepared, d1 (body prepared)) ∈ posted w2).
    { unfold w2. simpl. apply elem_of_app. right. by apply list_elem_of_singleton. }
    destruct (forAlerts now d1 rest epoch (S count) w2) as [[c | e] w']; simpl in *.
    + split; [by rewrite Hkept |]. rewrite Hafter. apply elem_of_app. by left.
    + split; [by rewrite Hkept |]. rewrite Hafter. apply elem_of_app. by left.
Qed.

(** *** Cycles from start-up against an alertmanager that is down *)

Definition alwaysFails : AlertRequestBody → bool := λ _, false.
Definition alwaysDelivers : AlertRequestBody → bool := λ _, true.

(** Operator A: 100 active validators, 40 of them with a negative delta,
    and 4 missed proposals out of 9. *)
Definition healthyStorage : Storage :=
  {| getLidoNodeOperatorsStats := λ _, Resolved [mkStatus "Operator A" 100];
     getValidatorsCountWithNegativeDelta := λ _, Resolved [mkNegDelta "Operator A" 40];
     getLidoNodeOperatorsProposesStats := λ _, Resolved [mkProposes "Operator A" 9 4] |}.

(** The same, but the query of the proposals is rejected. *)
Definition brokenStorage : Storage :=
  {| getLidoNodeOperatorsStats := λ _, Resolved [mkStatus "Operator A" 100];
     getValidatorsCountWithNegativeDelta := λ _, Resolved [mkNegDelta "Operator A" 40];
     getLidoNodeOperatorsProposesStats := λ _, Rejected "connection refused" |}.

(** The service at start-up: [sentAlerts] is empty. *)
Definition fresh : World := mkWorld ∅ [] [] [].

Definition preparedDelta : PreparedToSendAlert :=
  mkPrepared sevenHoursLater
    (criticalBody "CriticalNegativeDelta" sevenHoursLater operatorA_delta)
    operatorA_delta.

(** A rule that decides like [CriticalNegativeDelta] under another name,
    in the place of the rules of the service that are not among the
    sources. *)
Definition likeNegativeDelta (name : string) (min : Z) (storage : Storage) : Alert :=
  {| alertname := name;
     alertRule := CriticalNegativeDelta_alertRule min storage;
     sendRule := CriticalNegativeDelta_sendRule name;
     alertBody := criticalBody name |}.

Definition preparedOther : PreparedToSendAlert :=
  mkPrepared sevenHoursLater
    (criticalBody "CriticalMissedAttestations" sevenHoursLater operatorA_delta)
    operatorA_delta.

(** C4, where the specification does not hold: the only delivery of the cycle fails,
    and the record of the alert, absent before, is written. *)
Lemma failed_delivery_is_recorded :
  let after :=
    (send 0 "http://alertmanager" sevenHoursLater alwaysFails
       [CriticalNegativeDelta 10 healthyStorage] 320 fresh).2 in
  posted after = [(body preparedDelta, false)]
  ∧ sentAlerts fresh !! "CriticalNegativeDelta" = None
  ∧ sentAlerts after !! "CriticalNegativeDelta" = Some preparedDelta.
Proof. repeat split; vm_compute; reflexivity. Qed.

(** The four rules of the service, in its order; the two that are not
    among the sources decide like [CriticalNegativeDelta]. *)
Definition serviceAlerts (storage : Storage) : list Alert :=
  [CriticalNegativeDelta 10 storage;
   CriticalMissedProposes 10 storage;
   likeNegativeDelta "CriticalMissedAttestations" 10 storage;
   likeNegativeDelta "CriticalSlashing" 10 storage].

(** The first two rules have run from start-up, the delivery failing. *)
Definition afterTwoRules : World :=
  (forAlerts sevenHoursLater alwaysFails
     [CriticalNegativeDelta 10 healthyStorage; CriticalMissedProposes 10 healthyStorage]
     320 0 fresh).2.

(** The four rules of the service from start-up, every delivery failing:
    the third rule is recorded like the first. *)
Lemma sentAlerts_ignore_delivery_witness :
  sentAlerts (send 0 "http://alertmanager" sevenHoursLater alwaysFails
                (serviceAlerts healthyStorage) 320 fresh).2
    !! "CriticalMissedAttestations" = Some preparedOther
  ∧ (body preparedOther, alwaysFails (body preparedOther))
    ∈ posted (send 0 "http://alertmanager" sevenHoursLater alwaysFails
                (serviceAlerts healthyStorage) 320 fresh).2.
Proof.
  apply (proj2 (sentAlerts_ignore_delivery 0 "http://alertmanager" sevenHoursLater
                  alwaysFails alwaysDelivers (serviceAlerts healthyStorage) 320 fresh)
           [CriticalNegativeDelta 10 healthyStorage; CriticalMissedProposes 10 healthyStorage]
           (likeNegativeDelta "CriticalMissedAttestations" 10 healthyStorage)
           [likeNegativeDelta "CriticalSlashing" 10 healthyStorage]
           1%nat afterTwoRules preparedOther).
  - split; [lia | done].
  - reflexivity.
  - vm_compute. reflexivity.
  - vm_compute. reflexivity.
  - apply (bool_decide_unpack _). vm_compute. exact I.
Defined.

(** C5, where the specification does not hold: the first rule's query is rejected and
    the second rule, which on its own is evaluated and delivered, is not
    evaluated at all. *)
Lemma rejection_skips_remaining_rules :
  let both :=
    (send 0 "http://alertmanager" sevenHoursLater alwaysDelivers
       [CriticalMissedProposes 10 brokenStorage; CriticalNegativeDelta 10 brokenStorage]
       320 fresh).2 in
  let alone :=
    (send 0 "http://alertmanager" sevenHoursLater alwaysDelivers
       [CriticalNegativeDelta 10 brokenStorage] 320 fresh).2 in
  evaluated alone = ["CriticalNegativeDelta"]
  ∧ posted alone = [(body preparedDelta, true)]
  ∧ evaluated both = ["CriticalMissedProposes"]
  ∧ posted both = [].
Proof. repeat split; vm_compute; reflexivity. Qed.

(** The four rules of the service from start-up: the delivery for the
    first rule fails and the third rule is evaluated and its alert posted
    all the same. *)
Lemma send_cycle_witness :
  ∃ count w1,
    forAlerts sevenHoursLater alwaysFails
      [CriticalNegativeDelta 10 healthyStorage; CriticalMissedProposes 10 healthyStorage]
      320 0 fresh
    = (Resolved count, w1)
    ∧ evaluated w1
      = evaluated fresh
        ++ (alertname <$> [CriticalNegativeDelta 10 healthyStorage;
                           CriticalMissedProposes 10 healthyStorage])
    ∧ (∀ prepared,
         toSend (likeNegativeDelta "CriticalMissedAttestations" 10 healthyStorage) 320
           sevenHoursLater (sentAlerts w1) = Resolved (Some prepared) →
         ∃ before after,
           posted w1 = posted fresh ++ before
           ∧ posted (send 0 "http://alertmanager" sevenHoursLater alwaysFails
                       (serviceAlerts healthyStorage) 320 fresh).2
             = posted fresh ++ before
               ++ (body prepared, alwaysFails (body prepared)) :: after)
    ∧ (∀ e,
         alertRule (likeNegativeDelta "CriticalMissedAttestations" 10 healthyStorage) 320
         = Rejected e →
         evaluated (send 0 "http://alertmanager" sevenHoursLater alwaysFails
                      (serviceAlerts healthyStorage) 320 fresh).2
         = evaluated fresh
           ++ (alertname <$> [CriticalNegativeDelta 10 healthyStorage;
                              CriticalMissedProposes 10 healthyStorage])
           ++ [alertname (likeNegativeDelta "CriticalMissedAttestations" 10 healthyStorage)]
         ∧ posted (send 0 "http://alertmanager" sevenHoursLater alwaysFails
                     (serviceAlerts healthyStorage) 320 fresh).2
           = posted w1
         ∧ sentAlerts (send 0 "http://alertmanager" sevenHoursLater alwaysFails
                         (serviceAlerts healthyStorage) 320 fresh).2
           = sentAlerts w1).
Proof.
  apply (λ Hlive,
           proj2 (proj2 (send_cycle 0 "http://alertmanager" sevenHoursLater alwaysFails
                           (serviceAlerts healthyStorage) 320 fresh))
             Hlive
             [CriticalNegativeDelta 10 healthyStorage; CriticalMissedProposes 10 healthyStorage]
             (likeNegativeDelta "CriticalMissedAttestations" 10 healthyStorage)
             [likeNegativeDelta "CriticalSlashing" 10 healthyStorage]).
  - split; [lia | done].
  - reflexivity.
  - repeat constructor; eexists; reflexivity.
Defined.

(** There three of the four rules prepare an alert ([CriticalMissedProposes]
    has no record to compare with), and the three posts are made and
    fail; the three alerts are recorded. *)
Example three_posted_though_failing :
  let after :=
    (send 0 "http://alertmanager" sevenHoursLater alwaysFails
       (serviceAlerts healthyStorage) 320 fresh).2 in
  (posted after).*2 = [false; false; false]
  ∧ (label_alertname <$> (posted after).*1)
    = ["CriticalNegativeDelta"; "CriticalMissedAttestations"; "CriticalSlashing"]
  ∧ evaluated after
    = ["CriticalNegativeDelta"; "CriticalMissedProposes";
       "CriticalMissedAttestations"; "CriticalSlashing"]
  ∧ sentAlerts after !! "CriticalMissedProposes" = None
  ∧ size (sentAlerts after) = 3%nat.
Proof. repeat split; vm_compute; reflexivity. Qed.

(* --------------------------------------------------------------------- *)
(** ** The rule results, and what a cycle leaves behind                   *)
(* --------------------------------------------------------------------- *)

Lemma foldl_invariant {A B} (P : A → Prop) (step : A → B → A) (l : list B) :
  (∀ a b, b ∈ l → P a → P (step a b)) → ∀ init, P init → P (foldl step init l).
Proof.
  induction l as [| b l IH]; intros Hstep init Hinit; simpl; [done |].
  apply IH.
  - intros a b' Hb. apply Hstep. by right.
  - apply Hstep; [by left | done].
Qed.

(** X17. The operators [alertRule] reports are over both thresholds.
    Each entry of a result of [CriticalNegativeDelta.alertRule] is for an
    operator of the statistics with more than
    [CRITICAL_ALERTS_MIN_VAL_COUNT] active validators, carries the numbers
    of the first negative-delta row of that name, and that count is more
    than a third of the active validators; likewise
    [CriticalMissedProposes.alertRule] with the first proposals row of the
    name and more than a third of the proposals missed.  No operator
    name is reported twice. *)
Theorem alertRule_sound (min : Z) (storage : Storage) (bySlot : Z) :
  (∀ result,
     CriticalNegativeDelta_alertRule min storage bySlot = Resolved result →
     NoDup result.*1
     ∧ ∀ name operatorResult, (name, operatorResult) ∈ result →
         ∃ operators negativeValidatorsCount operator negDelta,
           getLidoNodeOperatorsStats storage bySlot = Resolved operators
           ∧ getValidatorsCountWithNegativeDelta storage bySlot
             = Resolved negativeValidatorsCount
           ∧ operator ∈ operators
           ∧ status_nos_name operator = name
           ∧ min < active_ongoing operator
           ∧ List.find (λ a, String.eqb (neg_nos_name a) name) negativeValidatorsCount
             = Some negDelta
           ∧ active_ongoing operator < 3 * neg_count negDelta
           ∧ operatorResult
             = [("ongoing", active_ongoing operator); ("negDelta", neg_count negDelta)])
  ∧ (∀ result,
       CriticalMissedProposes_alertRule min storage bySlot = Resolved result →
       NoDup result.*1
       ∧ ∀ name operatorResult, (name, operatorResult) ∈ result →
           ∃ operators proposes operator proposeStats,
             getLidoNodeOperatorsStats storage bySlot = Resolved operators
             ∧ getLidoNodeOperatorsProposesStats storage bySlot = Resolved proposes
             ∧ operator ∈ operators
             ∧ status_nos_name operator = name
             ∧ min < active_ongoing operator
             ∧ List.find (λ a, String.eqb (prop_nos_name a) name) proposes
               = Some proposeStats
             ∧ all proposeStats < 3 * missed proposeStats
             ∧ operatorResult
               = [("all", all proposeStats); ("missed", missed proposeStats)]).
Proof.
  split; intros result.
  - unfold CriticalNegativeDelta_alertRule.
    destruct (getLidoNodeOperatorsStats storage bySlot) as [operators |]; [| done].
    destruct (getValidatorsCountWithNegativeDelta storage bySlot) as [negs |]; [| done].
    intros [= <-]. apply foldl_invariant.
    + intros r operator [Hop Hmin]%list_elem_of_In%filter_In [Hnd Hall].
      apply list_elem_of_In in Hop. apply Z.ltb_lt in Hmin.
      destruct (List.find _ negs) as [negDelta |] eqn:Hfind; [| done].
      destruct (Z.ltb_spec (active_ongoing operator) (3 * neg_count negDelta)); [| done].
      split; [by apply setProp_NoDup |].
      intros name operatorResult [Hold | [-> ->]]%elem_of_setProp; [by apply Hall |].
      by exists operators, negs, operator, negDelta.
    + split; [constructor | intros ?? []%elem_of_nil].
  - unfold CriticalMissedProposes_alertRule.
    destruct (getLidoNodeOperatorsStats storage bySlot) as [operators |]; [| done].
    destruct (getLidoNodeOperatorsProposesStats storage bySlot) as [proposes |]; [| done].
    intros [= <-]. apply foldl_invariant.
    + intros r operator [Hop Hmin]%list_elem_of_In%filter_In [Hnd Hall].
      apply list_elem_of_In in Hop. apply Z.ltb_lt in Hmin.
      destruct (List.find _ proposes) as [proposeStats |] eqn:Hfind; [| done].
      destruct (Z.ltb_spec (all proposeStats) (3 * missed proposeStats)); [| done].
      split; [by apply setProp_NoDup |].
      intros name operatorResult [Hold | [-> ->]]%elem_of_setProp; [by apply Hall |].
      by exists operators, proposes, operator, proposeStats.
    + split; [constructor | intros ?? []%elem_of_nil].
Qed.

Lemma alertRule_sound_witness :
  NoDup operatorA_delta.*1
  ∧ ∀ name operatorResult, (name, operatorResult) ∈ operatorA_delta →
      ∃ operators negativeValidatorsCount operator negDelta,
        getLidoNodeOperatorsStats healthyStorage 320 = Resolved operators
        ∧ getValidatorsCountWithNegativeDelta healthyStorage 320
          = Resolved negativeValidatorsCount
        ∧ operator ∈ operators
        ∧ status_nos_name operator = name
        ∧ 10 < active_ongoing operator
        ∧ List.find (λ a, String.eqb (neg_nos_name a) name) negativeValidatorsCount
          = Some negDelta
        ∧ active_ongoing operator < 3 * neg_count negDelta
        ∧ operatorResult
          = [("ongoing", active_ongoing operator); ("negDelta", neg_count negDelta)].
Proof.
  apply (proj1 (alertRule_sound 10 healthyStorage 320) operatorA_delta). reflexivity.
Defined.

(** The records after the loop: old ones, or prepared in this loop. *)
Lemma forAlerts_records now delivers alerts epoch :
  ∀ count w name prepared,
    sentAlerts (forAlerts now delivers alerts epoch count w).2 !! name = Some prepared →
    sentAlerts w !! name = Some prepared
    ∨ ∃ alert,
        alert ∈ alerts ∧ alertname alert = name
        ∧ timestamp prepared = now
        ∧ alertRule alert epoch = Resolved (ruleResult prepared)
        ∧ body prepared = alertBody alert now (ruleResult prepared)
        ∧ (body prepared, delivers (body prepared))
          ∈ posted (forAlerts now delivers alerts epoch count w).2.
Proof.
  induction alerts as [| alert rest IH]; intros count w name prepared; simpl; [by left |].
  destruct (toSend alert epoch now (sentAlerts w)) as [[p |] | e] eqn:Hsend; simpl.
  - intros Hrec.
    destruct (IH _ _ _ _ Hrec) as [Hold | (a & Ha & Hname & Hrest)].
    + simpl in Hold.
      destruct (decide (alertname alert = name)) as [Heq | Hne].
      * rewrite Heq, lookup_insert_eq in Hold. injection Hold as ->.
        right. exists alert. split; [by left |]. split; [done |].
        unfold toSend in Hsend.
        destruct (alertRule alert epoch) as [r |]; [| done].
        destruct (sendRule alert now (sentAlerts w) r); [| done].
        injection Hsend as <-. simpl. repeat split; try done.
        destruct (forAlerts_posted now delivers rest epoch (S count)
                    (recording alert
                       {| timestamp := now; body := alertBody alert now r; ruleResult := r |}
                       (fire delivers (alertBody alert now r) (evaluating alert w))))
          as (added & -> & _).
        simpl. set_solver.
      * rewrite lookup_insert_ne in Hold by done. by left.
    + right. exists a. split; [by right | done].
  - intros Hrec. destruct (IH _ _ _ _ Hrec) as [Hold | (a & Ha & Hrest)]; [by left |].
    right. exists a. split; [by right | done].
  - by left.
Qed.

(** X18. What a cycle does to [sentAlerts]: it keeps every record it
    found (possibly overwritten), it does not touch the records of names
    that are not among its alerts, and every record that is new or changed
    was prepared in this cycle: the cycle is live, the record is that of
    an alert of the list under its own name, stamped with the cycle's
    [Date.now()], it holds the rule result that alert computed and the
    body rendered from it, and that body was posted.  A cycle that is not
    live leaves the records, the posts and the evaluated rules as they
    were. *)
Theorem send_records diff url now (delivers : AlertRequestBody → bool)
    (alerts : list Alert) (epoch : Z) (w : World) :
  (∀ name, name ∉ alertname <$> alerts →
     sentAlerts (send diff url now delivers alerts epoch w).2 !! name = sentAlerts w !! name)
  ∧ (∀ name, is_Some (sentAlerts w !! name) →
       is_Some (sentAlerts (send diff url now delivers alerts epoch w).2 !! name))
  ∧ (∀ name prepared,
       sentAlerts (send diff url now delivers alerts epoch w).2 !! name = Some prepared →
       sentAlerts w !! name = Some prepared
       ∨ live diff url
         ∧ ∃ alert,
             alert ∈ alerts ∧ alertname alert = name
             ∧ timestamp prepared = now
             ∧ alertRule alert epoch = Resolved (ruleResult prepared)
             ∧ body prepared = alertBody alert now (ruleResult prepared)
             ∧ (body prepared, delivers (body prepared))
               ∈ posted (send diff url now delivers alerts epoch w).2)
  ∧ (¬ live diff url →
     sentAlerts (send diff url now delivers alerts epoch w).2 = sentAlerts w
     ∧ posted (send diff url now delivers alerts epoch w).2 = posted w
     ∧ evaluated (send diff url now delivers alerts epoch w).2 = evaluated w).
Proof.
  assert (Hsent : ∀ entry w', sentAlerts (logging entry w') = sentAlerts w') by done.
  assert (Hposted : ∀ entry w', posted (logging entry w') = posted w') by done.
  unfold send, live.
  destruct (Z.gtb_spec diff 3600000) as [Hstale | Hfresh].
  { repeat split; try done; try (by left). }
  destruct (String.eqb_spec url "") as [Hempty | Hurl].
  { repeat split; try done; try (by left). }
  split; [| split; [| split]].
  - intros name Hnin.
    destruct (forAlerts_frame now delivers alerts epoch 0%nat w name) as [Hother _].
    destruct (forAlerts now delivers alerts epoch 0 w) as [[count | e] w']; simpl in *;
      by apply Hother.
  - intros name Hsome.
    destruct (forAlerts_frame now delivers alerts epoch 0%nat w name) as [_ Hkept].
    destruct (forAlerts now delivers alerts epoch 0 w) as [[count | e] w']; simpl in *;
      by apply Hkept.
  - intros name prepared Hrec.
    pose proof (forAlerts_records now delivers alerts epoch 0%nat w name prepared) as Hfrom.
    destruct (forAlerts now delivers alerts epoch 0 w) as [[count | e] w']; simpl in *;
      (destruct (Hfrom Hrec) as [Hold | Hnew]; [by left | right; split; [lia || done | done]]).
  - intros Hnot. exfalso. apply Hnot. split; [lia | done].
Qed.

(** The successive cycles of the service, each with its own clock, data
    age, alertmanager and rules. *)
Record Cycle := mkCycle {
  c_slotTimeDiffWithNow : Z;
  c_baseUrl : string;
  c_now : Z;
  c_delivers : AlertRequestBody → bool;
  c_alerts : list Alert;
  c_epoch : Z
}.

Definition cycles (cs : list Cycle) (w : World) : World :=
  foldl (λ w c, (send (c_slotTimeDiffWithNow c) (c_baseUrl c) (c_now c) (c_delivers c)
                     (c_alerts c) (c_epoch c) w).2) w cs.

(** X19. [CriticalMissedProposes] never gets a first record.  If the
    alert has no record in [sentAlerts] (as at start-up, when the object
    is empty) and the alerts of that name decide with
    [CriticalMissedProposes.sendRule], then it has none after any number
    of cycles, whatever the statistics, the clock and the alertmanager:
    a first alert would need a recorded share to compare with. *)
Theorem CriticalMissedProposes_never_recorded (cs : list Cycle) (w : World) :
  (∀ c alert, c ∈ cs → alert ∈ c_alerts c → alertname alert = "CriticalMissedProposes" →
     sendRule alert = CriticalMissedProposes_sendRule "CriticalMissedProposes") →
  sentAlerts w !! "CriticalMissedProposes" = None →
  sentAlerts (cycles cs w) !! "CriticalMissedProposes" = None.
Proof.
  revert w. induction cs as [| c cs IH]; intros w Hrules Hnone; simpl; [done |].
  apply IH; [intros c' alert Hc; apply Hrules; by right |].
  destruct (sentAlerts (send _ _ _ _ _ _ w).2 !! "CriticalMissedProposes")
    as [prepared |] eqn:Hrec; [| done].
  exfalso. revert Hrec. unfold send.
  destruct (_ >? _); [simpl; congruence |]. destruct (String.eqb _ _); [simpl; congruence |].
  assert (Hloop : ∀ alerts count w0,
            (∀ alert, alert ∈ alerts → alertname alert = "CriticalMissedProposes" →
               sendRule alert = CriticalMissedProposes_sendRule "CriticalMissedProposes") →
            sentAlerts w0 !! "CriticalMissedProposes" = None →
            sentAlerts (forAlerts (c_now c) (c_delivers c) alerts (c_epoch c) count w0).2
              !! "CriticalMissedProposes" = None).
  { induction alerts as [| alert rest IHa]; intros count w0 Hr Hn; simpl; [done |].
    unfold toSend. destruct (alertRule alert (c_epoch c)) as [r | e]; [| done].
    destruct (sendRule alert (c_now c) (sentAlerts w0) r) eqn:Hsend.
    - destruct (decide (alertname alert = "CriticalMissedProposes")) as [Hname | Hname].
      + rewrite (Hr alert (ltac:(by left)) Hname) in Hsend.
        by rewrite (CriticalMissedProposes_sendRule_no_record _ _ _ r Hn) in Hsend.
      + apply IHa; [intros a Ha; apply Hr; by right |].
        simpl. by rewrite lookup_insert_ne.
    - apply IHa; [intros a Ha; apply Hr; by right | done]. }
  pose proof (Hloop (c_alerts c) 0%nat w
                (λ alert Ha, Hrules c alert (ltac:(by left)) Ha) Hnone) as Hafter.
  destruct (forAlerts _ _ _ _ _ w) as [[count | e] w']; simpl in *; congruence.
Qed.

Definition healthyCycle (now : Z) : Cycle :=
  mkCycle 0 "http://alertmanager" now alwaysDelivers
    [CriticalNegativeDelta 10 healthyStorage; CriticalMissedProposes 10 healthyStorage] 320.

Lemma CriticalMissedProposes_never_recorded_witness :
  sentAlerts (cycles [healthyCycle lastSent; healthyCycle sevenHoursLater] fresh)
    !! "CriticalMissedProposes" = None.
Proof.
  apply (CriticalMissedProposes_never_recorded
           [healthyCycle lastSent; healthyCycle sevenHoursLater] fresh).
  - intros c alert Hc Ha Hname.
    apply elem_of_cons in Hc as [-> | Hc];
      [| apply list_elem_of_singleton in Hc as ->];
      (apply elem_of_cons in Ha as [-> | Ha];
         [discriminate Hname | apply list_elem_of_singleton in Ha as ->; reflexivity]).
  - reflexivity.
Defined.

(** There the operator misses 4 proposals of 9 in both cycles, and
    [CriticalNegativeDelta] is recorded while [CriticalMissedProposes] is
    not. *)
Example healthy_cycles_record_negative_delta_only :
  (CriticalMissedProposes_alertRule 10 healthyStorage 320 = Resolved operatorA)
  ∧ is_Some (sentAlerts (cycles [healthyCycle lastSent; healthyCycle sevenHoursLater] fresh)
               !! "CriticalNegativeDelta").
Proof. split; [reflexivity |]. vm_compute. by eexists. Qed.

(** X20. In a live cycle in which every rule evaluates, the cycle
    itself logs one entry, "Sent critical alerts" with the number of posts
    made in the cycle, answered successfully or not; that number is at
    most the number of rules.  (A failed post is logged by its own
    handler, not by the cycle.) *)
Theorem send_count diff url now (delivers : AlertRequestBody → bool)
    (alerts : list Alert) (epoch : Z) (w : World) :
  live diff url →
  Forall (evaluates epoch) alerts →
  ∃ added,
    posted (send diff url now delivers alerts epoch w).2 = posted w ++ added
    ∧ Forall (λ post, post.2 = delivers post.1) added
    ∧ (length added ≤ length alerts)%nat
    ∧ logged (send diff url now delivers alerts epoch w).2
      = logged w ++ [log "Sent critical alerts" (length added)].
Proof.
  intros Hlive Hall. rewrite (send_live diff url now delivers alerts epoch w Hlive).
  destruct (forAlerts_through now delivers epoch alerts Hall 0%nat w)
    as (count' & w' & Hrun & _ & _).
  destruct (forAlerts_posted now delivers alerts epoch 0%nat w)
    as (added & Hposted & Hlogged & Hflags & Hcount).
  rewrite Hrun in *. simpl in *.
  specialize (Hcount count' eq_refl). subst count'.
  exists added. split; [done |]. split; [done |]. split; [| by rewrite Hlogged].
  assert (Hlen : ∀ l c0 w0 c1 w1,
            forAlerts now delivers l epoch c0 w0 = (Resolved c1, w1) → (c1 ≤ c0 + length l)%nat).
  { induction l as [| a l IH]; intros c0 w0 c1 w1 Hl; simpl in *.
    - injection Hl as -> _. lia.
    - destruct (toSend a epoch now (sentAlerts w0)) as [[p |] | e]; [| | done];
        apply IH in Hl; lia. }
  apply Hlen in Hrun. simpl in Hrun. lia.
Qed.

(** The first post fails and the second is delivered: two are counted. *)
Lemma send_count_witness :
  ∃ added,
    posted (send 0 "http://alertmanager" sevenHoursLater
              (λ alert, String.eqb (label_alertname alert) "CriticalMissedAttestations")
              [CriticalNegativeDelta 10 healthyStorage;
               likeNegativeDelta "CriticalMissedAttestations" 10 healthyStorage]
              320 fresh).2
    = posted fresh ++ added
    ∧ Forall (λ post, post.2
                      = String.eqb (label_alertname post.1) "CriticalMissedAttestations") added
    ∧ (length added ≤ 2)%nat
    ∧ logged (send 0 "http://alertmanager" sevenHoursLater
                (λ alert, String.eqb (label_alertname alert) "CriticalMissedAttestations")
                [CriticalNegativeDelta 10 healthyStorage;
                 likeNegativeDelta "CriticalMissedAttestations" 10 healthyStorage]
                320 fresh).2
      = logged fresh ++ [log "Sent critical alerts" (length added)].
Proof.
  apply (send_count 0 "http://alertmanager" sevenHoursLater
           (λ alert, String.eqb (label_alertname alert) "CriticalMissedAttestations")
           [CriticalNegativeDelta 10 healthyStorage;
            likeNegativeDelta "CriticalMissedAttestations" 10 healthyStorage]
           320 fresh).
  - split; [lia | done].
  - repeat constructor; eexists; reflexivity.
Defined.

Example two_posts_counted :
  let after :=
    (send 0 "http://alertmanager" sevenHoursLater
       (λ alert, String.eqb (label_alertname alert) "CriticalMissedAttestations")
       [CriticalNegativeDelta 10 healthyStorage;
        likeNegativeDelta "CriticalMissedAttestations" 10 healthyStorage]
       320 fresh).2 in
  posted after = [(body preparedDelta, false); (body preparedOther, true)]
  ∧ logged after = [log "Sent critical alerts" 2].
Proof. split; vm_compute; reflexivity. Qed.

End AlertEngine.

(* ===================================================================== *)
(** * Validators registry: [FileSourceService]                            *)
(* ===================================================================== *)

Module FileSource.

(** What the service can reject with: the [Error] of [update], a
    [TypeError] of the runtime, and a failure to read or parse the file. *)
Inductive error :=
| Error (message : string)
| TypeError (message : string)
| ReadError (message : string).

Inductive result (A : Type) :=
| Ok (a : A)
| Err (e : error).
Arguments Ok {A} a.
Arguments Err {A} e.

(** The data of the service as the class declares it, [FileContent], with
    any field possibly missing ([None] is [undefined]).  This is what
    [getKeys], [getIndexedKeys] and [getOperators] are typed against; what
    a file can really hold, and what [isValid] and [update] make of it, is
    in [Runtime] below, where the same reads are taken up again on
    untyped values. *)
Record FileOperator := mkOperator {
  name : option string;
  keys : option (list string)
}.

Record FileContent := mkContent {
  operators : option (list FileOperator)
}.

(** [RegistrySourceKeyWithOperatorName] and [RegistrySourceOperator] *)
Record Key := mkKey {
  index : nat;
  operatorIndex : nat;
  key : string;
  operatorName : option string
}.

Record Operator := mkRegistryOperator {
  op_index : nat;
  op_name : option string
}.

Record FileSourceService := mkService {
  data : option FileContent;
  lastSuccessDataReadTimestamp : option Z
}.

Definition new : FileSourceService := mkService None None.

(** The callback of [getKeys] over the operators from [operatorIndex] on:
    the keys of each are pushed, named after
    [this.data.operators[operatorIndex].name]; spreading missing keys
    throws. *)
Fixpoint pushKeys (all rest : list FileOperator) (operatorIndex : nat) (keys : list Key)
  : result (list Key) :=
  match rest with
  | [] => Ok keys
  | o :: rest =>
      match FileSource.keys o with
      | None => Err (TypeError "Spread syntax requires ...iterable[Symbol.iterator] to be a function")
      | Some ks =>
          pushKeys all rest (S operatorIndex)
            (keys ++ imap (λ index key,
                             {| index := index;
                                operatorIndex := operatorIndex;
                                key := key;
                                operatorName := all !! operatorIndex ≫= name |}) ks)
      end
  end.

Definition getKeys (this : FileSourceService) : result (list Key) :=
  match data this with
  | None => Ok []
  | Some d =>
      match operators d with
      | None => Ok []
      | Some os => pushKeys os os 0 []
      end
  end.

(** [getIndexedKeys]: a later key of the same value replaces the earlier. *)
Definition getIndexedKeys (this : FileSourceService) : result (gmap string Key) :=
  match getKeys this with
  | Err e => Err e
  | Ok allKeys => Ok (foldl (λ indexedKeys k, <[key k := k]> indexedKeys) ∅ allKeys)
  end.

Definition sourceTimestamp (this : FileSourceService) : option Z :=
  lastSuccessDataReadTimestamp this.

Definition getOperators (this : FileSourceService) : list Operator :=
  match data this with
  | None => []
  | Some d =>
      match operators d with
      | None => []
      | Some os => imap (λ index o, {| op_index := index; op_name := name o |}) os
      end
  end.

(** The keys pushed for the operators from [operatorIndex] on. *)
Definition keysFrom (all rest : list FileOperator) (operatorIndex : nat) : list Key :=
  mjoin (imap (λ i o, imap (λ index key,
                              mkKey index (operatorIndex + i) key
                                    (all !! (operatorIndex + i)%nat ≫= name))
                       (default [] (keys o))) rest).

Lemma keysFrom_cons all o rest operatorIndex :
  keysFrom all (o :: rest) operatorIndex
  = imap (λ index key, mkKey index operatorIndex key (all !! operatorIndex ≫= name))
         (default [] (keys o))
    ++ keysFrom all rest (S operatorIndex).
Proof.
  unfold keysFrom. cbn [imap mjoin list_join]. rewrite Nat.add_0_r. f_equal. f_equal.
  apply imap_ext. intros i o' _. cbn.
  by replace (operatorIndex + S i)%nat with (S (operatorIndex + i))%nat by lia.
Qed.

Lemma pushKeys_spec all rest :
  ∀ operatorIndex acc,
    Forall (λ o, is_Some (keys o)) rest →
    pushKeys all rest operatorIndex acc = Ok (acc ++ keysFrom all rest operatorIndex).
Proof.
  induction rest as [| o rest IH]; intros operatorIndex acc Hall.
  - unfold keysFrom. simpl. by rewrite app_nil_r.
  - apply Forall_cons in Hall as [[ks Hk] Hall]. cbn [pushKeys]. rewrite Hk.
    rewrite IH by done. rewrite keysFrom_cons, Hk. cbn [default]. by rewrite <- app_assoc.
Qed.

Lemma pushKeys_err all rest :
  ∀ operatorIndex acc,
    ¬ Forall (λ o, is_Some (keys o)) rest →
    ∃ e, pushKeys all rest operatorIndex acc = Err e.
Proof.
  induction rest as [| o rest IH]; intros operatorIndex acc Hall.
  - by destruct Hall.
  - simpl. destruct (keys o) as [ks |] eqn:Hk; [| by eexists].
    apply IH. intros Hrest. apply Hall. constructor; [by rewrite Hk | done].
Qed.

Lemma elem_of_keysFrom all rest start k :
  k ∈ keysFrom all rest start ↔
    ∃ i o ks,
      rest !! i = Some o ∧ keys o = Some ks
      ∧ operatorIndex k = (start + i)%nat
      ∧ ks !! index k = Some (key k)
      ∧ operatorName k = all !! (start + i)%nat ≫= name.
Proof.
  unfold keysFrom. rewrite list_elem_of_join. split.
  - intros (l & Hk & Hl). apply elem_of_lookup_imap in Hl as (i & o & -> & Ho).
    apply elem_of_lookup_imap in Hk as (j & x & -> & Hx). simpl.
    destruct (keys o) as [ks |] eqn:Hks; [| done]. by exists i, o, ks.
  - intros (i & o & ks & Ho & Hks & Hoi & Hkey & Hname).
    eexists. split; [| apply elem_of_lookup_imap; by exists i, o].
    rewrite Hks. simpl. apply elem_of_lookup_imap. exists (index k), (key k).
    split; [| done]. destruct k. simpl in *. by subst.
Qed.

(** X25. [getKeys] resolves exactly when every operator of the stored
    data has a list of keys.  Its result then has one entry for each key
    of each operator and no other: [index] is the place of the key in the
    operator's list, [operatorIndex] the place of the operator, whose name
    is [operatorName]; and each entry's operator is one [getOperators]
    returns, under the same index and name. *)
Theorem getKeys_entries (this : FileSourceService) (os : list FileOperator) :
  (∃ d, data this = Some d ∧ operators d = Some os) →
  ((∃ allKeys, getKeys this = Ok allKeys) ↔ Forall (λ o, is_Some (keys o)) os)
  ∧ ∀ allKeys, getKeys this = Ok allKeys →
      (∀ k, k ∈ allKeys ↔
            ∃ o ks, os !! operatorIndex k = Some o
                  ∧ keys o = Some ks
                  ∧ ks !! index k = Some (key k)
                  ∧ operatorName k = name o)
      ∧ ∀ k, k ∈ allKeys →
          mkRegistryOperator (operatorIndex k) (operatorName k) ∈ getOperators this.
Proof.
  intros (d & Hd & Hops). unfold getKeys, getOperators. rewrite Hd, Hops.
  destruct (decide (Forall (λ o, is_Some (keys o)) os)) as [Hall | Hnot].
  - rewrite (pushKeys_spec os os 0 [] Hall). simpl.
    split; [split; [done | by eexists] |].
    intros allKeys [= <-].
    assert (Hmem : ∀ k, k ∈ keysFrom os os 0 ↔
                     ∃ o ks, os !! operatorIndex k = Some o ∧ keys o = Some ks
                           ∧ ks !! index k = Some (key k) ∧ operatorName k = name o).
    { intros k. rewrite elem_of_keysFrom. simpl. split.
      - intros (i & o & ks & Ho & Hks & -> & Hkey & ->). exists o, ks. by rewrite Ho.
      - intros (o & ks & Ho & Hks & Hkey & Hname).
        exists (operatorIndex k), o, ks. by rewrite Ho. }
    split; [done |].
    intros k (o & ks & Ho & _ & _ & ->)%Hmem.
    apply elem_of_lookup_imap. by exists (operatorIndex k), o.
  - destruct (pushKeys_err os os 0 [] Hnot) as [e ->].
    split; [split; [by intros [? ?] | done] | done].
Qed.

(** X26. [getIndexedKeys] indexes the entries of [getKeys] by key: a key
    is in the map exactly when some operator lists it, and it is mapped to
    the last entry with that key, so that a key listed by several
    operators counts for the last of them. *)
Theorem getIndexedKeys_last_entry (this : FileSourceService) (allKeys : list Key) :
  getKeys this = Ok allKeys →
  ∃ indexedKeys,
    getIndexedKeys this = Ok indexedKeys
    ∧ (∀ x, is_Some (indexedKeys !! x) ↔ x ∈ key <$> allKeys)
    ∧ ∀ x k, indexedKeys !! x = Some k →
        key k = x
        ∧ ∃ before after,
            allKeys = before ++ k :: after ∧ Forall (λ k', key k' ≠ x) after.
Proof.
  intros Hkeys. unfold getIndexedKeys. rewrite Hkeys. eexists. split; [done |].
  clear Hkeys this.
  induction allKeys as [| k0 allKeys IH] using rev_ind.
  - split.
    + intros x. simpl. rewrite lookup_empty. split; [by intros [? ?] | by intros ?%elem_of_nil].
    + intros x k. simpl. by rewrite lookup_empty.
  - rewrite foldl_snoc. destruct IH as [IHdom IHlast]. split.
    + intros x. rewrite fmap_app, elem_of_app, <- IHdom. simpl.
      rewrite list_elem_of_singleton.
      destruct (decide (key k0 = x)) as [<- | Hne].
      * rewrite lookup_insert_eq. split; [by right | by eexists].
      * rewrite lookup_insert_ne by done. split; [by left | by intros [? | ->]].
    + intros x k. destruct (decide (key k0 = x)) as [<- | Hne].
      * rewrite lookup_insert_eq. intros [= <-]. split; [done |].
        by exists allKeys, [].
      * rewrite lookup_insert_ne by done. intros Hk.
        destruct (IHlast x k Hk) as (Hkey & before & after & -> & Hafter).
        split; [done |]. exists before, (after ++ [k0]).
        split; [by rewrite <- app_assoc |].
        apply Forall_app. split; [done |]. by constructor.
Qed.

Definition twoOperators : FileContent :=
  mkContent (Some [mkOperator (Some "Operator A") (Some ["0xa1"; "0xa2"]);
                   mkOperator (Some "Operator B") (Some ["0xb1"; "0xa2"])]).

(** The service holding these data. *)
Definition loaded : FileSourceService := mkService (Some twoOperators) (Some 1700000000000).

Lemma getKeys_entries_witness :
  ((∃ allKeys, getKeys loaded = Ok allKeys)
   ↔ Forall (λ o, is_Some (keys o))
       [mkOperator (Some "Operator A") (Some ["0xa1"; "0xa2"]);
        mkOperator (Some "Operator B") (Some ["0xb1"; "0xa2"])])
  ∧ ∀ allKeys, getKeys loaded = Ok allKeys →
      (∀ k, k ∈ allKeys ↔
            ∃ o ks, [mkOperator (Some "Operator A") (Some ["0xa1"; "0xa2"]);
                     mkOperator (Some "Operator B") (Some ["0xb1"; "0xa2"])]
                      !! operatorIndex k = Some o
                  ∧ keys o = Some ks
                  ∧ ks !! index k = Some (key k)
                  ∧ operatorName k = name o)
      ∧ ∀ k, k ∈ allKeys →
          mkRegistryOperator (operatorIndex k) (operatorName k) ∈ getOperators loaded.
Proof.
  apply (getKeys_entries loaded). exists twoOperators. split; reflexivity.
Defined.

Lemma getIndexedKeys_last_entry_witness :
  ∃ indexedKeys,
    getIndexedKeys loaded = Ok indexedKeys
    ∧ (∀ x, is_Some (indexedKeys !! x)
            ↔ x ∈ key <$> [mkKey 0 0 "0xa1" (Some "Operator A");
                           mkKey 1 0 "0xa2" (Some "Operator A");
                           mkKey 0 1 "0xb1" (Some "Operator B");
                           mkKey 1 1 "0xa2" (Some "Operator B")])
    ∧ ∀ x k, indexedKeys !! x = Some k →
        key k = x
        ∧ ∃ before after,
            [mkKey 0 0 "0xa1" (Some "Operator A");
             mkKey 1 0 "0xa2" (Some "Operator A");
             mkKey 0 1 "0xb1" (Some "Operator B");
             mkKey 1 1 "0xa2" (Some "Operator B")] = before ++ k :: after
            ∧ Forall (λ k', key k' ≠ x) after.
Proof. apply (getIndexedKeys_last_entry loaded). reflexivity. Defined.

(** The key both operators list counts for the second. *)
Example shared_key_goes_to_last_operator :
  match getIndexedKeys loaded with
  | Ok indexedKeys => operatorName <$> indexedKeys !! "0xa2"
  | Err _ => None
  end = Some (Some "Operator B").
Proof. reflexivity. Qed.


(* --------------------------------------------------------------------- *)
(** ** The file at run time                                               *)
(* --------------------------------------------------------------------- *)

Module Runtime.

(** A value as [load] of js-yaml gives it for a document without
    explicit tags: [null] (which also stands for [undefined]: this code
    does not tell them apart), a boolean, a number, a string, a sequence
    or a mapping.  A timestamp is loaded as a [Date], which this code
    cannot tell from a mapping without properties.  Of a number the code
    only tests whether it is zero, so numbers carry an integer.  [VMethod]
    is a method of a prototype, which a property read can give. *)
#[warnings="-register-all"]
Inductive value :=
| VNull
| VBool (b : bool)
| VNumber (n : Z)
| VString (s : string)
| VSeq (items : list value)
| VMap (props : list (string * value))
| VMethod (name : string) (arity : nat).

Definition isNull (v : value) : bool :=
  match v with
  | VNull => true
  | _ => false
  end.

(** The condition [v ? ... : ...] *)
Definition truthy (v : value) : bool :=
  match v with
  | VNull => false
  | VBool b => b
  | VNumber n => negb (n =? 0)
  | VString s => negb (String.eqb s "")
  | VSeq _ | VMap _ | VMethod _ _ => true
  end.

(** [v.key] for the property names this code reads ([operators], [name],
    [keys], [length], [map]).  A mapping has the properties of the file;
    its prototype has none of these names.  A sequence has its [length]
    and the methods [keys] and [map] of [Array.prototype]; a string has
    its [length]; a method has its [length] and [name].  On [null] the
    read is only made behind [?.], where it gives [undefined]. *)
Definition get (v : value) (key : string) : value :=
  match v with
  | VMap props => default VNull (Dict.getProp props key)
  | VSeq items =>
      if String.eqb key "length" then VNumber (Z.of_nat (length items))
      else if String.eqb key "keys" then VMethod "keys" 0
      else if String.eqb key "map" then VMethod "map" 1
      else VNull
  | VString s =>
      if String.eqb key "length" then VNumber (Z.of_nat (String.length s)) else VNull
  | VMethod name arity =>
      if String.eqb key "length" then VNumber (Z.of_nat arity)
      else if String.eqb key "name" then VString name
      else VNull
  | VNull | VBool _ | VNumber _ => VNull
  end.

(** [v.key] where [v] is not guarded: a [TypeError] on [null]. *)
Definition member (v : value) (key : string) : result value :=
  match v with
  | VNull => Err (TypeError "Cannot read properties of undefined")
  | _ => Ok (get v key)
  end.

(** [`${v}`]: the conversion to a string throws for a mapping that has a
    property [toString] of its own, which is not a function; a sequence
    converts its items. *)
Fixpoint converts (v : value) : bool :=
  match v with
  | VMap props => negb (bool_decide (is_Some (Dict.getProp props "toString")))
  | VSeq items => forallb converts items
  | _ => true
  end.

(** The callback of [isValid]:
    [o.name && o.keys?.length ? (valid = true) : (valid = false)] *)
Definition validOperator (o : value) : result bool :=
  match member o "name" with
  | Err e => Err e
  | Ok name =>
      if truthy name then Ok (truthy (get (get o "keys") "length")) else Ok false
  end.

Fixpoint validate (operators : list value) (valid : bool) : result bool :=
  match operators with
  | [] => Ok valid
  | o :: rest =>
      match validOperator o with
      | Err e => Err e
      | Ok valid => validate rest valid
      end
  end.

(** [isValid]: [data?.operators?.map(...)]; calling [map] on what is
    neither missing nor a sequence throws. *)
Definition isValid (data : value) : result bool :=
  match get data "operators" with
  | VNull => Ok false
  | VSeq operators => validate operators false
  | _ => Err (TypeError "data?.operators?.map is not a function")
  end.

(** The text [update] logs for one operator,
    [`${o.name}: [${o.keys.length}]`]: the name is read and converted,
    then the length of the keys is read, unguarded, and converted. *)
Definition logOperator (o : value) : result unit :=
  match member o "name" with
  | Err e => Err e
  | Ok name =>
      if converts name then
        match member (get o "keys") "length" with
        | Err e => Err e
        | Ok length =>
            if converts length then Ok tt
            else Err (TypeError "Cannot convert object to primitive value")
        end
      else Err (TypeError "Cannot convert object to primitive value")
  end.

Fixpoint logOperators (operators : list value) : result unit :=
  match operators with
  | [] => Ok tt
  | o :: rest =>
      match logOperator o with
      | Err e => Err e
      | Ok _ => logOperators rest
      end
  end.

(** [data.operators.map(...)] of the log line *)
Definition logLine (data : value) : result unit :=
  match member data "operators" with
  | Err e => Err e
  | Ok (VSeq operators) => logOperators operators
  | Ok _ => Err (TypeError "data.operators.map is not a function")
  end.

(** The service at run time: [this.data] is whatever was loaded. *)
Record FileSourceService := mkService {
  data : value;
  lastSuccessDataReadTimestamp : option Z
}.

Definition new : FileSourceService := mkService VNull None.

(** [update], given what reading and parsing the file gives (a rejection
    of [readFile], an exception of [load], or the loaded value) and
    [Date.now()]. *)
Definition update (fileContent : result value) (now : Z) (this : FileSourceService)
  : result unit * FileSourceService :=
  match fileContent with
  | Err e => (Err e, this)
  | Ok data =>
      match isValid data with
      | Err e => (Err e, this)
      | Ok false => (Err (Error "Error when parsing validators registry file source"), this)
      | Ok true =>
          match logLine data with
          | Err e => (Err e, this)
          | Ok _ => (Ok tt, {| data := data; lastSuccessDataReadTimestamp := Some now |})
          end
      end
  end.

(** [RegistrySourceKeyWithOperatorName] and [RegistrySourceOperator] as
    they are built, whatever the file holds. *)
Record Key := mkKey {
  index : nat;
  operatorIndex : nat;
  key : value;
  operatorName : value
}.

Record Operator := mkRegistryOperator {
  op_index : nat;
  op_name : value
}.

(** [keys.push(...o.keys?.map((key, index) => ...))] for one operator:
    spreading [undefined] throws, and so does calling [map] on keys that
    are not a sequence. *)
Definition operatorKeys (all : list value) (o : value) (operatorIndex : nat)
  : result (list Key) :=
  match member o "keys" with
  | Err e => Err e
  | Ok VNull =>
      Err (TypeError "Spread syntax requires ...iterable[Symbol.iterator] to be a function")
  | Ok (VSeq ks) =>
      Ok (imap (λ index key,
                  {| index := index;
                     operatorIndex := operatorIndex;
                     key := key;
                     operatorName := get (default VNull (all !! operatorIndex)) "name" |}) ks)
  | Ok _ => Err (TypeError "o.keys?.map is not a function")
  end.

Fixpoint pushKeys (all rest : list value) (operatorIndex : nat) (keys : list Key)
  : result (list Key) :=
  match rest with
  | [] => Ok keys
  | o :: rest =>
      match operatorKeys all o operatorIndex with
      | Err e => Err e
      | Ok pushed => pushKeys all rest (S operatorIndex) (keys ++ pushed)
      end
  end.

Definition getKeys (this : FileSourceService) : result (list Key) :=
  match get (data this) "operators" with
  | VNull => Ok []
  | VSeq operators => pushKeys operators operators 0 []
  | _ => Err (TypeError "this.data?.operators?.map is not a function")
  end.

(** [getIndexedKeys], as its users look it up: by a string.  An entry
    whose key is not a string is in the [Map] but no such lookup finds
    it; it is left out here. *)
Definition getIndexedKeys (this : FileSourceService) : result (gmap string Key) :=
  match getKeys this with
  | Err e => Err e
  | Ok allKeys =>
      Ok (foldl (λ indexedKeys k,
                   match key k with
                   | VString x => <[x := k]> indexedKeys
                   | _ => indexedKeys
                   end) ∅ allKeys)
  end.

Definition sourceTimestamp (this : FileSourceService) : option Z :=
  lastSuccessDataReadTimestamp this.

Fixpoint pushOperators (rest : list value) (index : nat) (operators : list Operator)
  : result (list Operator) :=
  match rest with
  | [] => Ok operators
  | o :: rest =>
      match member o "name" with
      | Err e => Err e
      | Ok name => pushOperators rest (S index) (operators ++ [mkRegistryOperator index name])
      end
  end.

Definition getOperators (this : FileSourceService) : result (list Operator) :=
  match get (data this) "operators" with
  | VNull => Ok []
  | VSeq operators => pushOperators operators 0 []
  | _ => Err (TypeError "this.data?.operators?.map is not a function")
  end.

(** Successive updates, each with what the file gave and the time. *)
Definition updates (inputs : list (result value * Z)) (this : FileSourceService)
  : FileSourceService :=
  foldl (λ s '(fileContent, now), (update fileContent now s).2) this inputs.

(** An operator [isValid] is satisfied with: a name that counts as true
    and keys whose length does. *)
Definition wellFormed (o : value) : bool :=
  truthy (get o "name") && truthy (get (get o "keys") "length").

(** An operator the log line of [update] can be written for. *)
Definition loggable (o : value) : bool :=
  negb (isNull o) && converts (get o "name")
  && negb (isNull (get o "keys")) && converts (get (get o "keys") "length").

Lemma isNull_spec v : isNull v = true ↔ v = VNull.
Proof. by destruct v. Qed.

Lemma existsb_isNull os : existsb isNull os = true ↔ VNull ∈ os.
Proof.
  rewrite existsb_exists. split.
  - intros (v & Hin & ->%isNull_spec). by apply list_elem_of_In.
  - intros Hin. exists VNull. by rewrite <- list_elem_of_In.
Qed.

Lemma validOperator_spec o :
  validOperator o
  = if isNull o then Err (TypeError "Cannot read properties of undefined")
    else Ok (wellFormed o).
Proof.
  unfold validOperator, wellFormed. destruct o; simpl; try done;
    match goal with |- context [if ?b then _ else _] => by destruct b end.
Qed.

Lemma validate_spec os :
  ∀ valid,
    validate os valid
    = if existsb isNull os then Err (TypeError "Cannot read properties of undefined")
      else Ok (default valid (wellFormed <$> last os)).
Proof.
  induction os as [| o os IH]; intros valid; [done |].
  cbn [validate existsb]. rewrite validOperator_spec.
  destruct (isNull o); [done |]. rewrite IH. simpl.
  destruct (existsb isNull os); [done |].
  destruct os as [| o' os']; [done |].
  change (last (o :: o' :: os')) with (last (o' :: os')).
  destruct (last (o' :: os')) eqn:Hlast; [done |]. by apply last_None in Hlast.
Qed.

(** X23. [isValid] looks at the last operator only, if it gets there.
    It answers [true] exactly when [operators] is a sequence without a
    [null] entry whose last entry has a name that counts as true and keys
    whose length does (a non-empty sequence, but also a non-empty string),
    whatever the entries before it are; it throws when [operators] is
    something other than a sequence or has a [null] entry; it answers
    [false] otherwise. *)
Theorem isValid_last_operator (data : value) :
  (isValid data = Ok true ↔
     ∃ os o, get data "operators" = VSeq (os ++ [o])
           ∧ (VNull ∉ os) ∧ wellFormed o = true)
  ∧ ((∃ e, isValid data = Err e) ↔
       (∃ os, get data "operators" = VSeq os ∧ VNull ∈ os)
       ∨ (get data "operators" ≠ VNull ∧ ∀ os, get data "operators" ≠ VSeq os))
  ∧ (isValid data = Ok false ↔
       get data "operators" = VNull
       ∨ get data "operators" = VSeq []
       ∨ ∃ os o, get data "operators" = VSeq (os ++ [o])
               ∧ (VNull ∉ os ++ [o]) ∧ wellFormed o = false).
Proof.
  assert (Hother : ∀ v e,
            v ≠ VNull → (∀ os, v ≠ VSeq os) →
            (Err e = Ok true ↔
               ∃ os o, v = VSeq (os ++ [o]) ∧ (VNull ∉ os) ∧ wellFormed o = true)
            ∧ ((∃ e', @Err bool e = Err e') ↔
                 (∃ os, v = VSeq os ∧ VNull ∈ os) ∨ (v ≠ VNull ∧ ∀ os, v ≠ VSeq os))
            ∧ (Err e = Ok false ↔
                 v = VNull ∨ v = VSeq []
                 ∨ ∃ os o, v = VSeq (os ++ [o]) ∧ (VNull ∉ os ++ [o]) ∧ wellFormed o = false)).
  { intros v e Hnn Hns. split; [| split].
    - split; [done |]. intros (os & o & Heq & _). by destruct (Hns (os ++ [o])).
    - split; [intros _; right; by split | by eexists].
    - split; [done |]. intros [Heq | [Heq | (os & o & Heq & _)]]; [done | |].
      + by destruct (Hns []).
      + by destruct (Hns (os ++ [o])). }
  unfold isValid.
  destruct (get data "operators") as [| b | n | s | os | props | m a] eqn:Hops;
    try (by apply Hother).
  - split; [| split].
    + split; [done |]. by intros (os & o & Heq & _).
    + split; [by intros [e He] |]. intros [(os & Heq & _) | [Hnn _]]; done.
    + split; [by left | done].
  - rewrite validate_spec. destruct (existsb isNull os) eqn:Hnull.
    + apply existsb_isNull in Hnull. split; [| split].
      * split; [done |]. intros (pre & o & [= ->] & Hpre & Hwf).
        apply elem_of_app in Hnull as [Hin | Hin%list_elem_of_singleton]; [done |].
        subst o. discriminate Hwf.
      * split; [intros _; left; by exists os | by eexists].
      * split; [done |]. intros [Heq | [[= ->] | (pre & o & [= ->] & Hnn & _)]]; try done.
        by apply elem_of_nil in Hnull.
    + assert (Hnn : VNull ∉ os).
      { intros Hin%existsb_isNull. congruence. }
      clear Hnull. destruct os as [| o0 os0 _] using rev_ind.
      * simpl. split; [| split].
        -- split; [done |]. intros (pre & o & [= Heq] & _). by destruct pre.
        -- split; [by intros [e He] |].
           intros [(os' & [= <-] & Hin%elem_of_nil) | [_ Hseq]]; [done |].
           by destruct (Hseq []).
        -- split; [intros _; right; by left | done].
      * rewrite last_snoc. simpl. split; [| split].
        -- split.
           ++ intros [= Hwf]. exists os0, o0. split; [done |]. split; [| done].
              intros Hin. apply Hnn. apply elem_of_app. by left.
           ++ intros (pre & o & [= Heq] & _ & Hwf).
              apply app_inj_tail in Heq as [_ ->]. by rewrite Hwf.
        -- split; [by intros [e He] |].
           intros [(os' & [= <-] & Hin) | [_ Hseq]]; [done |].
           by destruct (Hseq (os0 ++ [o0])).
        -- split.
           ++ intros [= Hwf]. right. right. by exists os0, o0.
           ++ intros [Heq | [[= Heq] | (pre & o & [= Heq] & _ & Hwf)]];
                [done | by destruct os0 |].
              apply app_inj_tail in Heq as [_ ->]. by rewrite Hwf.
Qed.

Lemma member_spec v key :
  member v key
  = if isNull v then Err (TypeError "Cannot read properties of undefined")
    else Ok (get v key).
Proof. by destruct v. Qed.

Lemma logOperator_spec o :
  (∃ u, logOperator o = Ok u) ↔ loggable o = true.
Proof.
  unfold logOperator, loggable. rewrite !member_spec.
  destruct (isNull o); [split; [by intros [? ?] | done] |].
  destruct (converts (get o "name")); [| split; [by intros [? ?] | done]].
  destruct (isNull (get o "keys")); [split; [by intros [? ?] | done] |].
  cbn [negb andb].
  destruct (converts (get (get o "keys") "length")).
  - split; [done | by eexists].
  - split; [by intros [? ?] | done].
Qed.

Lemma logOperators_spec os :
  (∃ u, logOperators os = Ok u) ↔ Forall (λ o, loggable o = true) os.
Proof.
  induction os as [| o os IH]; simpl.
  - split; [done | by eexists].
  - split.
    + intros Hok. destruct (logOperator o) as [[] |] eqn:Ho; [| by destruct Hok].
      constructor; [apply logOperator_spec; by eexists | by apply IH].
    + intros [[[] Ho]%logOperator_spec Hos%IH]%Forall_cons. by rewrite Ho.
Qed.

(** X24. [update] resolves exactly when [isValid] answers [true] and,
    beyond that, the line it logs can be written for every operator:
    each has keys that are not missing (the line reads their length) and
    a name and a length that convert to a string.  It then stores the
    data as loaded, with the time; it does not ask that the keys be a
    sequence.  When it rejects, the service is as before: the data and
    the timestamp of the last successful update stay. *)
Theorem update_stores_or_keeps (fileContent : result value) (now : Z)
    (this : FileSourceService) :
  match update fileContent now this with
  | (Ok _, this') =>
      ∃ data os,
        fileContent = Ok data
        ∧ isValid data = Ok true
        ∧ get data "operators" = VSeq os
        ∧ Forall (λ o, loggable o = true) os
        ∧ this' = {| data := data; lastSuccessDataReadTimestamp := Some now |}
  | (Err e, this') =>
      this' = this
      ∧ ∀ data os,
          fileContent = Ok data → isValid data = Ok true →
          get data "operators" = VSeq os →
          ¬ Forall (λ o, loggable o = true) os
  end.
Proof.
  unfold update. destruct fileContent as [data0 | e]; [| split; [done | by intros]].
  destruct (isValid data0) as [[] | e] eqn:Hvalid.
  - assert (Hseq : ∃ os, get data0 "operators" = VSeq os).
    { revert Hvalid. unfold isValid. destruct (get data0 "operators"); try done. by eexists. }
    destruct Hseq as [os Hops].
    assert (Hline : logLine data0 = logOperators os).
    { unfold logLine, member. destruct data0; simpl in *; try done; by rewrite Hops. }
    rewrite Hline. destruct (logOperators os) as [[] | e] eqn:Hlog.
    + exists data0, os. repeat split; try done. apply logOperators_spec. by eexists.
    + split; [done |]. intros data os' [= <-] _ Hops' Hall. rewrite Hops in Hops'.
      injection Hops' as <-. apply logOperators_spec in Hall as [u Hu]. congruence.
  - split; [done |]. intros data os [= <-] Hv. congruence.
  - split; [done |]. intros data os [= <-] Hv. congruence.
Qed.

Lemma isValid_true data :
  isValid data = Ok true →
  ∃ os o, get data "operators" = VSeq (os ++ [o]) ∧ wellFormed o = true.
Proof.
  unfold isValid. destruct (get data "operators") as [| | | | os | |]; try done.
  rewrite validate_spec. destruct (existsb isNull os); [done |].
  destruct os as [| o os _] using rev_ind; [done |].
  rewrite last_snoc. simpl. intros [= Hwf]. by exists os, o.
Qed.

Lemma logLine_sequence data os :
  get data "operators" = VSeq os → logLine data = logOperators os.
Proof.
  intros Hops. unfold logLine. rewrite member_spec.
  destruct (isNull data) eqn:Hnull; [| by rewrite Hops].
  apply isNull_spec in Hnull. by subst data.
Qed.

Lemma loggable_not_null o : loggable o = true → isNull o = false.
Proof. unfold loggable. by destruct (isNull o). Qed.

(** The keys of an operator, if they are a sequence. *)
Definition keyList (o : value) : option (list value) :=
  match get o "keys" with
  | VSeq ks => Some ks
  | _ => None
  end.

Lemma operatorKeys_spec all o operatorIndex :
  match keyList o with
  | Some ks =>
      operatorKeys all o operatorIndex
      = Ok (imap (λ index key,
                    mkKey index operatorIndex key
                          (get (default VNull (all !! operatorIndex)) "name")) ks)
  | None => ∃ e, operatorKeys all o operatorIndex = Err e
  end.
Proof.
  unfold operatorKeys, keyList. rewrite member_spec.
  destruct (isNull o) eqn:Hnull.
  - apply isNull_spec in Hnull. subst o. simpl. by eexists.
  - destruct (get o "keys"); try done; by eexists.
Qed.

Lemma pushKeys_resolves all rest :
  ∀ operatorIndex acc,
    (∃ keys, pushKeys all rest operatorIndex acc = Ok keys)
    ↔ Forall (λ o, is_Some (keyList o)) rest.
Proof.
  induction rest as [| o rest IH]; intros operatorIndex acc; simpl.
  - split; [done | by eexists].
  - pose proof (operatorKeys_spec all o operatorIndex) as Ho.
    destruct (keyList o) as [ks |] eqn:Hks.
    + rewrite Ho, IH. split; [intros Hrest; constructor; [by rewrite Hks | done] |].
      by intros [_ Hrest]%Forall_cons.
    + destruct Ho as [e ->]. split; [by intros [? ?] |].
      intros [[ks Hsome] _]%Forall_cons. by rewrite Hks in Hsome.
Qed.

Lemma pushKeys_length all rest :
  ∀ operatorIndex acc keys,
    pushKeys all rest operatorIndex acc = Ok keys →
    length keys
    = (length acc + sum_list ((λ o, length (default [] (keyList o))) <$> rest))%nat.
Proof.
  induction rest as [| o rest IH]; intros operatorIndex acc keys.
  - intros [= <-]. simpl. lia.
  - rewrite fmap_cons. cbn [pushKeys sum_list].
    pose proof (operatorKeys_spec all o operatorIndex) as Ho.
    destruct (keyList o) as [ks |] eqn:Hks.
    + rewrite Ho. intros Hpush%IH. rewrite Hpush, length_app, length_imap.
      unfold default, from_option, id. cbn beta iota. lia.
    + by destruct Ho as [e ->].
Qed.

Lemma pushOperators_spec rest :
  ∀ index acc,
    Forall (λ o, isNull o = false) rest →
    pushOperators rest index acc
    = Ok (acc ++ imap (λ i o, mkRegistryOperator (index + i) (get o "name")) rest).
Proof.
  induction rest as [| o rest IH]; intros index acc Hall; simpl.
  - by rewrite app_nil_r.
  - apply Forall_cons in Hall as [Ho Hall]. rewrite member_spec, Ho, IH by done.
    rewrite <- app_assoc. simpl. rewrite Nat.add_0_r. do 3 f_equal.
    apply imap_ext. intros i o' _. simpl. f_equal. lia.
Qed.

(** What holds of the service after any updates: without a timestamp it
    has no data; with one, its data passed [isValid] and the log line. *)
Definition served (this : FileSourceService) : Prop :=
  match sourceTimestamp this with
  | None => data this = VNull
  | Some _ =>
      ∃ os o, get (data this) "operators" = VSeq (os ++ [o])
            ∧ wellFormed o = true
            ∧ Forall (λ o, loggable o = true) (os ++ [o])
  end.

Lemma update_served fileContent now this :
  served this →
  served (update fileContent now this).2
  ∧ ((update fileContent now this).2 = this
     ∨ (sourceTimestamp (update fileContent now this).2 = Some now
        ∧ fileContent = Ok (data (update fileContent now this).2))).
Proof.
  intros Hserved. unfold update.
  destruct fileContent as [data0 | e]; [| split; [done | by left]].
  destruct (isValid data0) as [[] | e] eqn:Hvalid; try (split; [done | by left]).
  destruct (isValid_true _ Hvalid) as (os & o & Hops & Hwf).
  rewrite (logLine_sequence _ _ Hops).
  destruct (logOperators (os ++ [o])) as [[] | e] eqn:Hlog; [| split; [done | by left]].
  split; [| by right]. unfold served. simpl. exists os, o.
  split; [done |]. split; [done |]. apply logOperators_spec. by eexists.
Qed.

Lemma updates_served inputs :
  served (updates inputs new)
  ∧ ∀ now, sourceTimestamp (updates inputs new) = Some now →
      (Ok (data (updates inputs new)), now) ∈ inputs.
Proof.
  induction inputs as [| [fileContent now] inputs [IHs IHt]] using rev_ind.
  - split; [done | by intros].
  - unfold updates in *. rewrite foldl_snoc.
    destruct (update_served fileContent now _ IHs) as [Hserved [Hsame | [Hnew Hfile]]].
    + split; [done |]. rewrite Hsame. intros t Ht. apply elem_of_app. left. by apply IHt.
    + split; [done |]. intros t Ht. assert (t = now) as -> by congruence.
      apply elem_of_app. right. apply list_elem_of_singleton. by rewrite <- Hfile.
Qed.

(** X27. Whatever the files were, after any number of updates on a new
    service [getOperators] resolves, and [getIndexedKeys] rejects exactly
    when [getKeys] does.  While no update has succeeded there are no
    operators, no keys and no timestamp.  Once one has, the timestamp and
    the data are those of one of the updates, the operators are never
    empty again, and [getKeys] resolves exactly when the keys of every
    operator of the stored file are a sequence, which [update] does not
    ask; when it resolves there is at least one key. *)
Theorem registry_served (inputs : list (result value * Z)) :
  ∃ operators,
    getOperators (updates inputs new) = Ok operators
    ∧ (∀ e, getIndexedKeys (updates inputs new) = Err e
            ↔ getKeys (updates inputs new) = Err e)
    ∧ match sourceTimestamp (updates inputs new) with
      | None => operators = [] ∧ getKeys (updates inputs new) = Ok []
      | Some now =>
          operators ≠ []
          ∧ (Ok (data (updates inputs new)), now) ∈ inputs
          ∧ ∃ os,
              get (data (updates inputs new)) "operators" = VSeq os
              ∧ ((∃ allKeys, getKeys (updates inputs new) = Ok allKeys)
                 ↔ Forall (λ o, is_Some (keyList o)) os)
              ∧ ∀ allKeys, getKeys (updates inputs new) = Ok allKeys → allKeys ≠ []
      end.
Proof.
  destruct (updates_served inputs) as [Hserved Hstamp].
  assert (Hindexed : ∀ e, getIndexedKeys (updates inputs new) = Err e
                          ↔ getKeys (updates inputs new) = Err e).
  { intros e. unfold getIndexedKeys.
    destruct (getKeys (updates inputs new)); [by split | split; by intros [= ->]]. }
  unfold served in Hserved. unfold getOperators, getKeys in *.
  destruct (sourceTimestamp (updates inputs new)) as [now |] eqn:Hnow.
  - destruct Hserved as (os & o & Hops & Hwf & Hlog). rewrite Hops in *.
    rewrite pushOperators_spec
      by (eapply Forall_impl; [exact Hlog | apply loggable_not_null]).
    eexists. split; [done |]. split; [done |]. split; [| split; [by apply Hstamp |]].
    + intros Hnil%(f_equal length). simpl in Hnil.
      rewrite length_imap, length_app in Hnil. simpl in Hnil. lia.
    + exists (os ++ [o]). split; [done |]. split; [apply pushKeys_resolves |].
      intros allKeys Hkeys.
      assert (Hall : Forall (λ o, is_Some (keyList o)) (os ++ [o])).
      { apply (pushKeys_resolves (os ++ [o]) (os ++ [o]) 0%nat []). by eexists. }
      apply Forall_app in Hall as [_ [[ks Hks] _]%Forall_cons].
      apply pushKeys_length in Hkeys. rewrite fmap_app, sum_list_with_app in Hkeys.
      simpl in Hkeys. rewrite Hks in Hkeys. simpl in Hkeys.
      assert (Hne : ks ≠ []).
      { intros ->. revert Hwf Hks. unfold wellFormed, keyList.
        destruct (get o "keys"); try done. intros Hwf [= ->]. simpl in Hwf.
        by rewrite andb_false_r in Hwf. }
      intros ->. destruct ks; [done |]. simpl in Hkeys. lia.
  - rewrite Hserved in *. simpl. by exists [].
Qed.

(** A file as the declared type has it, with a missing field, which is
    the same to this code as a [null] one, as [VNull]. *)
Definition ofName (name : option string) : value := from_option VString VNull name.

Definition ofOperator (o : FileOperator) : value :=
  VMap [("name", ofName (FileSource.name o));
        ("keys", from_option (λ ks, VSeq (VString <$> ks)) VNull (FileSource.keys o))].

Definition ofContent (d : FileContent) : value :=
  VMap [("operators",
         from_option (λ os, VSeq (ofOperator <$> os)) VNull (FileSource.operators d))].

Definition ofService (this : FileSource.FileSourceService) : FileSourceService :=
  {| data := from_option ofContent VNull (FileSource.data this);
     lastSuccessDataReadTimestamp := FileSource.lastSuccessDataReadTimestamp this |}.

Definition ofKey (k : FileSource.Key) : Key :=
  {| index := FileSource.index k;
     operatorIndex := FileSource.operatorIndex k;
     key := VString (FileSource.key k);
     operatorName := ofName (FileSource.operatorName k) |}.

Definition ofRegistryOperator (o : FileSource.Operator) : Operator :=
  {| op_index := FileSource.op_index o; op_name := ofName (FileSource.op_name o) |}.

Definition mapResult {A B} (f : A → B) (r : result A) : result B :=
  match r with
  | Ok a => Ok (f a)
  | Err e => Err e
  end.

Lemma typed_pushKeys all rest :
  ∀ operatorIndex acc,
    pushKeys (ofOperator <$> all) (ofOperator <$> rest) operatorIndex (ofKey <$> acc)
    = mapResult (fmap ofKey) (FileSource.pushKeys all rest operatorIndex acc).
Proof.
  induction rest as [| o rest IH]; intros operatorIndex acc; [done |].
  rewrite fmap_cons. cbn [pushKeys FileSource.pushKeys].
  destruct o as [n [ks |]]; [| done]. simpl. rewrite <- IH. f_equal.
  rewrite fmap_app. f_equal. rewrite imap_fmap, fmap_imap. apply imap_ext.
  intros i k _. unfold ofKey. simpl. f_equal. rewrite list_lookup_fmap.
  by destruct (all !! operatorIndex) as [[] |].
Qed.

(** On a file of the declared type the reads agree with those above. *)
Lemma typed_getKeys this :
  getKeys (ofService this) = mapResult (fmap ofKey) (FileSource.getKeys this).
Proof.
  unfold getKeys, FileSource.getKeys. destruct this as [[[[os |]] |] stamp]; try done.
  simpl. apply (typed_pushKeys os os 0%nat []).
Qed.

Lemma typed_getOperators this :
  getOperators (ofService this)
  = Ok (ofRegistryOperator <$> FileSource.getOperators this).
Proof.
  unfold getOperators, FileSource.getOperators.
  destruct this as [[[[os |]] |] stamp]; try done. simpl.
  rewrite pushOperators_spec by (apply Forall_fmap, Forall_true; done).
  simpl. f_equal. rewrite imap_fmap, fmap_imap. by apply imap_ext.
Qed.

Lemma typed_getIndexedKeys this :
  getIndexedKeys (ofService this)
  = mapResult (fmap ofKey) (FileSource.getIndexedKeys this).
Proof.
  unfold getIndexedKeys, FileSource.getIndexedKeys. rewrite typed_getKeys.
  destruct (FileSource.getKeys this) as [allKeys | e]; [| done]. cbn [mapResult]. f_equal.
  induction allKeys as [| k allKeys IH] using rev_ind; [simpl; by rewrite fmap_empty |].
  rewrite fmap_app, !foldl_app, IH. simpl. by rewrite fmap_insert.
Qed.

(** A file whose one operator gives its keys as a string, one with a
    [null] entry before a good operator, one whose [operators] are a
    string, and one whose first operator has no keys. *)
Definition goodOperator : value :=
  VMap [("name", VString "Operator B"); ("keys", VSeq [VString "0xb1"])].

Definition stringKeys : value :=
  VMap [("operators", VSeq [VMap [("name", VString "Operator A");
                                  ("keys", VString "0xa1")]])].

Definition nullEntry : value := VMap [("operators", VSeq [VNull; goodOperator])].

Definition stringOperators : value := VMap [("operators", VString "Operator A")].

Definition firstWithoutKeys : value :=
  VMap [("operators", VSeq [VMap [("name", VString "Operator A")]; goodOperator])].

Definition goodFile : value := VMap [("operators", VSeq [goodOperator])].

Lemma isValid_last_operator_witness :
  (isValid stringKeys = Ok true ↔
     ∃ os o, get stringKeys "operators" = VSeq (os ++ [o])
           ∧ (VNull ∉ os) ∧ wellFormed o = true)
  ∧ ((∃ e, isValid nullEntry = Err e) ↔
       (∃ os, get nullEntry "operators" = VSeq os ∧ VNull ∈ os)
       ∨ (get nullEntry "operators" ≠ VNull ∧ ∀ os, get nullEntry "operators" ≠ VSeq os))
  ∧ (isValid (VString "operators") = Ok false ↔
       get (VString "operators") "operators" = VNull
       ∨ get (VString "operators") "operators" = VSeq []
       ∨ ∃ os o, get (VString "operators") "operators" = VSeq (os ++ [o])
               ∧ (VNull ∉ os ++ [o]) ∧ wellFormed o = false).
Proof.
  split; [apply (isValid_last_operator stringKeys) |].
  split; [apply (isValid_last_operator nullEntry) |].
  apply (isValid_last_operator (VString "operators")).
Defined.

(** Keys given as a string pass [isValid] and [update]; [getKeys] then
    rejects, while [getOperators] resolves. *)
Example string_keys_stored_then_getKeys_rejects :
  isValid stringKeys = Ok true
  ∧ update (Ok stringKeys) 1700000000000 new
    = (Ok tt, mkService stringKeys (Some 1700000000000))
  ∧ getKeys (mkService stringKeys (Some 1700000000000))
    = Err (TypeError "o.keys?.map is not a function")
  ∧ getOperators (mkService stringKeys (Some 1700000000000))
    = Ok [mkRegistryOperator 0 (VString "Operator A")].
Proof. repeat split. Qed.

(** A [null] entry and [operators] that are not a sequence make
    [isValid] throw, and so [update] reject, with a [TypeError]. *)
Example isValid_throws :
  isValid nullEntry = Err (TypeError "Cannot read properties of undefined")
  ∧ isValid stringOperators = Err (TypeError "data?.operators?.map is not a function")
  ∧ update (Ok nullEntry) 1700000000000 new
    = (Err (TypeError "Cannot read properties of undefined"), new).
Proof. repeat split. Qed.

(** A first operator without keys passes [isValid], which the last
    operator decides, and the log line throws: the service keeps what it
    had. *)
Example update_rejects_missing_keys :
  isValid firstWithoutKeys = Ok true
  ∧ update (Ok firstWithoutKeys) 1700000360000 (mkService goodFile (Some 1700000000000))
    = (Err (TypeError "Cannot read properties of undefined"),
       mkService goodFile (Some 1700000000000)).
Proof. repeat split. Qed.

Lemma update_stores_or_keeps_witness :
  match update (Ok stringKeys) 1700000000000 new with
  | (Ok _, this') =>
      ∃ data os,
        Ok stringKeys = Ok data
        ∧ isValid data = Ok true
        ∧ get data "operators" = VSeq os
        ∧ Forall (λ o, loggable o = true) os
        ∧ this' = {| data := data; lastSuccessDataReadTimestamp := Some 1700000000000 |}
  | (Err e, this') =>
      this' = new
      ∧ ∀ data os,
          Ok stringKeys = Ok data → isValid data = Ok true →
          get data "operators" = VSeq os →
          ¬ Forall (λ o, loggable o = true) os
  end.
Proof. apply (update_stores_or_keeps (Ok stringKeys) 1700000000000 new). Defined.

(** Three updates: a good file, a failure to read, and a file with keys
    given as a string. *)
Definition threeUpdates : list (result value * Z) :=
  [(Ok goodFile, 1700000000000);
   (Err (ReadError "ENOENT"), 1700000360000);
   (Ok stringKeys, 1700000720000)].

Lemma registry_served_witness :
  ∃ operators,
    getOperators (updates threeUpdates new) = Ok operators
    ∧ (∀ e, getIndexedKeys (updates threeUpdates new) = Err e
            ↔ getKeys (updates threeUpdates new) = Err e)
    ∧ match sourceTimestamp (updates threeUpdates new) with
      | None => operators = [] ∧ getKeys (updates threeUpdates new) = Ok []
      | Some now =>
          operators ≠ []
          ∧ (Ok (data (updates threeUpdates new)), now) ∈ threeUpdates
          ∧ ∃ os,
              get (data (updates threeUpdates new)) "operators" = VSeq os
              ∧ ((∃ allKeys, getKeys (updates threeUpdates new) = Ok allKeys)
                 ↔ Forall (λ o, is_Some (keyList o)) os)
              ∧ ∀ allKeys, getKeys (updates threeUpdates new) = Ok allKeys → allKeys ≠ []
      end.
Proof. apply (registry_served threeUpdates). Defined.

(** After these updates the service holds the last file: the operators
    are served and the keys are not. *)
Example last_file_served :
  updates threeUpdates new = mkService stringKeys (Some 1700000720000)
  ∧ getOperators (updates threeUpdates new) = Ok [mkRegistryOperator 0 (VString "Operator A")]
  ∧ getKeys (updates threeUpdates new) = Err (TypeError "o.keys?.map is not a function")
  ∧ getKeys (updates (take 2 threeUpdates) new)
    = Ok [mkKey 0 0 (VString "0xb1") (VString "Operator B")].
Proof. repeat split. Qed.

End Runtime.

End FileSource.

(* ===================================================================== *)
(** * Storage: what [ClickhouseService] writes                            *)
(* ===================================================================== *)

Module Storage.

Import AlertEngine (outcome, Resolved, Rejected).

(** [StateValidatorResponse], as far as the service reads it. *)
Record StateValidatorResponse := mkValidator {
  index : string;
  balance : string;
  status : string;
  validator_pubkey : string;
  validator_slashed : bool
}.

(** [ValidatorsStatusStats] *)
Record ValidatorsStatusStats := mkStats {
  active_ongoing : nat;
  pending : nat;
  slashed : nat
}.

(** A row of [stats.validator_balances]; [nos_id] is [NULL] when [None]. *)
Record BalanceRow := mkBalanceRow {
  row_validator_id : string;
  row_validator_pubkey : string;
  row_validator_slashed : bool;
  row_status : string;
  row_balance : string;
  row_slot : Z;
  row_slot_time : Z;
  row_nos_id : option nat;
  row_nos_name : string
}.

(** The caller's [balances] array, the inserts executed, and the counts
    the logger was given. *)
Record World := mkWorld {
  balances : list StateValidatorResponse;
  inserts : list (list BalanceRow);
  logged : list nat
}.

Section WriteBalances.
(** The members of the [ValStatus] enumeration the predicates name, and
    [this.chunkSize]. *)
Variables ActiveOngoing PendingQueued PendingInitialized ActiveSlashed ExitedSlashed : string.
Variable chunkSize : nat.

(** [this.retry(async () => await ws.exec())] for a stream holding the
    given rows, after the inserts already executed: the reason it rejects
    with, if it does. *)
Variable exec : list (list BalanceRow) → list BalanceRow → option string.

Variable keysIndexed : gmap string FileSource.Key.
Variables slot slotTime : Z.

(** [status.isActive], [status.isPending], [status.isSlashed] *)
Definition isActive (val : StateValidatorResponse) : bool :=
  String.eqb (status val) ActiveOngoing.

Definition isPending (val : StateValidatorResponse) : bool :=
  existsb (String.eqb (status val)) [PendingQueued; PendingInitialized].

Definition isSlashed (val : StateValidatorResponse) : bool :=
  existsb (String.eqb (status val)) [ActiveSlashed; ExitedSlashed] || validator_slashed val.

(** [keysIndexed.get(pubkey)?.operatorIndex ?? 'NULL'] and
    [keysIndexed.get(pubkey)?.operatorName || 'NULL'] *)
Definition nosId (pubkey : string) : option nat :=
  FileSource.operatorIndex <$> keysIndexed !! pubkey.

Definition nosName (pubkey : string) : string :=
  match keysIndexed !! pubkey ≫= FileSource.operatorName with
  | Some n => if String.eqb n "" then "NULL" else n
  | None => "NULL"
  end.

Definition writeRow (b : StateValidatorResponse) : BalanceRow :=
  {| row_validator_id := index b;
     row_validator_pubkey := validator_pubkey b;
     row_validator_slashed := validator_slashed b;
     row_status := status b;
     row_balance := balance b;
     row_slot := slot;
     row_slot_time := slotTime;
     row_nos_id := nosId (validator_pubkey b);
     row_nos_name := nosName (validator_pubkey b) |}.

(** [keysIndexed.has(b.validator.pubkey)] *)
Definition has (b : StateValidatorResponse) : bool :=
  bool_decide (is_Some (keysIndexed !! validator_pubkey b)).

(** The [else] branch of the loop body. *)
Definition countOther (b : StateValidatorResponse) (otherCounts : ValidatorsStatusStats)
  : ValidatorsStatusStats :=
  if isActive b then
    mkStats (S (active_ongoing otherCounts)) (pending otherCounts) (slashed otherCounts)
  else if isPending b then
    mkStats (active_ongoing otherCounts) (S (pending otherCounts)) (slashed otherCounts)
  else if isSlashed b then
    mkStats (active_ongoing otherCounts) (pending otherCounts) (S (slashed otherCounts))
  else otherCounts.

(** [for (const b of chunk)]: the rows written to the stream [ws], and the
    two counters. *)
Fixpoint forChunk (chunk : list StateValidatorResponse) (ws : list BalanceRow)
    (otherCounts : ValidatorsStatusStats) (userCount : nat)
  : list BalanceRow * ValidatorsStatusStats * nat :=
  match chunk with
  | [] => (ws, otherCounts, userCount)
  | b :: rest =>
      if has b then forChunk rest (ws ++ [writeRow b]) otherCounts (S userCount)
      else forChunk rest ws (countOther b otherCounts) userCount
  end.

(** [while (balances.length > 0)]: [splice] takes the chunk out of the
    caller's array.  [None] is the loop that has not ended within the
    fuel, as it never does with [chunkSize = 0]. *)
Fixpoint whileBalances (fuel : nat) (otherCounts : ValidatorsStatusStats) (userCount : nat)
    (w : World) : outcome (option ValidatorsStatusStats) * World :=
  match balances w with
  | [] => (Resolved (Some otherCounts), mkWorld [] (inserts w) (logged w ++ [userCount]))
  | _ =>
      match fuel with
      | O => (Resolved None, w)
      | S fuel' =>
          let chunk := take chunkSize (balances w) in
          let rest := drop chunkSize (balances w) in
          let '(ws, otherCounts, userCount) := forChunk chunk [] otherCounts userCount in
          match exec (inserts w) ws with
          | Some e => (Rejected e, mkWorld rest (inserts w) (logged w))
          | None =>
              whileBalances fuel' otherCounts userCount
                (mkWorld rest (inserts w ++ [ws]) (logged w))
          end
      end
  end.

(** [writeBalances] *)
Definition writeBalances (fuel : nat) (w : World)
  : outcome (option ValidatorsStatusStats) * World :=
  whileBalances fuel (mkStats 0 0 0) 0 w.

(** The validators that are not the user's, by the first predicate that
    holds. *)
Definition otherActive (b : StateValidatorResponse) : bool := negb (has b) && isActive b.
Definition otherPending (b : StateValidatorResponse) : bool :=
  negb (has b) && negb (isActive b) && isPending b.
Definition otherSlashed (b : StateValidatorResponse) : bool :=
  negb (has b) && negb (isActive b) && negb (isPending b) && isSlashed b.

Definition count (f : StateValidatorResponse → bool) (l : list StateValidatorResponse) : nat :=
  length (List.filter f l).

Lemma forChunk_spec chunk :
  ∀ ws otherCounts userCount,
    forChunk chunk ws otherCounts userCount
    = (ws ++ (writeRow <$> List.filter has chunk),
       mkStats (active_ongoing otherCounts + count otherActive chunk)
               (pending otherCounts + count otherPending chunk)
               (slashed otherCounts + count otherSlashed chunk),
       (userCount + count has chunk)%nat).
Proof.
  unfold count.
  induction chunk as [| b chunk IH]; intros ws [a p s] userCount; simpl.
  - by rewrite app_nil_r, !Nat.add_0_r.
  - unfold otherActive, otherPending, otherSlashed. rewrite IH.
    destruct (has b) eqn:Hhas; simpl.
    + by rewrite <- app_assoc, Nat.add_succ_r.
    + unfold countOther.
      destruct (isActive b); simpl; [by rewrite Nat.add_succ_r |].
      destruct (isPending b); simpl; [by rewrite Nat.add_succ_r |].
      destruct (isSlashed b); simpl; [by rewrite Nat.add_succ_r | done].
Qed.

Lemma count_app f l1 l2 : count f (l1 ++ l2) = (count f l1 + count f l2)%nat.
Proof. unfold count. by rewrite List.filter_app, length_app. Qed.

(** What the loop has done when it stops, however it stops. *)
Lemma whileBalances_spec (fuel : nat) :
  ∀ otherCounts userCount w,
    ∃ chunks : list (list StateValidatorResponse),
      inserts (whileBalances fuel otherCounts userCount w).2
        = inserts w ++ ((λ chunk, writeRow <$> List.filter has chunk) <$> chunks)
      ∧ concat chunks = take (chunkSize * length chunks) (balances w)
      ∧ Forall (λ chunk, (length chunk ≤ chunkSize)%nat) chunks
      ∧ (length chunks ≤ fuel)%nat
      ∧ match (whileBalances fuel otherCounts userCount w).1 with
        | Resolved (Some counts) =>
            concat chunks = balances w
            ∧ balances (whileBalances fuel otherCounts userCount w).2 = []
            ∧ counts = mkStats (active_ongoing otherCounts + count otherActive (balances w))
                               (pending otherCounts + count otherPending (balances w))
                               (slashed otherCounts + count otherSlashed (balances w))
            ∧ logged (whileBalances fuel otherCounts userCount w).2
              = logged w ++ [(userCount + count has (balances w))%nat]
        | Resolved None =>
            length chunks = fuel
            ∧ balances (whileBalances fuel otherCounts userCount w).2
              = drop (chunkSize * fuel) (balances w)
            ∧ balances (whileBalances fuel otherCounts userCount w).2 ≠ []
            ∧ logged (whileBalances fuel otherCounts userCount w).2 = logged w
        | Rejected e =>
            (length chunks < fuel)%nat
            ∧ balances (whileBalances fuel otherCounts userCount w).2
              = drop (chunkSize * S (length chunks)) (balances w)
            ∧ exec (inserts (whileBalances fuel otherCounts userCount w).2)
                   (writeRow <$> List.filter has
                      (take chunkSize (drop (chunkSize * length chunks) (balances w))))
              = Some e
            ∧ logged (whileBalances fuel otherCounts userCount w).2 = logged w
        end.
Proof.
  induction fuel as [| fuel IH]; intros otherCounts userCount w.
  - exists []. simpl. destruct (balances w) as [| b bs] eqn:Hb; simpl.
    + unfold count. simpl. rewrite ?app_nil_r, ?Nat.add_0_r.
      repeat split; try done; try (by rewrite take_nil); by destruct otherCounts.
    + rewrite ?app_nil_r, ?Nat.mul_0_r, ?Hb. simpl. by repeat split.
  - cbn [whileBalances]. destruct (balances w) as [| b bs] eqn:Hb.
    + exists []. unfold count. simpl. rewrite ?app_nil_r, ?Nat.add_0_r.
      repeat split; try done; try lia; try (by rewrite take_nil); by destruct otherCounts.
    + rewrite <- Hb. clear b bs Hb.
      rewrite forChunk_spec. cbn [app].
      set (chunk := take chunkSize (balances w)).
      set (rows := writeRow <$> List.filter has chunk).
      destruct (exec (inserts w) rows) as [e |] eqn:Hexec.
      * exists []. simpl. rewrite app_nil_r, Nat.mul_0_r, Nat.mul_1_r. simpl.
        repeat split; try done; lia.
      * destruct (IH (mkStats (active_ongoing otherCounts + count otherActive chunk)
                              (pending otherCounts + count otherPending chunk)
                              (slashed otherCounts + count otherSlashed chunk))
                     (userCount + count has chunk)%nat
                     (mkWorld (drop chunkSize (balances w)) (inserts w ++ [rows]) (logged w)))
          as (chunks & Hins & Hcat & Hsizes & Hlen & Hres).
        exists (chunk :: chunks). cbn [balances inserts logged] in *.
        assert (Htake : chunk ++ take (chunkSize * length chunks) (drop chunkSize (balances w))
                        = take (chunkSize * S (length chunks)) (balances w)).
        { unfold chunk. replace (chunkSize * S (length chunks))%nat
            with (chunkSize + chunkSize * length chunks)%nat by lia.
          by rewrite take_take_drop. }
        assert (Hdrop : ∀ n, drop (chunkSize * n) (drop chunkSize (balances w))
                             = drop (chunkSize * S n) (balances w)).
        { intros n. rewrite drop_drop. f_equal. lia. }
        split; [rewrite Hins, <- app_assoc; done |].
        split; [cbn [concat length]; by rewrite Hcat |].
        split; [constructor; [unfold chunk; rewrite length_take; lia | done] |].
        split; [simpl; lia |].
        destruct (whileBalances fuel _ _ _) as [[[counts |] | e] w']; cbn [fst snd] in *.
        -- destruct Hres as (Hall & Hempty & -> & Hlog).
           assert (Hsplit : chunk ++ drop chunkSize (balances w) = balances w)
             by apply take_drop.
           assert (Hc : ∀ f, count f (balances w)
                             = (count f chunk + count f (drop chunkSize (balances w)))%nat).
           { intros f. by rewrite <- count_app, Hsplit. }
           split; [cbn [concat]; by rewrite Hall |]. split; [done |].
           rewrite !Hc, !Nat.add_assoc. split; [done |]. by rewrite Hlog.
        -- destruct Hres as (Hfuel & Hrest & Hne & Hlog).
           split; [simpl; lia |]. split; [by rewrite Hrest, Hdrop | by split].
        -- destruct Hres as (Hlt & Hrest & Hfail & Hlog).
           split; [simpl; lia |]. split; [by rewrite Hrest, Hdrop |]. split; [| done].
           cbn [length]. by rewrite <- Hdrop.
Qed.

(** X28. With a positive chunk size and a database that accepts every
    insert, [writeBalances] ends and empties the caller's array.  It has
    then inserted, in the order of the array, one row for each validator
    whose key is in the registry and none for the others, in inserts of at
    most [chunkSize] rows (an insert may be empty); it logs the number of
    those rows; and it returns the numbers of the other validators that
    are active, that are pending without being active, and that are
    slashed without being active or pending.  The counts do not depend on
    the chunk size. *)
Theorem writeBalances_rows_and_counts (w : World) :
  (0 < chunkSize)%nat →
  (∀ db rows, exec db rows = None) →
  ∃ chunks,
    writeBalances (length (balances w)) w
    = (Resolved (Some (mkStats (count otherActive (balances w))
                               (count otherPending (balances w))
                               (count otherSlashed (balances w)))),
       mkWorld [] (inserts w ++ chunks) (logged w ++ [count has (balances w)]))
    ∧ concat chunks = writeRow <$> List.filter has (balances w)
    ∧ Forall (λ rows, (length rows ≤ chunkSize)%nat) chunks
    ∧ (count has (balances w) + count otherActive (balances w)
       + count otherPending (balances w) + count otherSlashed (balances w)
       ≤ length (balances w))%nat.
Proof.
  intros Hsize Hexec. unfold writeBalances.
  destruct (whileBalances_spec (length (balances w)) (mkStats 0 0 0) 0%nat w)
    as (chunks & Hins & Hcat & Hsizes & Hlen & Hres).
  destruct (whileBalances _ _ _ w) as [[[counts |] | e] [bs' ins' log']]; cbn [fst snd] in *.
  - destruct Hres as (Hall & Hempty & -> & Hlog). simpl in *. subst bs' ins' log'.
    exists ((λ chunk, writeRow <$> List.filter has chunk) <$> chunks).
    split; [done |]. split; [| split].
    + rewrite <- Hall. clear. induction chunks as [| c chunks IH]; [done |].
      cbn [fmap list_fmap concat]. rewrite List.filter_app, fmap_app. f_equal. apply IH.
    + apply Forall_fmap. eapply Forall_impl; [exact Hsizes |].
      intros c Hc. simpl in *. rewrite length_fmap.
      pose proof (List.filter_length_le has c). lia.
    + clear. unfold count, otherActive, otherPending, otherSlashed.
      induction (balances w) as [| b bs IH]; simpl; [lia |].
      destruct (has b), (isActive b), (isPending b), (isSlashed b); simpl; lia.
  - destruct Hres as (_ & Hrest & Hne & _). exfalso. apply Hne. rewrite Hrest.
    apply drop_ge. nia.
  - destruct Hres as (_ & _ & Hfail & _). by rewrite Hexec in Hfail.
Qed.

(** X29. When an insert is rejected, [writeBalances] rejects with the
    same reason and returns no counts; the inserts made before stay, with
    the rows of the chunks before the failing one; and the caller's array
    has lost those chunks and the failing one, whose validators are then
    neither inserted nor left in the array. *)
Theorem writeBalances_rejected (fuel : nat) (w : World) (e : string) :
  (writeBalances fuel w).1 = Rejected e →
  ∃ done : nat,
    (done < fuel)%nat
    ∧ length (inserts (writeBalances fuel w).2) = (length (inserts w) + done)%nat
    ∧ concat (drop (length (inserts w)) (inserts (writeBalances fuel w).2))
      = writeRow <$> List.filter has (take (chunkSize * done) (balances w))
    ∧ exec (inserts (writeBalances fuel w).2)
           (writeRow <$> List.filter has
              (take chunkSize (drop (chunkSize * done) (balances w))))
      = Some e
    ∧ balances (writeBalances fuel w).2 = drop (chunkSize * S done) (balances w)
    ∧ logged (writeBalances fuel w).2 = logged w.
Proof.
  unfold writeBalances. intros Hrej.
  destruct (whileBalances_spec fuel (mkStats 0 0 0) 0%nat w)
    as (chunks & Hins & Hcat & Hsizes & Hlen & Hres).
  rewrite Hrej in Hres. destruct Hres as (Hfuel & Hrest & Hfail & Hlog).
  exists (length chunks). rewrite Hins in Hfail |- *.
  rewrite length_app, length_fmap, drop_app_length.
  repeat split; try done.
  rewrite <- Hcat. clear. induction chunks as [| c chunks IH]; [done |].
  cbn [fmap list_fmap concat]. rewrite List.filter_app, fmap_app. f_equal. apply IH.
Qed.

End WriteBalances.

(** *** Three validators, of which the first two are the user's *)

Definition registry : gmap string FileSource.Key :=
  {[ "0xa1" := FileSource.mkKey 0 0 "0xa1" (Some "Operator A");
     "0xa2" := FileSource.mkKey 1 0 "0xa2" (Some "Operator A") ]}.

Definition threeValidators : list StateValidatorResponse :=
  [mkValidator "1" "32000000000" "active_ongoing" "0xa1" false;
   mkValidator "2" "31000000000" "active_ongoing" "0xa2" false;
   mkValidator "3" "32000000000" "pending_queued" "0xc3" false].

(** A database that accepts everything, and one that rejects the second
    insert. *)
Definition accepting : list (list BalanceRow) → list BalanceRow → option string :=
  λ _ _, None.
Definition secondFails : list (list BalanceRow) → list BalanceRow → option string :=
  λ db _, if (length db =? 1)%nat then Some "timeout" else None.

Lemma writeBalances_rows_and_counts_witness :
  ∃ chunks,
    writeBalances "active_ongoing" "pending_queued" "pending_initialized"
      "active_slashed" "exited_slashed" 2 accepting registry 320 1700000000
      (length threeValidators) (mkWorld threeValidators [] [])
    = (Resolved (Some (mkStats
         (count (otherActive "active_ongoing" registry) threeValidators)
         (count (otherPending "active_ongoing" "pending_queued" "pending_initialized" registry)
            threeValidators)
         (count (otherSlashed "active_ongoing" "pending_queued" "pending_initialized"
                   "active_slashed" "exited_slashed" registry) threeValidators))),
       mkWorld [] ([] ++ chunks) ([] ++ [count (has registry) threeValidators]))
    ∧ concat chunks
      = writeRow registry 320 1700000000 <$> List.filter (has registry) threeValidators
    ∧ Forall (λ rows, (length rows ≤ 2)%nat) chunks
    ∧ (count (has registry) threeValidators
       + count (otherActive "active_ongoing" registry) threeValidators
       + count (otherPending "active_ongoing" "pending_queued" "pending_initialized" registry)
           threeValidators
       + count (otherSlashed "active_ongoing" "pending_queued" "pending_initialized"
                  "active_slashed" "exited_slashed" registry) threeValidators
       ≤ length threeValidators)%nat.
Proof.
  apply (writeBalances_rows_and_counts "active_ongoing" "pending_queued" "pending_initialized"
           "active_slashed" "exited_slashed" 2 accepting registry 320 1700000000
           (mkWorld threeValidators [] [])).
  - lia.
  - reflexivity.
Defined.

Lemma writeBalances_rejected_witness :
  ∃ done : nat,
    (done < 3)%nat
    ∧ length (inserts (writeBalances "active_ongoing" "pending_queued" "pending_initialized"
                         "active_slashed" "exited_slashed" 1 secondFails registry 320 1700000000
                         3 (mkWorld threeValidators [] [])).2)
      = (length ([] : list (list BalanceRow)) + done)%nat
    ∧ concat (drop (length ([] : list (list BalanceRow)))
                (inserts (writeBalances "active_ongoing" "pending_queued" "pending_initialized"
                            "active_slashed" "exited_slashed" 1 secondFails registry 320
                            1700000000 3 (mkWorld threeValidators [] [])).2))
      = writeRow registry 320 1700000000
          <$> List.filter (has registry) (take (1 * done) threeValidators)
    ∧ secondFails
        (inserts (writeBalances "active_ongoing" "pending_queued" "pending_initialized"
                    "active_slashed" "exited_slashed" 1 secondFails registry 320 1700000000
                    3 (mkWorld threeValidators [] [])).2)
        (writeRow registry 320 1700000000
           <$> List.filter (has registry) (take 1 (drop (1 * done) threeValidators)))
      = Some "timeout"
    ∧ balances (writeBalances "active_ongoing" "pending_queued" "pending_initialized"
                  "active_slashed" "exited_slashed" 1 secondFails registry 320 1700000000
                  3 (mkWorld threeValidators [] [])).2
      = drop (1 * S done) threeValidators
    ∧ logged (writeBalances "active_ongoing" "pending_queued" "pending_initialized"
                "active_slashed" "exited_slashed" 1 secondFails registry 320 1700000000
                3 (mkWorld threeValidators [] [])).2
      = [].
Proof.
  apply (writeBalances_rejected "active_ongoing" "pending_queued" "pending_initialized"
           "active_slashed" "exited_slashed" 1 secondFails registry 320 1700000000
           3 (mkWorld threeValidators [] []) "timeout").
  vm_compute. reflexivity.
Defined.

(** There the second validator is lost: its insert was rejected and the
    array the caller still holds starts at the third. *)
Example second_validator_lost :
  let after :=
    (writeBalances "active_ongoing" "pending_queued" "pending_initialized"
       "active_slashed" "exited_slashed" 1 secondFails registry 320 1700000000
       3 (mkWorld threeValidators [] [])).2 in
  row_validator_id <$> concat (inserts after) = ["1"]
  ∧ index <$> balances after = ["3"].
Proof. split; vm_compute; reflexivity. Qed.

(* --------------------------------------------------------------------- *)
(** ** [writeSyncs]                                                        *)
(* --------------------------------------------------------------------- *)

(** One participant of [syncResult.user_validators], the result itself
    and [ValidatorIdentifications]; the percentages are kept as the text
    the row renders. *)
Record SyncParticipation := mkParticipation {
  validator_index : string;
  epoch_participation_percent : string
}.

Record CheckSyncCommitteeParticipationResult := mkSyncResult {
  all_avg_participation : string;
  user_validators : list SyncParticipation
}.

Record ValidatorIdentifications := mkIdentification {
  id_validator_id : string;
  id_validator_pubkey : string
}.

(** A row of [stats.validator_sync] *)
Record SyncRow := mkSyncRow {
  sync_start_fetch_time : Z;
  sync_validator_pubkey : string;
  sync_validator_id : string;
  sync_last_slot_of_epoch : Z;
  sync_epoch_participation_percent : string;
  sync_epoch_chain_participation_percent_avg : string;
  sync_nos_id : option nat;
  sync_nos_name : string
}.

Section WriteSyncs.
(** [config.get('FETCH_INTERVAL_SLOTS')], the registry, and the retried
    [ws.exec()] of the one insert. *)
Variable FETCH_INTERVAL_SLOTS : Z.
Variable keysIndexed : gmap string FileSource.Key.
Variable exec : list SyncRow → option string.

(** [epoch * FETCH_INTERVAL_SLOTS + FETCH_INTERVAL_SLOTS - 1n] *)
Definition last_slot_of_epoch (epoch : Z) : Z :=
  epoch * FETCH_INTERVAL_SLOTS + FETCH_INTERVAL_SLOTS - 1.

(** [userIDs.find((v) => v.validator_id === p.validator_index)?.validator_pubkey || ''] *)
Definition pubKey (userIDs : list ValidatorIdentifications) (p : SyncParticipation) : string :=
  match List.find (λ v, String.eqb (id_validator_id v) (validator_index p)) userIDs with
  | Some v => id_validator_pubkey v
  | None => ""
  end.

Definition writeSyncRow (syncResult : CheckSyncCommitteeParticipationResult) (slotTime : Z)
    (userIDs : list ValidatorIdentifications) (epoch : Z) (p : SyncParticipation) : SyncRow :=
  {| sync_start_fetch_time := slotTime;
     sync_validator_pubkey := pubKey userIDs p;
     sync_validator_id := validator_index p;
     sync_last_slot_of_epoch := last_slot_of_epoch epoch;
     sync_epoch_participation_percent := epoch_participation_percent p;
     sync_epoch_chain_participation_percent_avg := all_avg_participation syncResult;
     sync_nos_id := nosId keysIndexed (pubKey userIDs p);
     sync_nos_name := nosName keysIndexed (pubKey userIDs p) |}.

(** [writeSyncs]: all the rows go into one insert. *)
Definition writeSyncs (syncResult : CheckSyncCommitteeParticipationResult) (slotTime : Z)
    (userIDs : list ValidatorIdentifications) (epoch : Z) (db : list (list SyncRow))
  : outcome unit * list (list SyncRow) :=
  let ws := writeSyncRow syncResult slotTime userIDs epoch <$> user_validators syncResult in
  match exec ws with
  | Some e => (Rejected e, db)
  | None => (Resolved tt, db ++ [ws])
  end.



End WriteSyncs.


(** A participant that is not among the user's validators is written
    with an empty key and no operator. *)
Example unknown_participant_row :
  (writeSyncs 32 registry (λ _, None)
     (mkSyncResult "97.5" [mkParticipation "1" "100"; mkParticipation "9" "50"])
     1700000000 [mkIdentification "1" "0xa1"] 2 []).2
  = [[mkSyncRow 1700000000 "0xa1" "1" 95 "100" "97.5" (Some 0%nat) "Operator A";
      mkSyncRow 1700000000 "" "9" 95 "50" "97.5" None "NULL"]].
Proof. vm_compute. reflexivity. Qed.

End Storage.
